(** * Weather app: the resilient, cache-fronted fetch core

    A shallow embedding of the TTL-LRU store ([services/cache]), of the
    circuit breaker, the retry executor, the timeout guard and the API
    service ([services/weatherApi.ts]) and of the orchestrating hook
    ([hooks/useWeatherData]), with the properties the specification
    states about them.

    Conventions of the embedding:
    - a JS [number] that holds a count, a rank or a time in milliseconds
      is a [Z]; the hit rate, the only quotient, is a [Q];
    - [Date.now()] is an explicit argument of the store's methods and a
      field of the [World] threaded through the asynchronous code;
    - a JS [Map] is an association list in insertion order, because
      [evictLRU] iterates it;
    - a promise that this code awaits is a function from the [World] to
      an outcome ([Ok] or [Err]) and a new [World]. *)

From Stdlib Require Import ZArith QArith Lia Bool.
From stdpp Require Import base decidable list strings.
From Equations Require Import Equations.

Local Open Scope Z_scope.

(** ** JavaScript [Map]: an insertion-ordered association list *)

Module JsMap.
Section JsMap.
Context {K A : Type} `{EqDecision K}.

(** [Map.prototype.get]: [None] stands for [undefined]. *)
Fixpoint get (m : list (K * A)) (k : K) : option A :=
  match m with
  | [] => None
  | (k', a) :: r => if decide (k = k') then Some a else get r k
  end.

(** [Map.prototype.has]. *)
Definition has (m : list (K * A)) (k : K) : bool :=
  match get m k with Some _ => true | None => false end.

(** [Map.prototype.set]: an existing key keeps its position, a new key
    goes to the end. *)
Fixpoint set (m : list (K * A)) (k : K) (a : A) : list (K * A) :=
  match m with
  | [] => [(k, a)]
  | (k', a') :: r =>
      if decide (k = k') then (k, a) :: r else (k', a') :: set r k a
  end.

(** [Map.prototype.delete], the map it leaves; the boolean it returns
    is [has] before the call. *)
Fixpoint delete (m : list (K * A)) (k : K) : list (K * A) :=
  match m with
  | [] => []
  | (k', a') :: r =>
      if decide (k = k') then delete r k else (k', a') :: delete r k
  end.

(** The [size] property. *)
Definition size (m : list (K * A)) : Z := Z.of_nat (length m).

Definition keys (m : list (K * A)) : list K := map fst m.
End JsMap.
End JsMap.

(** ** [CacheEntry<T>] of [types/weather] *)

Record CacheEntry (V : Type) : Type := mkCacheEntry {
  data : V;
  timestamp : Z;
  expiresAt : Z
}.
Arguments mkCacheEntry {V} _ _ _.
Arguments data {V} _.
Arguments timestamp {V} _.
Arguments expiresAt {V} _.

(** [ttl || this.defaultTTL]: an absent [ttl] and the falsy number [0]
    both select the default. *)
Definition js_or (ttl : option Z) (dflt : Z) : Z :=
  match ttl with
  | Some t => if t =? 0 then dflt else t
  | None => dflt
  end.

(** ** [class LRUCache<K, V>] *)

Module LRUCache.

Record t (K V : Type) : Type := mk {
  cache : list (K * CacheEntry V);
  accessOrder : list (K * Z);
  accessCounter : Z;
  maxSize : Z;
  defaultTTL : Z
}.
Arguments mk {K V} _ _ _ _ _.
Arguments cache {K V} _.
Arguments accessOrder {K V} _.
Arguments accessCounter {K V} _.
Arguments maxSize {K V} _.
Arguments defaultTTL {K V} _.

(** The statistics object of [getStats]; [hitRate] is the constant of
    [calculateHitRate]. *)
Record Stats : Type := mkStats {
  st_size : Z;
  st_maxSize : Z;
  st_hitRate : Q;
  st_oldestEntry : option Z;
  st_newestEntry : option Z
}.

Section LRUCache.
Context {K V : Type} `{EqDecision K}.

(** [new LRUCache(maxSize, defaultTTL)]. *)
Definition new (maxSize defaultTTL : Z) : t K V :=
  mk [] [] 0 maxSize defaultTTL.

(** [delete(key)]. *)
Definition delete (key : K) (c : t K V) : bool * t K V :=
  (JsMap.has (cache c) key,
   mk (JsMap.delete (cache c) key) (JsMap.delete (accessOrder c) key)
      (accessCounter c) (maxSize c) (defaultTTL c)).

(** [get(key)] at time [now]. *)
Definition get (now : Z) (key : K) (c : t K V) : option V * t K V :=
  match JsMap.get (cache c) key with
  | None => (None, c)
  | Some entry =>
      if expiresAt entry <? now then (None, snd (delete key c))
      else
        (Some (data entry),
         mk (cache c)
            (JsMap.set (accessOrder c) key (accessCounter c + 1))
            (accessCounter c + 1) (maxSize c) (defaultTTL c))
  end.

(** The loop of [evictLRU]: [lruAccessTime] starts at [Infinity],
    written [None]; a key replaces the candidate only when its access
    time is strictly smaller. *)
Fixpoint lruScan (l : list (K * Z)) (lruKey : option K)
    (lruAccessTime : option Z) : option K :=
  match l with
  | [] => lruKey
  | (key, accessTime) :: r =>
      if match lruAccessTime with
         | None => true
         | Some t => accessTime <? t
         end
      then lruScan r (Some key) (Some accessTime)
      else lruScan r lruKey lruAccessTime
  end.

Definition lruKey (c : t K V) : option K :=
  lruScan (accessOrder c) None None.

(** [evictLRU()]. *)
Definition evictLRU (c : t K V) : t K V :=
  if JsMap.size (cache c) =? 0 then c
  else
    match lruKey c with
    | Some k => snd (delete k c)
    | None => c
    end.

(** [set(key, value, ttl)] at time [now]. *)
Definition set (now : Z) (key : K) (value : V) (ttl : option Z)
    (c : t K V) : t K V :=
  let entry :=
    mkCacheEntry value now (now + js_or ttl (defaultTTL c)) in
  if JsMap.has (cache c) key then
    mk (JsMap.set (cache c) key entry)
       (JsMap.set (accessOrder c) key (accessCounter c + 1))
       (accessCounter c + 1) (maxSize c) (defaultTTL c)
  else
    let c' :=
      if maxSize c <=? JsMap.size (cache c) then evictLRU c else c in
    mk (JsMap.set (cache c') key entry)
       (JsMap.set (accessOrder c') key (accessCounter c' + 1))
       (accessCounter c' + 1) (maxSize c') (defaultTTL c').

(** [has(key)] at time [now]. *)
Definition has (now : Z) (key : K) (c : t K V) : bool * t K V :=
  match JsMap.get (cache c) key with
  | None => (false, c)
  | Some entry =>
      if expiresAt entry <? now then (false, snd (delete key c))
      else (true, c)
  end.

(** [clear()]. *)
Definition clear (c : t K V) : t K V :=
  mk [] [] 0 (maxSize c) (defaultTTL c).

(** The [size] getter. *)
Definition size (c : t K V) : Z := JsMap.size (cache c).

(** [keys()] at time [now]: the loop visits the entries in order,
    collects the valid keys and deletes the expired ones. *)
Fixpoint keysLoop (now : Z) (entries : list (K * CacheEntry V))
    (validKeys : list K) (c : t K V) : list K * t K V :=
  match entries with
  | [] => (validKeys, c)
  | (key, entry) :: r =>
      if now <=? expiresAt entry
      then keysLoop now r (validKeys ++ [key]) c
      else keysLoop now r validKeys (snd (delete key c))
  end.

Definition keys (now : Z) (c : t K V) : list K * t K V :=
  keysLoop now (cache c) [] c.

(** [cleanup()] at time [now]. *)
Definition expiredKeys (now : Z) (entries : list (K * CacheEntry V))
    : list K :=
  map fst (filter (fun ke => expiresAt (snd ke) < now) entries).

Definition cleanup (now : Z) (c : t K V) : Z * t K V :=
  let keysToDelete := expiredKeys now (cache c) in
  (Z.of_nat (length keysToDelete),
   fold_left (fun c' key => snd (delete key c')) keysToDelete c).

(** [calculateHitRate()]: the placeholder constant. *)
Definition calculateHitRate (c : t K V) : Q :=
  if 0 <? JsMap.size (cache c) then (85 # 100)%Q else 0%Q.

(** [getStats()] at time [now]: a scan over the unexpired entries. *)
Definition statsStep (now : Z) (acc : Z * option Z * option Z)
    (entry : CacheEntry V) : Z * option Z * option Z :=
  let '(validEntries, oldest, newest) := acc in
  if now <=? expiresAt entry then
    (validEntries + 1,
     match oldest with
     | None => Some (timestamp entry)
     | Some o => if timestamp entry <? o then Some (timestamp entry) else Some o
     end,
     match newest with
     | None => Some (timestamp entry)
     | Some n => if n <? timestamp entry then Some (timestamp entry) else Some n
     end)
  else acc.

Definition getStats (now : Z) (c : t K V) : Stats :=
  let '(validEntries, oldest, newest) :=
    fold_left (statsStep now) (map snd (cache c)) (0, None, None) in
  mkStats validEntries (maxSize c) (calculateHitRate c) oldest newest.
End LRUCache.
End LRUCache.

(** A call of a method of the store that can change it, with the clock
    reading it sees. *)
Inductive Op (K V : Type) : Type :=
| OpGet (now : Z) (key : K)
| OpSet (now : Z) (key : K) (value : V) (ttl : option Z)
| OpHas (now : Z) (key : K)
| OpDelete (key : K)
| OpClear
| OpKeys (now : Z)
| OpCleanup (now : Z).
Arguments OpGet {K V} _ _.
Arguments OpSet {K V} _ _ _ _.
Arguments OpHas {K V} _ _.
Arguments OpDelete {K V} _.
Arguments OpClear {K V}.
Arguments OpKeys {K V} _.
Arguments OpCleanup {K V} _.

Section StoreRuns.
Context {K V : Type} `{EqDecision K}.

Definition stepStore (c : LRUCache.t K V) (o : Op K V) : LRUCache.t K V :=
  match o with
  | OpGet now key => snd (LRUCache.get now key c)
  | OpSet now key value ttl => LRUCache.set now key value ttl c
  | OpHas now key => snd (LRUCache.has now key c)
  | OpDelete key => snd (LRUCache.delete key c)
  | OpClear => LRUCache.clear c
  | OpKeys now => snd (LRUCache.keys now c)
  | OpCleanup now => snd (LRUCache.cleanup now c)
  end.

Definition runStore (ops : list (Op K V)) (c : LRUCache.t K V)
    : LRUCache.t K V :=
  fold_left stepStore ops c.

(** The key a call touches: [set] touches its key, [get] touches its
    key when it returns a value. *)
Definition touches (o : Op K V) (c : LRUCache.t K V) : option K :=
  match o with
  | OpSet _ key _ _ => Some key
  | OpGet now key =>
      match fst (LRUCache.get now key c) with
      | Some _ => Some key
      | None => None
      end
  | _ => None
  end.
End StoreRuns.

(** ** [class CacheManager<K, V>] *)

Module CacheManager.

Record t (K V : Type) : Type := mk {
  cache : LRUCache.t K V;
  hitCount : Z;
  missCount : Z
}.
Arguments mk {K V} _ _ _.
Arguments cache {K V} _.
Arguments hitCount {K V} _.
Arguments missCount {K V} _.

(** The object [getStats] returns. *)
Record Stats : Type := mkStats {
  size : Z;
  maxSize : Z;
  hitRate : Q;
  oldestEntry : option Z;
  newestEntry : option Z;
  statHitCount : Z;
  statMissCount : Z
}.

Section CacheManager.
Context {K V : Type} `{EqDecision K}.

(** [new CacheManager(maxSize, ttl)]; the interval timer it starts is
    the [MTick] event below. *)
Definition new (maxSize ttl : Z) : t K V :=
  mk (LRUCache.new maxSize ttl) 0 0.

Definition get (now : Z) (key : K) (m : t K V) : option V * t K V :=
  let '(value, c) := LRUCache.get now key (cache m) in
  match value with
  | Some _ => (value, mk c (hitCount m + 1) (missCount m))
  | None => (value, mk c (hitCount m) (missCount m + 1))
  end.

Definition set (now : Z) (key : K) (value : V) (ttl : option Z)
    (m : t K V) : t K V :=
  mk (LRUCache.set now key value ttl (cache m)) (hitCount m) (missCount m).

Definition has (now : Z) (key : K) (m : t K V) : bool * t K V :=
  let '(b, c) := LRUCache.has now key (cache m) in
  (b, mk c (hitCount m) (missCount m)).

Definition delete (key : K) (m : t K V) : bool * t K V :=
  let '(b, c) := LRUCache.delete key (cache m) in
  (b, mk c (hitCount m) (missCount m)).

Definition clear (m : t K V) : t K V :=
  mk (LRUCache.clear (cache m)) 0 0.

Definition getHitRate (m : t K V) : Q :=
  let total := hitCount m + missCount m in
  if 0 <? total then (inject_Z (hitCount m) / inject_Z total)%Q else 0%Q.

(** [{...this.cache.getStats(), hitCount, missCount, hitRate}]: the
    spread copies the store's [hitRate], the later property of the
    same name replaces it. *)
Definition getStats (now : Z) (m : t K V) : Stats :=
  let s := LRUCache.getStats now (cache m) in
  let spread :=
    mkStats (LRUCache.st_size s) (LRUCache.st_maxSize s)
            (LRUCache.st_hitRate s) (LRUCache.st_oldestEntry s)
            (LRUCache.st_newestEntry s) (hitCount m) (missCount m) in
  mkStats (size spread) (maxSize spread) (getHitRate m)
          (oldestEntry spread) (newestEntry spread)
          (statHitCount spread) (statMissCount spread).

(** The callback of the cleanup interval. *)
Definition tick (now : Z) (m : t K V) : t K V :=
  mk (snd (LRUCache.cleanup now (cache m))) (hitCount m) (missCount m).
End CacheManager.
End CacheManager.

(** A call on the manager (or a firing of its cleanup timer) and the
    value the caller observes. *)
Inductive MOp (K V : Type) : Type :=
| MGet (now : Z) (key : K)
| MSet (now : Z) (key : K) (value : V) (ttl : option Z)
| MHas (now : Z) (key : K)
| MDelete (key : K)
| MClear
| MTick (now : Z).
Arguments MGet {K V} _ _.
Arguments MSet {K V} _ _ _ _.
Arguments MHas {K V} _ _.
Arguments MDelete {K V} _.
Arguments MClear {K V}.
Arguments MTick {K V} _.

Inductive MOut (V : Type) : Type :=
| OutGet (value : option V)
| OutBool (b : bool)
| OutReset
| OutVoid.
Arguments OutGet {V} _.
Arguments OutBool {V} _.
Arguments OutReset {V}.
Arguments OutVoid {V}.

Section ManagerRuns.
Context {K V : Type} `{EqDecision K}.

Definition stepManager (m : CacheManager.t K V) (o : MOp K V)
    : MOut V * CacheManager.t K V :=
  match o with
  | MGet now key =>
      let '(v, m') := CacheManager.get now key m in (OutGet v, m')
  | MSet now key value ttl => (OutVoid, CacheManager.set now key value ttl m)
  | MHas now key =>
      let '(b, m') := CacheManager.has now key m in (OutBool b, m')
  | MDelete key =>
      let '(b, m') := CacheManager.delete key m in (OutBool b, m')
  | MClear => (OutReset, CacheManager.clear m)
  | MTick now => (OutVoid, CacheManager.tick now m)
  end.

(** Runs the calls in order; the observations come out in order too. *)
Fixpoint runManager (ops : list (MOp K V)) (m : CacheManager.t K V)
    : list (MOut V) * CacheManager.t K V :=
  match ops with
  | [] => ([], m)
  | o :: r =>
      let '(out, m') := stepManager m o in
      let '(outs, m'') := runManager r m' in
      (out :: outs, m'')
  end.

(** Lookups that returned a value, and lookups that returned nothing,
    since the last reset: counted on the observations alone. *)
Fixpoint hitsSinceReset (acc : Z) (outs : list (MOut V)) : Z :=
  match outs with
  | [] => acc
  | OutGet (Some _) :: r => hitsSinceReset (acc + 1) r
  | OutReset :: r => hitsSinceReset 0 r
  | _ :: r => hitsSinceReset acc r
  end.

Fixpoint missesSinceReset (acc : Z) (outs : list (MOut V)) : Z :=
  match outs with
  | [] => acc
  | OutGet None :: r => missesSinceReset (acc + 1) r
  | OutReset :: r => missesSinceReset 0 r
  | _ :: r => missesSinceReset acc r
  end.
End ManagerRuns.

(** ** Errors, outcomes and the world of the asynchronous code *)

(** The [name] property of the error classes that occur: the three
    classes of [weatherApi.ts], the plain [Error], and the errors the
    runtime raises ([AbortError] for an aborted fetch, [TypeError] for a
    failed one, [SyntaxError] for a body that is not JSON). *)
Inductive ErrorName : Type :=
| NetworkError | ValidationError | ApiError
| PlainError | AbortError | TypeError | SyntaxError.

Record WeatherError : Type := mkError {
  name : ErrorName;
  message : string;
  status : option Z;
  code : option string
}.

(** How a promise settles. *)
Inductive Result (T : Type) : Type :=
| Ok (value : T)
| Err (error : WeatherError).
Arguments Ok {T} _.
Arguments Err {T} _.

Definition isOk {T : Type} (r : Result T) : bool :=
  match r with Ok _ => true | Err _ => false end.

(** The fields of a [CircuitBreaker] object. *)
Inductive BreakerState : Type := CLOSED | OPEN | HALF_OPEN.

Record Breaker : Type := mkBreaker {
  failureCount : Z;
  lastFailureTime : Z;
  state : BreakerState;
  failureThreshold : Z;
  recoveryTimeout : Z
}.

(** The world an asynchronous function runs in: the clock that
    [Date.now()] reads, how many times the downstream operation has been
    invoked, how many numbers [Math.random()] has handed out, and the
    circuit breaker object of the service, which every closure running
    in this world shares. *)
Record World : Type := mkWorld {
  clock : Z;
  invoked : nat;
  drawn : nat;
  breaker : Breaker
}.

Definition setBreaker (b : Breaker) (w : World) : World :=
  mkWorld (clock w) (invoked w) (drawn w) b.

(** A function returning a promise, run until the promise settles. *)
Definition Async (T : Type) : Type := World -> Result T * World.

(** Time passes: the world [ms] milliseconds later. *)
Definition elapse (ms : Z) (w : World) : World :=
  mkWorld (clock w + Z.max 0 ms) (invoked w) (drawn w) (breaker w).

(** The delay a timer waits for: [setTimeout] keeps its delay in a
    signed 32-bit integer, and takes a delay below 1 or above
    [2 ^ 31 - 1] for 1. *)
Definition TIMEOUT_MAX : Z := 2147483647.

Definition timerDelay (delay : Z) : Z :=
  if (delay <? 1) || (TIMEOUT_MAX <? delay) then 1 else delay.

(** [await new Promise((resolve) => setTimeout(resolve, delay))]. *)
Definition sleep (delay : Z) (w : World) : World :=
  mkWorld (clock w + timerDelay delay) (invoked w) (drawn w) (breaker w).

(** [Math.random()] hands out its next number. *)
Definition draw (w : World) : World :=
  mkWorld (clock w) (invoked w) (S (drawn w)) (breaker w).

(** A downstream operation given by a script: its [i]-th invocation
    (counted from 0) takes [latency i] milliseconds and settles as
    [outcome i]. It does not touch the breaker. *)
Definition scripted {T : Type} (outcome : nat -> Result T)
    (latency : nat -> Z) : Async T :=
  fun w =>
    (outcome (invoked w),
     mkWorld (clock w + latency (invoked w)) (S (invoked w)) (drawn w)
             (breaker w)).

(** Each run of the operation is one more invocation. *)
Definition counted {T : Type} (fn : Async T) : Prop :=
  forall w, invoked (snd (fn w)) = S (invoked w).

(** The run of the operation that is its [i]-th invocation (counted
    from 0) fails, or succeeds, in whatever world it happens. *)
Definition failsAt {T : Type} (fn : Async T) (i : nat) : Prop :=
  forall w, invoked w = i -> isOk (fst (fn w)) = false.

Definition succeedsAt {T : Type} (fn : Async T) (i : nat) : Prop :=
  forall w, invoked w = i -> isOk (fst (fn w)) = true.

(** An operation that leaves the breaker alone. *)
Definition keepsBreaker {T : Type} (fn : Async T) : Prop :=
  forall w, breaker (snd (fn w)) = breaker w.

(** ** [class CircuitBreaker] *)

Module CircuitBreaker.

(** [new CircuitBreaker(failureThreshold, recoveryTimeout)]; the
    defaults are 5 and 60000. *)
Definition new (failureThreshold recoveryTimeout : Z) : Breaker :=
  mkBreaker 0 0 CLOSED failureThreshold recoveryTimeout.

Definition withState (s : BreakerState) (b : Breaker) : Breaker :=
  mkBreaker (failureCount b) (lastFailureTime b) s
            (failureThreshold b) (recoveryTimeout b).

(** The error of the fail-fast branch. *)
Definition breakerOpen : WeatherError :=
  mkError NetworkError "Circuit breaker is OPEN" None None.

(** [onSuccess()]. *)
Definition onSuccess (b : Breaker) : Breaker :=
  mkBreaker 0 (lastFailureTime b) CLOSED
            (failureThreshold b) (recoveryTimeout b).

(** [onFailure()], with the reading of [Date.now()]. *)
Definition onFailure (now : Z) (b : Breaker) : Breaker :=
  let count := failureCount b + 1 in
  mkBreaker count now
            (if failureThreshold b <=? count then OPEN else state b)
            (failureThreshold b) (recoveryTimeout b).

(** The first statement of [call]: the gate. [inl] is the breaker with
    which the call goes on, [inr] the error it throws. *)
Definition gate (now : Z) (b : Breaker) : Breaker + WeatherError :=
  match state b with
  | OPEN =>
      if recoveryTimeout b <? now - lastFailureTime b
      then inl (withState HALF_OPEN b)
      else inr breakerOpen
  | _ => inl b
  end.

(** [call(fn)]: [fn] runs in the world the gate leaves, and the
    callbacks update the breaker as [fn] leaves it. *)
Definition call {T : Type} (fn : Async T) : Async T :=
  fun w =>
    match gate (clock w) (breaker w) with
    | inr e => (Err e, w)
    | inl b1 =>
        let '(r, w') := fn (setBreaker b1 w) in
        match r with
        | Ok result => (Ok result, setBreaker (onSuccess (breaker w')) w')
        | Err error =>
            (Err error, setBreaker (onFailure (clock w') (breaker w')) w')
        end
    end.

End CircuitBreaker.

(** ** [retryWithBackoff] and [withTimeout] *)

Section Resilience.
Context {T : Type}.

(** [jitter k] is [Math.random() * 1000] at the [k]-th draw, as the
    timer rounds it to milliseconds. *)
Variable jitter : nat -> Z.

Definition maxRetriesExceeded : WeatherError :=
  mkError PlainError "Max retries exceeded" None None.

(** The [for] loop of [retryWithBackoff], from the value [attempt] of
    its counter on. *)
Equations? retryLoop (fn : Async T) (maxRetries baseDelay : Z)
    (attempt : Z) (w : World) : Result T * World
    by wf (Z.to_nat (maxRetries + 1 - attempt)) lt :=
  retryLoop fn maxRetries baseDelay attempt w
    with Z_le_dec attempt maxRetries => {
    | right _ => (Err maxRetriesExceeded, w);
    | left _ with fn w => {
        | (Ok result, w1) => (Ok result, w1);
        | (Err error, w1) with Z.eq_dec attempt maxRetries => {
            | left _ => (Err error, w1);
            | right _ =>
                let delay := baseDelay * 2 ^ attempt + jitter (drawn w1) in
                retryLoop fn maxRetries baseDelay (attempt + 1)
                  (sleep delay (draw w1)) } } }.
Proof. lia. Qed.

(** [retryWithBackoff(fn, maxRetries, baseDelay)]; the defaults are 3
    and 1000. *)
Definition retryWithBackoff (fn : Async T) (maxRetries baseDelay : Z)
    : Async T :=
  retryLoop fn maxRetries baseDelay 0.

Definition requestTimeout : WeatherError :=
  mkError NetworkError "Request timeout" None (Some "TIMEOUT").

(** [withTimeout(promise, timeoutMs)]: the promise is already running
    when the timer is set; the timer wins when the promise needs more
    than the delay the timer waits for, and then the caller goes on at
    the time the timer fired. What the promise did to the world stays
    done. *)
Definition withTimeout (promise : Async T) (timeoutMs : Z) : Async T :=
  fun w =>
    let '(r, w') := promise w in
    if timerDelay timeoutMs <? clock w' - clock w
    then (Err requestTimeout,
          mkWorld (clock w + timerDelay timeoutMs) (invoked w') (drawn w')
                  (breaker w'))
    else (r, w').
End Resilience.

(** ** [class WeatherApiService] *)

(** A JS string, as its UTF-16 code units: [length] counts them and the
    regular expression of [validateCityName], which has no [u] flag,
    matches them one by one. *)
Abbreviation JsString := (list N).

Definition isAsciiLetter (c : N) : bool :=
  ((65 <=? c) && (c <=? 90) || (97 <=? c) && (c <=? 122))%N.

(** The class escape [\s]: the white space and the line terminators of
    ECMAScript. *)
Definition isWhiteSpace (c : N) : bool :=
  ((9 <=? c) && (c <=? 13) || (c =? 32) || (c =? 160) || (c =? 5760)
   || (8192 <=? c) && (c <=? 8202) || (c =? 8232) || (c =? 8233)
   || (c =? 8239) || (c =? 8287) || (c =? 12288) || (c =? 65279))%N.

(** The character class [[a-zA-Z\s\-',.]]. *)
Definition cityChar (c : N) : bool :=
  (isAsciiLetter c || isWhiteSpace c
   || (c =? 45) || (c =? 39) || (c =? 44) || (c =? 46))%N.

(** [/^[a-zA-Z\s\-',.]+$/.test(city)]. *)
Definition cityPattern (city : JsString) : bool :=
  match city with
  | [] => false
  | _ => forallb cityChar city
  end.

(** The class of [cityChar] with the space alone in the place of
    [\s]: the ASCII letters, the space, the hyphen, the apostrophe, the
    comma and the period. *)
Definition listedCityChar (c : N) : bool :=
  (isAsciiLetter c
   || (c =? 32) || (c =? 45) || (c =? 39) || (c =? 44) || (c =? 46))%N.

(** The JSON body of a response, as far as the service looks at it. The
    body is the value [null], of which no property can be read, or
    another value, with its [message] property when that is truthy (as
    the string that [Error] makes of it), and with the payload when
    [isWeatherApiResponse] accepts the body. *)
Inductive Json (Payload : Type) : Type :=
| jsonNull
| mkJson (jsonMessage : option string) (jsonWeather : option Payload).
Arguments jsonNull {Payload}.
Arguments mkJson {Payload} _ _.

(** The payload of a body that [isWeatherApiResponse] accepts; the
    guard answers false for [null]. *)
Definition jsonWeather {Payload : Type} (json : Json Payload)
    : option Payload :=
  match json with
  | jsonNull => None
  | mkJson _ payload => payload
  end.

(** A [Response]: [body] is [None] when [response.json()] rejects. *)
Record Response (Payload : Type) : Type := mkResponse {
  ok : bool;
  responseStatus : Z;
  body : option (Json Payload)
}.
Arguments mkResponse {Payload} _ _ _.
Arguments ok {Payload} _.
Arguments responseStatus {Payload} _.
Arguments body {Payload} _.

(** What the network does with one [fetch]: how long it takes, and
    whether the promise rejects or resolves with a response. *)
Record NetReply (Payload : Type) : Type := mkReply {
  replyLatency : Z;
  reply : WeatherError + Response Payload
}.
Arguments mkReply {Payload} _ _.
Arguments replyLatency {Payload} _.
Arguments reply {Payload} _.

Definition REQUEST_TIMEOUT : Z := 10000.

Module WeatherApiService.

(** The fields of the service besides [circuitBreaker], which is the
    breaker of the world. An [AbortController] is known by the number
    it was created with; [aborted] lists those whose [abort()] was
    called. *)
Record t : Type := mk {
  abortController : option nat;
  controllers : nat;
  aborted : list nat
}.

(** [new WeatherApiService()], and the world it starts in. *)
Definition new : t := mk None 0 [].

Definition newWorld (now : Z) : World :=
  mkWorld now 0 0 (CircuitBreaker.new 5 60000).

(** [cancelRequests()]. *)
Definition cancelRequests (s : t) : t :=
  match abortController s with
  | Some c => mk None (controllers s) (c :: aborted s)
  | None => s
  end.

(** [this.abortController = new AbortController()]. *)
Definition newController (s : t) : t :=
  mk (Some (controllers s)) (S (controllers s)) (aborted s).

Definition validationError (msg : string) : WeatherError :=
  mkError ValidationError msg None None.

(** [validateCityName(city)]: [inl tt] when it returns, [inr e] when it
    throws [e]. A [city] that is not a string is excluded by the type. *)
Definition validateCityName (city : JsString) : unit + WeatherError :=
  match city with
  | [] => inr (validationError "City name is required")
  | _ =>
      if (100 <? length city)%nat
      then inr (validationError "City name is too long")
      else if negb (cityPattern city)
      then inr (validationError "Invalid city name format")
      else inl tt
  end.

Definition apiError (msg : string) (st : Z) (c : string) : WeatherError :=
  mkError ApiError msg (Some st) (Some c).

(** [errorData]: the body of the response, or [{}] when
    [response.json()] rejects. *)
Definition errorDataOf {Payload : Type} (b : option (Json Payload))
    : Json Payload :=
  match b with
  | Some json => json
  | None => mkJson None None
  end.

(** The [switch (response.status)] of [fetchWeatherData]: the error it
    throws. Only the [default] case reads [errorData.message], and that
    is a [TypeError] when [errorData] is [null]. *)
Definition statusError {Payload : Type} (st : Z) (errorData : Json Payload)
    : WeatherError :=
  if st =? 404 then apiError "City not found" 404 "CITY_NOT_FOUND"
  else if st =? 401 then apiError "Invalid API key" 401 "INVALID_API_KEY"
  else if st =? 429 then apiError "Rate limit exceeded" 429 "RATE_LIMIT"
  else if (st =? 500) || (st =? 502) || (st =? 503) || (st =? 504)
  then apiError "Server error" st "SERVER_ERROR"
  else
    match errorData with
    | jsonNull =>
        mkError TypeError "Cannot read properties of null (reading 'message')"
          None None
    | mkJson errorMessage _ =>
        apiError (default "Unknown API error" errorMessage) st "UNKNOWN_ERROR"
    end.

Section Service.
Context {Payload WeatherData : Type}.

(** [transformWeatherData(response)], with the reading of [Date.now()]
    it stamps the result with. It reads [response.weather[0].description]
    and [response.sys.country], which [isWeatherApiResponse] does not
    check: [inl] is the object it returns, [inr] the message of the
    [TypeError] it throws when one of the two is missing. *)
Variable transformWeatherData : Payload -> Z -> WeatherData + string.

(** The behaviour of the network for a given city: its reply to the
    [i]-th [fetch] (counted from 0) since the world began. *)
Variable network : JsString -> nat -> NetReply Payload.

Variable jitter : nat -> Z.

(** [fetch(url, { signal })]. *)
Definition rawFetch (city : JsString) : Async (Response Payload) :=
  fun w =>
    let r := network city (invoked w) in
    (match reply r with inl e => Err e | inr response => Ok response end,
     mkWorld (clock w + replyLatency r) (S (invoked w)) (drawn w)
             (breaker w)).

(** The closure [fetchWeatherData] of [fetchWeather]. *)
Definition fetchWeatherData (city : JsString) : Async WeatherData :=
  fun w =>
    let '(r, w') := rawFetch city w in
    match r with
    | Err e => (Err e, w')
    | Ok response =>
        if negb (ok response) then
          let errorData := errorDataOf (body response) in
          (Err (statusError (responseStatus response) errorData), w')
        else
          match body response with
          | None =>
              (Err (mkError SyntaxError "Unexpected token" None None), w')
          | Some json =>
              match jsonWeather json with
              | None =>
                  (Err (validationError "Invalid API response format"), w')
              | Some payload =>
                  match transformWeatherData payload (clock w') with
                  | inl weatherData => (Ok weatherData, w')
                  | inr msg => (Err (mkError TypeError msg None None), w')
                  end
              end
          end
    end.

(** The closure handed to [retryWithBackoff]: one fetch under its
    timer, [() => withTimeout(fetchWeatherData(), REQUEST_TIMEOUT)]. *)
Definition attempt (city : JsString) : Async WeatherData :=
  withTimeout (fetchWeatherData city) REQUEST_TIMEOUT.

(** The network path of [fetchWeather]: the expression of its
    [return] statement. *)
Definition guardedFetch (city : JsString) : Async WeatherData :=
  CircuitBreaker.call (retryWithBackoff jitter (attempt city) 3 1000).

(** [fetchWeather(city)]. *)
Definition fetchWeather (city : JsString) (s : t) (w : World)
    : Result WeatherData * t * World :=
  match validateCityName city with
  | inr e => (Err e, s, w)
  | inl _ =>
      let s1 := newController (cancelRequests s) in
      let '(r, w') := guardedFetch city w in
      (r, s1, w')
  end.

(** The nesting that step 5 of the orchestrator's contract writes,
    [Timeout-Guard(Retry-Executor(Breaker.call(rawFetch)))], built
    from the same parts: the breaker around each single fetch, the
    retry loop around the breaker, one timer around everything. *)
Definition specGuardedFetch (city : JsString) : Async WeatherData :=
  withTimeout
    (retryWithBackoff jitter
       (CircuitBreaker.call (fetchWeatherData city)) 3 1000)
    REQUEST_TIMEOUT.
End Service.
End WeatherApiService.

(** ** The hook [useWeatherData] *)

(** The hook's [fetchWeather] is an [async] function: a call runs up to
    its [await] of the service and is suspended; it goes on when the
    promise of the service settles. In between the event loop may start
    other calls. The embedding has one event for each of the two
    halves. *)

Module UseWeatherData.

Definition CACHE_TTL : Z := 300000.
Definition MAX_CACHE_SIZE : Z := 50.
Definition MAX_SEARCH_HISTORY : nat := 10.

Record Metrics : Type := mkMetrics {
  requestCount : Z;
  averageResponseTime : Q;
  cacheHitRate : Q
}.

(** [WeatherState] of [types/weather]. *)
Record WeatherState (D : Type) : Type := mkState {
  data : option D;
  loading : bool;
  error : option WeatherError;
  metrics : Metrics
}.
Arguments mkState {D} _ _ _ _.
Arguments data {D} _.
Arguments loading {D} _.
Arguments error {D} _.
Arguments metrics {D} _.

(** [SearchHistory] of [types/weather]. *)
Record SearchHistory (D : Type) : Type := mkHistory {
  historyCity : JsString;
  historyTimestamp : Z;
  historyData : D
}.
Arguments mkHistory {D} _ _ _.
Arguments historyCity {D} _.

(** A suspended call of [fetchWeather]: its local variables, and the
    controller the service made for it. *)
Record Suspended : Type := mkSuspended {
  requestId : nat;
  normalizedCity : JsString;
  cityName : JsString;
  serviceController : option nat
}.

(** The state of the hook, its refs, the service singleton it calls and
    the calls of [fetchWeather] that are suspended. *)
Record t (D : Type) : Type := mk {
  state : WeatherState D;
  searchHistory : list (SearchHistory D);
  cacheRef : CacheManager.t JsString D;
  performanceTrackerRef : option Z;
  responseTimesRef : list Z;
  abortControllerRef : option nat;
  hookControllers : nat;
  hookAborted : list nat;
  service : WeatherApiService.t;
  suspended : list Suspended;
  nextRequest : nat
}.
Arguments mk {D} _ _ _ _ _ _ _ _ _ _ _.
Arguments state {D} _.
Arguments searchHistory {D} _.
Arguments cacheRef {D} _.
Arguments performanceTrackerRef {D} _.
Arguments responseTimesRef {D} _.
Arguments abortControllerRef {D} _.
Arguments hookControllers {D} _.
Arguments hookAborted {D} _.
Arguments service {D} _.
Arguments suspended {D} _.
Arguments nextRequest {D} _.

(** [String.prototype.trim]. *)
Fixpoint trimStart (s : JsString) : JsString :=
  match s with
  | c :: r => if isWhiteSpace c then trimStart r else s
  | [] => []
  end.

Definition trim (s : JsString) : JsString :=
  rev (trimStart (rev (trimStart s))).

Section Hook.
Context {D : Type}.

(** [String.prototype.toLowerCase], a function of the runtime. *)
Variable toLowerCase : JsString -> JsString.

(** The state after the first render. *)
Definition init : t D :=
  mk (mkState None false None (mkMetrics 0 0 0)) []
     (CacheManager.new MAX_CACHE_SIZE CACHE_TTL) None [] None 0 []
     WeatherApiService.new [] 0.

(** [endPerformanceTracking()]: the new tracker and response times. *)
Definition endPerformanceTracking (now : Z) (h : t D)
    : option Z * list Z :=
  match performanceTrackerRef h with
  | Some startTime =>
      let times := responseTimesRef h ++ [now - startTime] in
      (None,
       if (100 <? length times)%nat
       then drop (length times - 100) times
       else times)
  | None => (None, responseTimesRef h)
  end.

(** [getAverageResponseTime()]. *)
Definition getAverageResponseTime (times : list Z) : Q :=
  match times with
  | [] => 0%Q
  | _ => (inject_Z (fold_left Z.add times 0%Z)
          / inject_Z (Z.of_nat (length times)))%Q
  end.

(** [updateSearchHistory(city, data)]. *)
Definition updateSearchHistory (now : Z) (city : JsString) (d : D)
    (prev : list (SearchHistory D)) : list (SearchHistory D) :=
  take MAX_SEARCH_HISTORY
    (mkHistory city now d
     :: filter (fun entry => historyCity entry <> city) prev).

(** The [catch] block, for the error [e]. *)
Definition onError (now : Z) (e : WeatherError) (h : t D) : t D :=
  let '(tracker, times) := endPerformanceTracking now h in
  match name e with
  | AbortError =>
      mk (state h) (searchHistory h) (cacheRef h) tracker times
         (abortControllerRef h) (hookControllers h) (hookAborted h)
         (service h) (suspended h) (nextRequest h)
  | _ =>
      let prev := state h in
      mk (mkState (data prev) false (Some e)
            (mkMetrics (requestCount (metrics prev) + 1)
               (getAverageResponseTime times)
               (cacheHitRate (metrics prev))))
         (searchHistory h) (cacheRef h) tracker times
         (abortControllerRef h) (hookControllers h) (hookAborted h)
         (service h) (suspended h) (nextRequest h)
  end.

(** What follows [await weatherApiService.fetchWeather(cityName)] when
    the promise resolves with [weatherData]. *)
Definition onData (now : Z) (call : Suspended) (weatherData : D)
    (h : t D) : t D :=
  let '(tracker, times) := endPerformanceTracking now h in
  let cache :=
    CacheManager.set now (normalizedCity call) weatherData None
      (cacheRef h) in
  let prev := state h in
  mk (mkState (Some weatherData) false (error prev)
        (mkMetrics (requestCount (metrics prev) + 1)
           (getAverageResponseTime times)
           (CacheManager.getHitRate cache)))
     (updateSearchHistory now (cityName call) weatherData (searchHistory h))
     cache tracker times
     (abortControllerRef h) (hookControllers h) (hookAborted h)
     (service h) (suspended h) (nextRequest h).

(** [fetchWeather(city)] up to its [await]: the event [resolve]. *)
Definition resolve (now : Z) (city : JsString) (h : t D) : t D :=
  match trim city with
  | [] =>
      let prev := state h in
      mk (mkState (data prev) (loading prev)
            (Some (mkError PlainError "City name is required" None None))
            (metrics prev))
         (searchHistory h) (cacheRef h) (performanceTrackerRef h)
         (responseTimesRef h) (abortControllerRef h) (hookControllers h)
         (hookAborted h) (service h) (suspended h) (nextRequest h)
  | trimmed =>
      let normalized := toLowerCase trimmed in
      (* abortControllerRef.current?.abort(); a new AbortController *)
      let hookAborted' :=
        match abortControllerRef h with
        | Some c => c :: hookAborted h
        | None => hookAborted h
        end in
      let controller := Some (hookControllers h) in
      let controllers := S (hookControllers h) in
      (* startPerformanceTracking; setState loading *)
      let tracker := Some now in
      let prev := state h in
      let st := mkState (data prev) true None (metrics prev) in
      let '(cachedData, cache) :=
        CacheManager.get now normalized (cacheRef h) in
      let h1 :=
        mk st (searchHistory h) cache tracker (responseTimesRef h)
           controller controllers hookAborted' (service h)
           (suspended h) (nextRequest h) in
      match cachedData with
      | Some d =>
          let '(tracker', times) := endPerformanceTracking now h1 in
          mk (mkState (Some d) false (error st)
                (mkMetrics (requestCount (metrics st))
                   (averageResponseTime (metrics st))
                   (CacheManager.getHitRate cache)))
             (updateSearchHistory now trimmed d (searchHistory h))
             cache tracker' times
             controller controllers hookAborted' (service h)
             (suspended h) (nextRequest h)
      | None =>
          match WeatherApiService.validateCityName trimmed with
          | inr e => onError now e h1
          | inl _ =>
              let s :=
                WeatherApiService.newController
                  (WeatherApiService.cancelRequests (service h)) in
              mk st (searchHistory h) cache tracker (responseTimesRef h)
                 controller controllers hookAborted' s
                 (suspended h
                  ++ [mkSuspended (nextRequest h) normalized trimmed
                        (WeatherApiService.abortController s)])
                 (S (nextRequest h))
          end
      end
  end.

(** The promise that the suspended call [rid] awaits settles as [r]:
    the event [settle]. *)
Definition settle (now : Z) (rid : nat) (r : Result D) (h : t D) : t D :=
  match filter (fun c => requestId c = rid) (suspended h) with
  | [] => h
  | call :: _ =>
      let h1 :=
        mk (state h) (searchHistory h) (cacheRef h)
           (performanceTrackerRef h) (responseTimesRef h)
           (abortControllerRef h) (hookControllers h) (hookAborted h)
           (service h)
           (filter (fun c => requestId c <> rid) (suspended h))
           (nextRequest h) in
      match r with
      | Ok weatherData => onData now call weatherData h1
      | Err e => onError now e h1
      end
  end.
End Hook.

(** The events of the hook. *)
Inductive Event (D : Type) : Type :=
| Resolve (now : Z) (city : JsString)
| Settle (now : Z) (rid : nat) (r : Result D).
Arguments Resolve {D} _ _.
Arguments Settle {D} _ _ _.

Definition step {D : Type} (toLowerCase : JsString -> JsString)
    (h : t D) (e : Event D) : t D :=
  match e with
  | Resolve now city => resolve toLowerCase now city h
  | Settle now rid r => settle now rid r h
  end.

Definition run {D : Type} (toLowerCase : JsString -> JsString)
    (events : list (Event D)) (h : t D) : t D :=
  fold_left (step toLowerCase) events h.

End UseWeatherData.

(** ** Sample data *)

(** An ASCII literal as a JS string. *)
Fixpoint jsString (s : string) : JsString :=
  match s with
  | EmptyString => []
  | String a r => Ascii.N_of_ascii a :: jsString r
  end.

(** [toLowerCase] on ASCII letters. *)
Definition asciiToLowerCase (s : JsString) : JsString :=
  map (fun c => if ((65 <=? c) && (c <=? 90))%N then (c + 32)%N else c) s.

(** The error of a 404 response. *)
Definition notFound : WeatherError :=
  WeatherApiService.apiError "City not found" 404 "CITY_NOT_FOUND".

(** An operation that fails three times and then succeeds, each run
    taking 5 ms. *)
Definition failsThrice : Async nat :=
  scripted (fun i => if (i <? 3)%nat then Err notFound else Ok i)
           (fun _ => 5).

(** A network that answers every request with 404 at once, and one
    that answers every request with a weather report after 40 ms. *)
Definition alwaysNotFound : JsString -> nat -> NetReply string :=
  fun _ _ => mkReply 0 (inr (mkResponse false 404 None)).

Definition alwaysFine : JsString -> nat -> NetReply string :=
  fun _ _ =>
    mkReply 40 (inr (mkResponse true 200 (Some (mkJson None (Some "sunny"%string))))).

(** A network whose first answer takes 20 s and whose later answers
    take 40 ms. *)
Definition slowThenFine : JsString -> nat -> NetReply string :=
  fun _ i =>
    mkReply (if (i =? 0)%nat then 20000 else 40)
      (inr (mkResponse true 200 (Some (mkJson None (Some "sunny"%string))))).

(** A breaker that opened at time 1000. *)
Definition opened : Breaker := mkBreaker 5 1000 OPEN 5 60000.

Definition noJitter : nat -> Z := fun _ => 0.

(** Two cities, and a run of the hook: Lyon is fetched and cached;
    Paris is asked for and its fetch is under way; Lyon is asked for
    again and served from the cache; then the fetch for Paris
    resolves. *)
Definition paris : JsString := jsString "Paris".
Definition lyon : JsString := jsString "Lyon".

Definition lyonThenParisThenLyon : list (UseWeatherData.Event string) :=
  [UseWeatherData.Resolve 0 lyon;
   UseWeatherData.Settle 40 0 (Ok "report for Lyon"%string);
   UseWeatherData.Resolve 1000 paris;
   UseWeatherData.Resolve 1010 lyon].

Definition parisSettlesLate : list (UseWeatherData.Event string) :=
  lyonThenParisThenLyon
  ++ [UseWeatherData.Settle 1050 1 (Ok "report for Paris"%string)].

(** A network on which the first fetch is aborted and the later ones
    are answered. *)
Definition abortedThenFine : JsString -> nat -> NetReply string :=
  fun _ i =>
    if (i =? 0)%nat
    then mkReply 10 (inl (mkError AbortError "The operation was aborted" None None))
    else mkReply 40
           (inr (mkResponse true 200 (Some (mkJson None (Some "sunny"%string))))).

Definition stamp : string -> Z -> string + string :=
  fun payload _ => inl payload.

(** ** What the store keeps true *)

(** The two maps of the store hold the same keys in the same order, no
    key twice; the ranks in [accessOrder] are pairwise different and
    none is above [accessCounter]; the store holds no more than
    [maxSize] entries, or one entry when [maxSize] is below 1. *)
Record StoreInv {K V : Type} (c : LRUCache.t K V) : Prop := mkStoreInv {
  inv_keys : JsMap.keys (LRUCache.cache c) = JsMap.keys (LRUCache.accessOrder c);
  inv_nodup : NoDup (JsMap.keys (LRUCache.cache c));
  inv_ranks : Forall (fun kr => snd kr <= LRUCache.accessCounter c)
                (LRUCache.accessOrder c);
  inv_distinct : NoDup (map snd (LRUCache.accessOrder c));
  inv_size : LRUCache.size c <= Z.max 1 (LRUCache.maxSize c)
}.

(** Two states of a store with the same configuration. *)
Definition sameConfig {K V : Type} (c c' : LRUCache.t K V) : Prop :=
  LRUCache.maxSize c' = LRUCache.maxSize c
  /\ LRUCache.defaultTTL c' = LRUCache.defaultTTL c.

(** What a breaker lives through: time passes, or [call] is made with
    some operation. *)
Inductive BreakerEvent (T : Type) : Type :=
| Elapse (ms : Z)
| Call (fn : Async T).
Arguments Elapse {T} _.
Arguments Call {T} _.

Definition stepBreaker {T : Type} (w : World) (e : BreakerEvent T) : World :=
  match e with
  | Elapse ms => elapse ms w
  | Call fn => snd (CircuitBreaker.call fn w)
  end.

Definition runBreaker {T : Type} (events : list (BreakerEvent T)) (w : World)
    : World :=
  fold_left stepBreaker events w.

(** The operations of the calls leave the breaker alone. *)
Definition quietCalls {T : Type} (events : list (BreakerEvent T)) : Prop :=
  Forall (fun e => match e with
                   | Call fn => keepsBreaker fn
                   | Elapse _ => True
                   end) events.

(** Between calls a breaker (with a threshold of at least 1) is closed
    with fewer failures than its threshold, or open with at least as
    many. *)
Definition settled (b : Breaker) : Prop :=
  1 <= failureThreshold b
  /\ match state b with
     | CLOSED => 0 <= failureCount b < failureThreshold b
     | OPEN => failureThreshold b <= failureCount b
     | HALF_OPEN => False
     end.

(** The manager forwards its calls to the store: the call on the store
    that a call on the manager makes. *)
Definition toStoreOp {K V : Type} (o : MOp K V) : Op K V :=
  match o with
  | MGet now key => OpGet now key
  | MSet now key value ttl => OpSet now key value ttl
  | MHas now key => OpHas now key
  | MDelete key => OpDelete key
  | MClear => OpClear
  | MTick now => OpCleanup now
  end.

(** The entries that [keys], [getStats] and [cleanup] take for valid at
    time [now]. *)
Definition unexpired {K V : Type} (now : Z) (m : list (K * CacheEntry V))
    : list (K * CacheEntry V) :=
  filter (fun ke => now <= expiresAt (snd ke)) m.

(** [oldest] and [newest] bound the time stamps [seen], and are among
    them; both are absent when there are none. *)
Definition bounds (seen : list Z) (oldest newest : option Z) : Prop :=
  match oldest, newest with
  | None, None => seen = []
  | Some lo, Some hi =>
      lo ∈ seen /\ hi ∈ seen /\ Forall (fun t => lo <= t <= hi) seen
  | _, _ => False
  end.

(** An operation that draws no random number, and one whose every run
    takes between 0 and [d] milliseconds. *)
Definition keepsDraws {T : Type} (fn : Async T) : Prop :=
  forall w, drawn (snd (fn w)) = drawn w.

Definition takesAtMost {T : Type} (d : Z) (fn : Async T) : Prop :=
  forall w, clock w <= clock (snd (fn w)) <= clock w + d.

(** [healthCheck()] of the service, and what a service lives through:
    calls of its public methods, with time passing in between. *)
Section ServiceRuns.
Context {Payload WeatherData : Type}.
Variable transformWeatherData : Payload -> Z -> WeatherData + string.
Variable network : JsString -> nat -> NetReply Payload.
Variable jitter : nat -> Z.

Definition healthCheck (s : WeatherApiService.t) (w : World)
    : bool * WeatherApiService.t * World :=
  let '(r, s', w') :=
    WeatherApiService.fetchWeather transformWeatherData network jitter
      (jsString "London") s w in
  (isOk r, s', w').

Inductive ServiceCall : Type :=
| Wait (ms : Z)
| FetchWeather (city : JsString)
| CancelRequests
| HealthCheck.

Definition stepService (sw : WeatherApiService.t * World) (c : ServiceCall)
    : WeatherApiService.t * World :=
  let '(s, w) := sw in
  match c with
  | Wait ms => (s, elapse ms w)
  | FetchWeather city =>
      let '(_, s', w') :=
        WeatherApiService.fetchWeather transformWeatherData network jitter
          city s w in
      (s', w')
  | CancelRequests => (WeatherApiService.cancelRequests s, w)
  | HealthCheck => let '(_, s', w') := healthCheck s w in (s', w')
  end.

Definition runService (calls : list ServiceCall)
    (sw : WeatherApiService.t * World) : WeatherApiService.t * World :=
  fold_left stepService calls sw.

(** The city that a call hands to [validateCityName], if it makes a
    request at all. *)
Definition requestedCity (c : ServiceCall) : option JsString :=
  match c with
  | FetchWeather city => Some city
  | HealthCheck => Some (jsString "London")
  | _ => None
  end.
End ServiceRuns.
Arguments ServiceCall : clear implicits.

(** The calls that get past the validation. *)
Definition isRequest (c : ServiceCall) : bool :=
  match requestedCity c with
  | Some city =>
      match WeatherApiService.validateCityName city with
      | inl _ => true
      | inr _ => false
      end
  | None => false
  end.

(** Every fetch on the network is rejected or answered with a response
    that is not [ok]. *)
Definition down {Payload : Type} (network : JsString -> nat -> NetReply Payload)
    : Prop :=
  forall city i,
    match reply (network city i) with
    | inl _ => True
    | inr response => ok response = false
    end.

(** An operation that fails at every run, makes [per] invocations a
    run and leaves the breaker alone; events whose calls are all of
    such operations; and the number of calls among some events. *)
Definition alwaysFails {T : Type} (per : nat) (fn : Async T) : Prop :=
  keepsBreaker fn
  /\ (forall w, isOk (fst (fn w)) = false)
  /\ (forall w, invoked (snd (fn w)) = (invoked w + per)%nat).

Definition failingCalls {T : Type} (per : nat) (events : list (BreakerEvent T))
    : Prop :=
  Forall (fun e => match e with
                   | Call fn => alwaysFails per fn
                   | Elapse _ => True
                   end) events.

Definition isCall {T : Type} (e : BreakerEvent T) : bool :=
  match e with Call _ => true | Elapse _ => false end.

Definition callCount {T : Type} (events : list (BreakerEvent T)) : nat :=
  length (filter (fun e => isCall e = true) events).

(** What the hook keeps true of its buffers: the cache is a store of
    the configured capacity and time to live with counters that are
    not negative, the search history and the response times stay
    within their limits, no city is twice in the history, and the
    suspended calls have pairwise different numbers below the next
    one. *)
Record HookInv {D : Type} (h : UseWeatherData.t D) : Prop := mkHookInv {
  hook_store : StoreInv (CacheManager.cache (UseWeatherData.cacheRef h));
  hook_config :
    sameConfig
      (LRUCache.new (K := JsString) (V := D)
         UseWeatherData.MAX_CACHE_SIZE UseWeatherData.CACHE_TTL)
      (CacheManager.cache (UseWeatherData.cacheRef h));
  hook_hits : 0 <= CacheManager.hitCount (UseWeatherData.cacheRef h);
  hook_misses : 0 <= CacheManager.missCount (UseWeatherData.cacheRef h);
  hook_history :
    (length (UseWeatherData.searchHistory h)
     <= UseWeatherData.MAX_SEARCH_HISTORY)%nat;
  hook_cities :
    NoDup (map UseWeatherData.historyCity (UseWeatherData.searchHistory h));
  hook_times : (length (UseWeatherData.responseTimesRef h) <= 100)%nat;
  hook_rate :
    (0 <= UseWeatherData.cacheHitRate
            (UseWeatherData.metrics (UseWeatherData.state h)) <= 1)%Q;
  hook_ids :
    NoDup (map UseWeatherData.requestId (UseWeatherData.suspended h));
  hook_next :
    Forall (fun c => (UseWeatherData.requestId c
                      < UseWeatherData.nextRequest h)%nat)
      (UseWeatherData.suspended h)
}.

(** * Properties *)

(** ** The association list behaves as a [Map] *)

Section JsMapFacts.
Context {K A : Type} `{EqDecision K}.
Implicit Types (m : list (K * A)) (k : K) (a : A).

Lemma jsmap_get_set_eq m k a : JsMap.get (JsMap.set m k a) k = Some a.
Proof.
  induction m as [|[k' a'] r IH]; simpl.
  - by rewrite decide_True.
  - destruct (decide (k = k')) as [->|Hne]; simpl.
    + by rewrite decide_True.
    + by rewrite decide_False.
Qed.

Lemma jsmap_get_set_ne m k k' a :
  k <> k' -> JsMap.get (JsMap.set m k a) k' = JsMap.get m k'.
Proof.
  intros Hne. induction m as [|[k0 a0] r IH]; simpl.
  - by rewrite decide_False.
  - destruct (decide (k = k0)) as [->|Hk]; simpl.
    + by rewrite !(decide_False (P := k' = k0)).
    + by rewrite IH.
Qed.

Lemma jsmap_get_delete_eq m k : JsMap.get (JsMap.delete m k) k = None.
Proof.
  induction m as [|[k' a'] r IH]; simpl; [done|].
  destruct (decide (k = k')); simpl; [done|]. by rewrite decide_False.
Qed.

Lemma jsmap_get_delete_ne m k k' :
  k <> k' -> JsMap.get (JsMap.delete m k) k' = JsMap.get m k'.
Proof.
  intros Hne. induction m as [|[k0 a0] r IH]; simpl; [done|].
  destruct (decide (k = k0)) as [->|Hk]; simpl.
  - by rewrite decide_False.
  - by rewrite IH.
Qed.

Lemma jsmap_get_None m k : JsMap.get m k = None <-> k ∉ JsMap.keys m.
Proof.
  induction m as [|[k' a'] r IH]; simpl.
  - split; [intros _; apply not_elem_of_nil | done].
  - rewrite not_elem_of_cons. destruct (decide (k = k')); simpl; [|tauto].
    split; [done | tauto].
Qed.

Lemma jsmap_has_true m k : JsMap.has m k = true <-> k ∈ JsMap.keys m.
Proof.
  unfold JsMap.has. destruct (JsMap.get m k) eqn:E.
  - split; [intros _ | done].
    destruct (decide (k ∈ JsMap.keys m)) as [|Hn]; [done|].
    apply jsmap_get_None in Hn. congruence.
  - apply jsmap_get_None in E. split; [done | tauto].
Qed.

Lemma jsmap_has_false m k : JsMap.has m k = false <-> k ∉ JsMap.keys m.
Proof.
  rewrite <- jsmap_has_true. destruct (JsMap.has m k); split; done.
Qed.

Lemma jsmap_get_elem m k a : JsMap.get m k = Some a -> (k, a) ∈ m.
Proof.
  induction m as [|[k' a'] r IH]; simpl; [done|].
  destruct (decide (k = k')) as [->|Hne].
  - intros [= ->]. apply list_elem_of_here.
  - intros Hg. apply list_elem_of_further. auto.
Qed.

Lemma jsmap_elem_get m k a :
  NoDup (JsMap.keys m) -> (k, a) ∈ m -> JsMap.get m k = Some a.
Proof.
  induction m as [|[k' a'] r IH]; simpl; intros Hnd Hin.
  - by apply elem_of_nil in Hin.
  - apply NoDup_cons in Hnd as [Hk' Hnd].
    apply elem_of_cons in Hin as [[= -> ->]|Hin].
    + by rewrite decide_True.
    + destruct (decide (k = k')) as [->|Hne]; [|auto].
      exfalso. apply Hk'. change k' with (fst (k', a)).
      by apply list_elem_of_fmap_2.
Qed.

Lemma jsmap_set_fresh m k a :
  JsMap.get m k = None -> JsMap.set m k a = m ++ [(k, a)].
Proof.
  induction m as [|[k' a'] r IH]; simpl; [done|].
  destruct (decide (k = k')); [done|]. intros Hg. by rewrite IH.
Qed.

Lemma jsmap_keys_set_present m k a :
  JsMap.get m k <> None -> JsMap.keys (JsMap.set m k a) = JsMap.keys m.
Proof.
  induction m as [|[k' a'] r IH]; simpl; [done|].
  destruct (decide (k = k')) as [->|Hne]; simpl; [done|].
  intros Hg. f_equal. by apply IH.
Qed.

Lemma jsmap_keys_delete m k :
  JsMap.keys (JsMap.delete m k)
  = filter (fun k' => k' <> k) (JsMap.keys m).
Proof.
  induction m as [|[k' a'] r IH]; simpl; [done|].
  destruct (decide (k = k')) as [->|Hne].
  - rewrite filter_cons_False; [done | by intros Hn; apply Hn].
  - rewrite filter_cons_True by congruence. simpl. by f_equal.
Qed.

Lemma jsmap_length_delete m k :
  (length (JsMap.delete m k) <= length m)%nat.
Proof.
  induction m as [|[k' a'] r IH]; simpl; [lia|].
  destruct (decide (k = k')); simpl; lia.
Qed.

Lemma jsmap_length_delete_present m k :
  k ∈ JsMap.keys m -> (length (JsMap.delete m k) < length m)%nat.
Proof.
  induction m as [|[k' a'] r IH]; simpl; intros Hin.
  - by apply elem_of_nil in Hin.
  - destruct (decide (k = k')) as [->|Hne].
    + pose proof (jsmap_length_delete r k'). lia.
    + apply elem_of_cons in Hin as [?|Hin]; [done|].
      simpl. specialize (IH Hin). lia.
Qed.

Lemma jsmap_elem_set m k a x :
  x ∈ JsMap.set m k a -> x = (k, a) \/ x ∈ m.
Proof.
  induction m as [|[k' a'] r IH]; simpl.
  - intros Hx. left. by apply list_elem_of_singleton in Hx.
  - destruct (decide (k = k')) as [->|Hne]; intros Hx.
    + apply elem_of_cons in Hx as [->|Hx]; [by left|].
      right. by apply list_elem_of_further.
    + apply elem_of_cons in Hx as [->|Hx].
      * right. apply list_elem_of_here.
      * destruct (IH Hx) as [->|Hr]; [by left|].
        right. by apply list_elem_of_further.
Qed.

Lemma jsmap_elem_delete m k x : x ∈ JsMap.delete m k -> x ∈ m.
Proof.
  induction m as [|[k' a'] r IH]; simpl; [done|].
  destruct (decide (k = k')); intros Hx.
  - apply list_elem_of_further. auto.
  - apply elem_of_cons in Hx as [->|Hx]; [apply list_elem_of_here|].
    apply list_elem_of_further. auto.
Qed.
End JsMapFacts.

(** ** Ranks and the scan of [evictLRU] *)

Section RankFacts.
Context {K : Type} `{EqDecision K}.
Implicit Types (m : list (K * Z)) (k : K).

Lemma ranks_set m k a x :
  x ∈ map snd (JsMap.set m k a) -> x = a \/ x ∈ map snd m.
Proof.
  intros Hx. apply list_elem_of_fmap in Hx as [[k' a'] [-> Hin]].
  apply jsmap_elem_set in Hin as [[= _ ->]|Hin]; [by left|].
  right. by apply (list_elem_of_fmap_2 snd) in Hin.
Qed.

Lemma nodup_ranks_set m k a :
  NoDup (map snd m) -> a ∉ map snd m -> NoDup (map snd (JsMap.set m k a)).
Proof.
  induction m as [|[k' a'] r IH]; simpl; intros Hnd Ha.
  - apply NoDup_singleton.
  - apply NoDup_cons in Hnd as [Ha' Hnd].
    apply not_elem_of_cons in Ha as [Hne Ha].
    destruct (decide (k = k')) as [->|Hk]; simpl.
    + by apply NoDup_cons.
    + apply NoDup_cons. split; [|by apply IH].
      intros Hx. apply ranks_set in Hx as [->|Hx]; [done|]. by apply Ha'.
Qed.

Lemma nodup_ranks_delete m k :
  NoDup (map snd m) -> NoDup (map snd (JsMap.delete m k)).
Proof.
  induction m as [|[k' a'] r IH]; simpl; intros Hnd; [done|].
  apply NoDup_cons in Hnd as [Ha' Hnd].
  destruct (decide (k = k')); simpl; [auto|].
  apply NoDup_cons. split; [|auto].
  intros Hx. apply Ha'.
  apply list_elem_of_fmap in Hx as [y [-> Hy]].
  apply list_elem_of_fmap_2. by apply jsmap_elem_delete in Hy.
Qed.

Lemma rank_determines_key m k k' r :
  NoDup (map snd m) -> (k, r) ∈ m -> (k', r) ∈ m -> k = k'.
Proof.
  induction m as [|[k0 a0] l IH]; simpl; intros Hnd H1 H2.
  - by apply elem_of_nil in H1.
  - apply NoDup_cons in Hnd as [Ha0 Hnd].
    apply elem_of_cons in H1 as [[= -> ->]|H1];
      apply elem_of_cons in H2 as [[= ->]|H2]; subst; try done.
    + exfalso. apply Ha0. by apply (list_elem_of_fmap_2 snd) in H2.
    + exfalso. apply Ha0. by apply (list_elem_of_fmap_2 snd) in H1.
    + eauto.
Qed.

(** From a candidate on, the scan returns a key of least access time
    among the candidate and the entries still to visit. *)
Lemma lruScan_candidate m k0 t0 :
  exists k t,
    LRUCache.lruScan m (Some k0) (Some t0) = Some k
    /\ ((k, t) = (k0, t0) \/ (k, t) ∈ m)
    /\ t <= t0
    /\ Forall (fun kr => t <= snd kr) m.
Proof.
  revert k0 t0. induction m as [|[k1 t1] r IH]; intros k0 t0; simpl.
  - exists k0, t0. repeat split; [by left | lia | constructor].
  - destruct (t1 <? t0) eqn:E.
    + apply Z.ltb_lt in E.
      destruct (IH k1 t1) as (k & t & Hs & Hin & Hle & Hall).
      exists k, t. repeat split; [done | | lia | by constructor].
      right. destruct Hin as [[= -> ->]|Hin];
        [apply list_elem_of_here | by apply list_elem_of_further].
    + apply Z.ltb_ge in E.
      destruct (IH k0 t0) as (k & t & Hs & Hin & Hle & Hall).
      exists k, t. repeat split; [done | | lia | constructor; simpl; [lia|done]].
      destruct Hin as [Heq|Hin]; [by left | right; by apply list_elem_of_further].
Qed.

(** The scan of a non-empty map returns an entry of least access
    time. *)
Lemma lruScan_least m :
  m <> [] ->
  exists k t,
    LRUCache.lruScan m None None = Some k
    /\ (k, t) ∈ m
    /\ Forall (fun kr => t <= snd kr) m.
Proof.
  destruct m as [|[k1 t1] r]; [done|]. intros _. simpl.
  destruct (lruScan_candidate r k1 t1) as (k & t & Hs & Hin & Hle & Hall).
  exists k, t. repeat split; [done | | by constructor].
  destruct Hin as [[= -> ->]|Hin];
    [apply list_elem_of_here | by apply list_elem_of_further].
Qed.
End RankFacts.

(** ** The invariant of the store *)

Section StoreFacts.
Context {K V : Type} `{EqDecision K}.
Implicit Types (c : LRUCache.t K V) (key : K).

Lemma keys_in_step (m1 : list (K * CacheEntry V)) (m2 : list (K * Z))
    key a1 a2 :
  JsMap.keys m1 = JsMap.keys m2 ->
  JsMap.keys (JsMap.set m1 key a1) = JsMap.keys (JsMap.set m2 key a2).
Proof.
  intros Hk. destruct (JsMap.get m1 key) eqn:E1.
  - assert (JsMap.get m2 key <> None) as E2.
    { intros E2. apply jsmap_get_None in E2. rewrite <- Hk in E2.
      apply jsmap_get_None in E2. congruence. }
    rewrite !jsmap_keys_set_present; [done..|congruence].
  - assert (JsMap.get m2 key = None) as E2.
    { apply jsmap_get_None. rewrite <- Hk. by apply jsmap_get_None. }
    rewrite !jsmap_set_fresh by done. unfold JsMap.keys in *.
    rewrite !map_app. simpl. by rewrite Hk.
Qed.

Lemma nodup_keys_set {A} (m : list (K * A)) key a :
  NoDup (JsMap.keys m) -> NoDup (JsMap.keys (JsMap.set m key a)).
Proof.
  intros Hnd. destruct (JsMap.get m key) eqn:E.
  - rewrite jsmap_keys_set_present; [done|congruence].
  - rewrite jsmap_set_fresh by done. unfold JsMap.keys in *.
    rewrite map_app. simpl. apply NoDup_app. repeat split; [done| |apply NoDup_singleton].
    intros x Hx Hx'. apply list_elem_of_singleton in Hx' as ->.
    by apply jsmap_get_None in E.
Qed.

Lemma size_set_le {A} (m : list (K * A)) key a :
  JsMap.size (JsMap.set m key a) <= JsMap.size m + 1.
Proof.
  unfold JsMap.size. destruct (JsMap.get m key) eqn:E.
  - assert (length (JsMap.keys (JsMap.set m key a)) = length (JsMap.keys m)) as Hl.
    { rewrite jsmap_keys_set_present; [done|congruence]. }
    unfold JsMap.keys in Hl. rewrite !length_map in Hl. lia.
  - rewrite jsmap_set_fresh by done. rewrite length_app. simpl. lia.
Qed.

Lemma size_set_present {A} (m : list (K * A)) key a :
  JsMap.has m key = true -> JsMap.size (JsMap.set m key a) = JsMap.size m.
Proof.
  unfold JsMap.has, JsMap.size. destruct (JsMap.get m key) eqn:E; [|done].
  intros _.
  assert (length (JsMap.keys (JsMap.set m key a)) = length (JsMap.keys m)) as Hl.
  { rewrite jsmap_keys_set_present; [done|congruence]. }
  unfold JsMap.keys in Hl. rewrite !length_map in Hl. lia.
Qed.

Lemma inv_delete c key : StoreInv c -> StoreInv (snd (LRUCache.delete key c)).
Proof.
  intros [Hk Hnd Hr Hd Hs]. constructor; simpl.
  - by rewrite !jsmap_keys_delete, Hk.
  - rewrite jsmap_keys_delete. by apply NoDup_filter.
  - apply Forall_forall. intros x Hx. apply jsmap_elem_delete in Hx.
    by apply (proj1 (Forall_forall _ _) Hr).
  - by apply nodup_ranks_delete.
  - unfold LRUCache.size, JsMap.size in *. simpl.
    pose proof (jsmap_length_delete (LRUCache.cache c) key). lia.
Qed.

(** A touch: the key takes the next tick of the logical clock. *)
Lemma inv_touch c key (cache' : list (K * CacheEntry V)) :
  StoreInv c ->
  JsMap.keys cache' = JsMap.keys (JsMap.set (LRUCache.accessOrder c) key
                                     (LRUCache.accessCounter c + 1)) ->
  NoDup (JsMap.keys cache') ->
  JsMap.size cache' <= Z.max 1 (LRUCache.maxSize c) ->
  StoreInv (LRUCache.mk cache'
              (JsMap.set (LRUCache.accessOrder c) key (LRUCache.accessCounter c + 1))
              (LRUCache.accessCounter c + 1) (LRUCache.maxSize c)
              (LRUCache.defaultTTL c)).
Proof.
  intros [Hk Hnd Hr Hd Hs] Hk' Hnd' Hs'. constructor; simpl; try done.
  - apply Forall_forall. intros x Hx.
    apply jsmap_elem_set in Hx as [->|Hx]; simpl; [lia|].
    pose proof (proj1 (Forall_forall _ _) Hr x Hx). simpl in *. lia.
  - apply nodup_ranks_set; [done|]. intros Hx.
    apply list_elem_of_fmap in Hx as [y [Hy Hin]].
    pose proof (proj1 (Forall_forall _ _) Hr y Hin). simpl in *. lia.
Qed.

Lemma inv_get c now key : StoreInv c -> StoreInv (snd (LRUCache.get now key c)).
Proof.
  intros Hinv. unfold LRUCache.get.
  destruct (JsMap.get (LRUCache.cache c) key) as [entry|] eqn:E; [|done].
  destruct (expiresAt entry <? now); [by apply inv_delete|]. simpl.
  destruct Hinv as [Hk Hnd Hr Hd Hs] eqn:Hi. clear Hi.
  apply inv_touch; try done.
  rewrite jsmap_keys_set_present; [done|].
  intros E2. apply jsmap_get_None in E2. rewrite <- Hk in E2.
  apply jsmap_get_None in E2. congruence.
Qed.

Lemma inv_has c now key : StoreInv c -> StoreInv (snd (LRUCache.has now key c)).
Proof.
  intros Hinv. unfold LRUCache.has.
  destruct (JsMap.get (LRUCache.cache c) key) as [entry|]; [|done].
  destruct (expiresAt entry <? now); [by apply inv_delete | done].
Qed.

Lemma inv_clear c : StoreInv c -> StoreInv (LRUCache.clear c).
Proof.
  intros [Hk Hnd Hr Hd Hs]. constructor; simpl; try done; try constructor.
  unfold LRUCache.size, JsMap.size in *. simpl in *. lia.
Qed.

Lemma inv_deletes c (keys : list K) :
  StoreInv c ->
  StoreInv (fold_left (fun c' key => snd (LRUCache.delete key c')) keys c).
Proof.
  revert c. induction keys as [|k r IH]; intros c Hinv; simpl; [done|].
  apply IH. by apply inv_delete.
Qed.

Lemma inv_cleanup c now : StoreInv c -> StoreInv (snd (LRUCache.cleanup now c)).
Proof. intros Hinv. unfold LRUCache.cleanup. simpl. by apply inv_deletes. Qed.

Lemma inv_keysLoop now entries validKeys c :
  StoreInv c -> StoreInv (snd (LRUCache.keysLoop now entries validKeys c)).
Proof.
  revert validKeys c.
  induction entries as [|[k e] r IH]; intros validKeys c Hinv; simpl; [done|].
  destruct (now <=? expiresAt e); [by apply IH|].
  apply IH. by apply inv_delete.
Qed.
End StoreFacts.

Section Eviction.
Context {K V : Type} `{EqDecision K}.
Implicit Types (c : LRUCache.t K V) (key : K).

Lemma inv_keys_nodup_order c :
  StoreInv c -> NoDup (JsMap.keys (LRUCache.accessOrder c)).
Proof. intros [Hk Hnd _ _ _]. by rewrite <- Hk. Qed.

(** On a store that is not empty [evictLRU] deletes the key whose rank
    is below every other rank. *)
Lemma evictLRU_least c :
  StoreInv c -> LRUCache.cache c <> [] ->
  exists victim rank,
    LRUCache.lruKey c = Some victim
    /\ JsMap.get (LRUCache.accessOrder c) victim = Some rank
    /\ JsMap.has (LRUCache.cache c) victim = true
    /\ (forall k r, JsMap.get (LRUCache.accessOrder c) k = Some r ->
                    k <> victim -> rank < r)
    /\ LRUCache.evictLRU c = snd (LRUCache.delete victim c).
Proof.
  intros Hinv Hne. pose proof (inv_keys_nodup_order c Hinv) as Hnd.
  destruct Hinv as [Hk _ _ Hd _].
  assert (LRUCache.accessOrder c <> []) as Hao.
  { intros E. rewrite E in Hk. simpl in Hk.
    destruct (LRUCache.cache c); [done | discriminate]. }
  destruct (lruScan_least _ Hao) as (victim & rank & Hs & Hin & Hall).
  exists victim, rank. repeat split.
  - done.
  - by apply jsmap_elem_get.
  - apply jsmap_has_true. rewrite Hk. by apply (list_elem_of_fmap_2 fst) in Hin.
  - intros k r Hg Hkv. apply jsmap_get_elem in Hg.
    pose proof (proj1 (Forall_forall _ _) Hall _ Hg) as Hle. simpl in Hle.
    destruct (decide (rank = r)) as [->|]; [|lia].
    destruct Hkv. by eapply rank_determines_key.
  - unfold LRUCache.evictLRU, LRUCache.lruKey in *. rewrite Hs.
    unfold JsMap.size. destruct (LRUCache.cache c) as [|x l]; [done|].
    destruct (Z.eqb_spec (Z.of_nat (length (x :: l))) 0) as [E|_]; [|done].
    simpl in E. lia.
Qed.

(** [evictLRU] keeps the invariant and the configuration, and makes
    room in a store that is not empty. *)
Lemma inv_evictLRU c :
  StoreInv c ->
  StoreInv (LRUCache.evictLRU c)
  /\ JsMap.size (LRUCache.cache (LRUCache.evictLRU c))
     <= Z.max 0 (LRUCache.size c - 1)
  /\ LRUCache.maxSize (LRUCache.evictLRU c) = LRUCache.maxSize c
  /\ LRUCache.defaultTTL (LRUCache.evictLRU c) = LRUCache.defaultTTL c.
Proof.
  intros Hinv.
  destruct (LRUCache.cache c) as [|x l] eqn:Ec.
  - unfold LRUCache.evictLRU, LRUCache.size. rewrite Ec. simpl.
    rewrite Ec. done.
  - assert (LRUCache.cache c <> []) as Hne by by rewrite Ec.
    destruct (evictLRU_least c Hinv Hne)
      as (victim & rank & _ & _ & Hv & _ & ->).
    split; [by apply inv_delete|]. split; [|done]. simpl.
    apply jsmap_has_true in Hv.
    pose proof (jsmap_length_delete_present (LRUCache.cache c) victim Hv).
    unfold LRUCache.size, JsMap.size. lia.
Qed.
End Eviction.

Section SetFacts.
Context {K V : Type} `{EqDecision K}.
Implicit Types (c : LRUCache.t K V) (key : K).

Lemma set_present c now key value ttl :
  JsMap.has (LRUCache.cache c) key = true ->
  LRUCache.set now key value ttl c
  = LRUCache.mk
      (JsMap.set (LRUCache.cache c) key
         (mkCacheEntry value now (now + js_or ttl (LRUCache.defaultTTL c))))
      (JsMap.set (LRUCache.accessOrder c) key (LRUCache.accessCounter c + 1))
      (LRUCache.accessCounter c + 1) (LRUCache.maxSize c)
      (LRUCache.defaultTTL c).
Proof. intros Hh. unfold LRUCache.set. by rewrite Hh. Qed.

Lemma set_absent c now key value ttl :
  JsMap.has (LRUCache.cache c) key = false ->
  let c' := if LRUCache.maxSize c <=? JsMap.size (LRUCache.cache c)
            then LRUCache.evictLRU c else c in
  LRUCache.set now key value ttl c
  = LRUCache.mk
      (JsMap.set (LRUCache.cache c') key
         (mkCacheEntry value now (now + js_or ttl (LRUCache.defaultTTL c))))
      (JsMap.set (LRUCache.accessOrder c') key (LRUCache.accessCounter c' + 1))
      (LRUCache.accessCounter c' + 1) (LRUCache.maxSize c')
      (LRUCache.defaultTTL c').
Proof. intros Hh. unfold LRUCache.set. by rewrite Hh. Qed.

(** A [set] of a new key into a full store evicts the key of least
    rank and nothing else. *)
Lemma set_evicts_least c now key value ttl :
  StoreInv c -> 0 < LRUCache.size c ->
  JsMap.has (LRUCache.cache c) key = false ->
  LRUCache.maxSize c <= LRUCache.size c ->
  exists victim rank,
    LRUCache.lruKey c = Some victim
    /\ JsMap.get (LRUCache.accessOrder c) victim = Some rank
    /\ JsMap.has (LRUCache.cache c) victim = true
    /\ (forall k r, JsMap.get (LRUCache.accessOrder c) k = Some r ->
                    k <> victim -> rank < r)
    /\ LRUCache.cache (LRUCache.set now key value ttl c)
       = JsMap.set (JsMap.delete (LRUCache.cache c) victim) key
           (mkCacheEntry value now (now + js_or ttl (LRUCache.defaultTTL c)))
    /\ JsMap.has (LRUCache.cache (LRUCache.set now key value ttl c)) victim
       = false.
Proof.
  intros Hinv Hpos Hh Hfull.
  assert (LRUCache.cache c <> []) as Hne.
  { intros E. unfold LRUCache.size, JsMap.size in Hpos.
    rewrite E in Hpos. simpl in Hpos. lia. }
  destruct (evictLRU_least c Hinv Hne) as (victim & rank & Hl & Hg & Hv & Hmin & He).
  assert (LRUCache.cache (LRUCache.set now key value ttl c)
          = JsMap.set (JsMap.delete (LRUCache.cache c) victim) key
              (mkCacheEntry value now (now + js_or ttl (LRUCache.defaultTTL c))))
    as Hc.
  { rewrite set_absent by done. simpl.
    unfold LRUCache.size in Hfull. apply Z.leb_le in Hfull.
    rewrite Hfull, He. done. }
  exists victim, rank. repeat split; try done.
  rewrite Hc. unfold JsMap.has.
  assert (key <> victim) as Hkv by (intros ->; congruence).
  by rewrite jsmap_get_set_ne, jsmap_get_delete_eq.
Qed.

Lemma inv_set c now key value ttl :
  StoreInv c -> StoreInv (LRUCache.set now key value ttl c).
Proof.
  intros Hinv.
  destruct (JsMap.has (LRUCache.cache c) key) eqn:Hh.
  - rewrite set_present by done.
    destruct Hinv as [Hk Hnd Hr Hd Hs] eqn:Hi. clear Hi.
    apply inv_touch; try done.
    + by apply keys_in_step.
    + by apply nodup_keys_set.
    + rewrite size_set_present by done. done.
  - rewrite set_absent by done.
    destruct (LRUCache.maxSize c <=? JsMap.size (LRUCache.cache c)) eqn:Hfull.
    + apply Z.leb_le in Hfull.
      destruct (inv_evictLRU c Hinv) as (Hinv' & Hsz & Hm & Ht).
      set (c' := LRUCache.evictLRU c) in *.
      destruct Hinv' as [Hk Hnd Hr Hd Hs] eqn:Hi. clear Hi.
      apply (inv_touch c'); try done.
      * by apply keys_in_step.
      * by apply nodup_keys_set.
      * etrans; [apply size_set_le|].
        destruct Hinv as [_ _ _ _ Hle].
        unfold LRUCache.size in *. rewrite Hm. lia.
    + apply Z.leb_gt in Hfull.
      destruct Hinv as [Hk Hnd Hr Hd Hs] eqn:Hi. clear Hi.
      apply inv_touch; try done.
      * by apply keys_in_step.
      * by apply nodup_keys_set.
      * etrans; [apply size_set_le|]. lia.
Qed.

(** No call changes the configuration of the store. *)
Lemma config_step c (o : Op K V) : sameConfig c (stepStore c o).
Proof.
  unfold sameConfig.
  destruct o as [now key|now key value ttl|now key|key| |now|now]; simpl;
    try done.
  - unfold LRUCache.get. destruct (JsMap.get _ _); [|done].
    by destruct (_ <? _).
  - unfold LRUCache.set. destruct (JsMap.has _ _); [done|]. simpl.
    destruct (_ <=? _); [|done].
    unfold LRUCache.evictLRU. destruct (_ =? _); [done|].
    by destruct (LRUCache.lruKey c).
  - unfold LRUCache.has. destruct (JsMap.get _ _); [|done].
    by destruct (_ <? _).
  - unfold LRUCache.keys. generalize (@nil K).
    generalize (LRUCache.cache c). intros entries. revert c.
    induction entries as [|[k e] r IH]; intros c l; simpl; [done|].
    destruct (_ <=? _); [apply IH|].
    destruct (IH (snd (LRUCache.delete k c)) l) as [E1 E2].
    simpl in E1, E2. done.
  - unfold LRUCache.cleanup. simpl.
    generalize (LRUCache.expiredKeys now (LRUCache.cache c)).
    intros keys. revert c. induction keys as [|k r IH]; intros c; simpl; [done|].
    destruct (IH (snd (LRUCache.delete k c))) as [E1 E2].
    simpl in E1, E2. done.
Qed.

Lemma maxSize_step c (o : Op K V) :
  LRUCache.maxSize (stepStore c o) = LRUCache.maxSize c.
Proof. apply config_step. Qed.

Lemma inv_step c (o : Op K V) :
  StoreInv c -> StoreInv (stepStore c o).
Proof.
  intros Hinv.
  destruct o as [now key|now key value ttl|now key|key| |now|now]; simpl.
  - by apply inv_get.
  - by apply inv_set.
  - by apply inv_has.
  - by apply inv_delete.
  - by apply inv_clear.
  - by apply inv_keysLoop.
  - by apply inv_cleanup.
Qed.

Lemma inv_new (maxSize defaultTTL : Z) :
  StoreInv (LRUCache.new (K := K) (V := V) maxSize defaultTTL).
Proof.
  constructor; simpl; try done; try constructor.
  unfold LRUCache.size, JsMap.size. simpl. lia.
Qed.

Lemma inv_run (ops : list (Op K V)) c :
  StoreInv c ->
  StoreInv (runStore ops c) /\ sameConfig c (runStore ops c).
Proof.
  revert c. induction ops as [|o r IH]; intros c Hinv; simpl; [done|].
  destruct (IH (stepStore c o)) as [Hi [Hm Ht]].
  - by apply inv_step.
  - destruct (config_step c o) as [Hm' Ht'].
    split; [done|]. split; congruence.
Qed.
End SetFacts.

(** ** Ranks follow the order of the last touch *)

Section Recency.
Context {K V : Type} `{EqDecision K}.
Implicit Types (c : LRUCache.t K V) (key : K).

Lemma jsmap_get_delete_Some {A} (m : list (K * A)) k k' a :
  JsMap.get (JsMap.delete m k') k = Some a -> JsMap.get m k = Some a.
Proof.
  destruct (decide (k' = k)) as [->|Hne].
  - by rewrite jsmap_get_delete_eq.
  - by rewrite jsmap_get_delete_ne.
Qed.

Lemma evictLRU_rank c k r :
  JsMap.get (LRUCache.accessOrder (LRUCache.evictLRU c)) k = Some r ->
  JsMap.get (LRUCache.accessOrder c) k = Some r.
Proof.
  unfold LRUCache.evictLRU. destruct (_ =? _); [done|].
  destruct (LRUCache.lruKey c); [|done]. simpl.
  apply jsmap_get_delete_Some.
Qed.

Lemma deletes_rank (keys : list K) c k r :
  JsMap.get (LRUCache.accessOrder
               (fold_left (fun c' key => snd (LRUCache.delete key c')) keys c)) k
  = Some r ->
  JsMap.get (LRUCache.accessOrder c) k = Some r.
Proof.
  revert c. induction keys as [|k' l IH]; intros c; simpl; [done|].
  intros Hg. apply IH in Hg. simpl in Hg. by apply jsmap_get_delete_Some in Hg.
Qed.

Lemma keysLoop_rank now entries validKeys c k r :
  JsMap.get (LRUCache.accessOrder
               (snd (LRUCache.keysLoop now entries validKeys c))) k = Some r ->
  JsMap.get (LRUCache.accessOrder c) k = Some r.
Proof.
  revert validKeys c.
  induction entries as [|[k' e] l IH]; intros validKeys c; simpl; [done|].
  destruct (_ <=? _); [apply IH|].
  intros Hg. apply IH in Hg. simpl in Hg. by apply jsmap_get_delete_Some in Hg.
Qed.

(** The state a touch leaves: the touched key has the rank
    [accessCounter], every other key a smaller one. *)
Lemma touched_is_newest c key k r :
  StoreInv c -> k <> key ->
  JsMap.get (JsMap.set (LRUCache.accessOrder c) key (LRUCache.accessCounter c + 1)) k
  = Some r ->
  r < LRUCache.accessCounter c + 1.
Proof.
  intros [_ _ Hr _ _] Hne Hg. rewrite jsmap_get_set_ne in Hg by done.
  apply jsmap_get_elem in Hg.
  pose proof (proj1 (Forall_forall _ _) Hr _ Hg) as Hle. simpl in Hle. lia.
Qed.

Lemma touch_ranks_highest c (o : Op K V) key :
  StoreInv c -> touches o c = Some key ->
  JsMap.get (LRUCache.accessOrder (stepStore c o)) key
  = Some (LRUCache.accessCounter (stepStore c o))
  /\ forall k r, k <> key ->
       JsMap.get (LRUCache.accessOrder (stepStore c o)) k = Some r ->
       r < LRUCache.accessCounter (stepStore c o).
Proof.
  intros Hinv Ht.
  destruct o as [now key'|now key' value ttl|now key'|key'| |now|now];
    simpl in Ht; try done.
  - simpl. unfold LRUCache.get in *.
    destruct (JsMap.get (LRUCache.cache c) key') as [entry|]; [|done].
    destruct (expiresAt entry <? now); [done|]. simpl in *.
    injection Ht as ->. split; [apply jsmap_get_set_eq|].
    intros k r Hne Hg. by eapply touched_is_newest.
  - injection Ht as ->. simpl.
    destruct (JsMap.has (LRUCache.cache c) key) eqn:Hh.
    + rewrite set_present by done. simpl.
      split; [apply jsmap_get_set_eq|].
      intros k r Hne Hg. by eapply touched_is_newest.
    + rewrite set_absent by done. simpl.
      split; [apply jsmap_get_set_eq|].
      intros k r Hne Hg.
      destruct (_ <=? _); [|by eapply touched_is_newest].
      eapply touched_is_newest; [|done..]. by apply inv_evictLRU.
Qed.

Lemma untouched_rank_kept c (o : Op K V) k r :
  touches o c <> Some k ->
  JsMap.get (LRUCache.accessOrder (stepStore c o)) k = Some r ->
  JsMap.get (LRUCache.accessOrder c) k = Some r.
Proof.
  intros Ht.
  destruct o as [now key|now key value ttl|now key|key| |now|now];
    simpl in *.
  - unfold LRUCache.get in *.
    destruct (JsMap.get (LRUCache.cache c) key) as [entry|]; [|done].
    destruct (expiresAt entry <? now); simpl in *.
    + apply jsmap_get_delete_Some.
    + rewrite jsmap_get_set_ne; [done|congruence].
  - assert (key <> k) as Hne by congruence.
    destruct (JsMap.has (LRUCache.cache c) key) eqn:Hh.
    + rewrite set_present by done. simpl. by rewrite jsmap_get_set_ne.
    + rewrite set_absent by done. simpl. rewrite jsmap_get_set_ne by done.
      destruct (_ <=? _); [apply evictLRU_rank | done].
  - unfold LRUCache.has.
    destruct (JsMap.get (LRUCache.cache c) key) as [entry|]; [|done].
    destruct (expiresAt entry <? now); simpl; [|done].
    apply jsmap_get_delete_Some.
  - apply jsmap_get_delete_Some.
  - done.
  - apply keysLoop_rank.
  - apply deletes_rank.
Qed.
End Recency.

Section NoEviction.
Context {K V : Type} `{EqDecision K}.

(** Without need there is no eviction: when the key is present, or
    the store is below its capacity, [set] loses no key. *)
Lemma set_keeps_keys (c : LRUCache.t K V) now key value ttl k :
  JsMap.has (LRUCache.cache c) key = true
  \/ LRUCache.size c < LRUCache.maxSize c ->
  JsMap.has (LRUCache.cache c) k = true ->
  JsMap.has (LRUCache.cache (LRUCache.set now key value ttl c)) k = true.
Proof.
  intros Hcase Hk.
  assert (forall (m : list (K * CacheEntry V)) e, JsMap.has m k = true ->
            JsMap.has (JsMap.set m key e) k = true) as Hset.
  { intros m e Hm. unfold JsMap.has in *.
    destruct (decide (key = k)) as [->|Hne].
    - by rewrite jsmap_get_set_eq.
    - by rewrite jsmap_get_set_ne. }
  destruct (JsMap.has (LRUCache.cache c) key) eqn:Hh.
  - rewrite set_present by done. simpl. by apply Hset.
  - destruct Hcase as [|Hlt]; [done|].
    rewrite set_absent by done. simpl.
    unfold LRUCache.size in Hlt. apply Z.leb_gt in Hlt. rewrite Hlt.
    by apply Hset.
Qed.
End NoEviction.

(** ** The claims about the store *)

(** Whatever the capacity, and for every sequence of calls on a new
    store: (1) the store holds at most [maxSize] entries, or one entry
    when [maxSize] is below 1; (2) a [set] that finds the store full,
    not empty, and the key absent evicts exactly the key returned by
    the scan, which is present and whose rank is below the rank of
    every other key; (3) a [set] that does not need room loses no key;
    (4) a touch, by [set] or by a [get] that returns a value, gives the
    key the highest rank; (5) no other call changes the rank of a key
    that stays. So the ranks order the keys by their last touch and the
    evicted key is the least recently touched one. *)
Theorem store_bounded_and_evicts_least_recent
    {K V : Type} `{EqDecision K}
    (maxSize defaultTTL : Z) (ops : list (Op K V)) :
  let c := runStore ops (LRUCache.new maxSize defaultTTL) in
  LRUCache.size c <= Z.max 1 maxSize
  /\ (forall now key value ttl,
        JsMap.has (LRUCache.cache c) key = false ->
        maxSize <= LRUCache.size c -> 0 < LRUCache.size c ->
        exists victim rank,
          LRUCache.lruKey c = Some victim
          /\ JsMap.get (LRUCache.accessOrder c) victim = Some rank
          /\ JsMap.has (LRUCache.cache c) victim = true
          /\ (forall k r, JsMap.get (LRUCache.accessOrder c) k = Some r ->
                          k <> victim -> rank < r)
          /\ LRUCache.cache (LRUCache.set now key value ttl c)
             = JsMap.set (JsMap.delete (LRUCache.cache c) victim) key
                 (mkCacheEntry value now (now + js_or ttl defaultTTL))
          /\ JsMap.has (LRUCache.cache (LRUCache.set now key value ttl c))
               victim = false)
  /\ (forall now key value ttl k,
        JsMap.has (LRUCache.cache c) key = true
        \/ LRUCache.size c < maxSize ->
        JsMap.has (LRUCache.cache c) k = true ->
        JsMap.has (LRUCache.cache (LRUCache.set now key value ttl c)) k = true)
  /\ (forall o key,
        touches o c = Some key ->
        JsMap.get (LRUCache.accessOrder (stepStore c o)) key
        = Some (LRUCache.accessCounter (stepStore c o))
        /\ forall k r, k <> key ->
             JsMap.get (LRUCache.accessOrder (stepStore c o)) k = Some r ->
             r < LRUCache.accessCounter (stepStore c o))
  /\ (forall o k r,
        touches o c <> Some k ->
        JsMap.get (LRUCache.accessOrder (stepStore c o)) k = Some r ->
        JsMap.get (LRUCache.accessOrder c) k = Some r).
Proof.
  intros c.
  destruct (inv_run ops (LRUCache.new maxSize defaultTTL)) as [Hinv [Hm Httl]].
  { apply inv_new. }
  fold c in Hinv, Hm, Httl. simpl in Hm, Httl.
  split; [|split; [|split; [|split]]].
  - destruct Hinv as [_ _ _ _ Hs]. by rewrite Hm in Hs.
  - intros now key value ttl Hh Hfull Hpos. rewrite <- Httl.
    apply set_evicts_least; [done | done | done | lia].
  - intros now key value ttl k Hcase Hk.
    apply set_keeps_keys; [|done]. by rewrite Hm.
  - intros o key Ht. by apply touch_ranks_highest.
  - intros o k r. apply untouched_rank_kept.
Qed.

Lemma store_bounded_and_evicts_least_recent_witness :
  let c := runStore [OpSet 1 "A"%string 10 None; OpSet 2 "B"%string 20 None;
                     OpGet 3 "A"%string]
             (LRUCache.new 2 300000) in
  LRUCache.size c <= 2
  /\ exists victim rank,
       LRUCache.lruKey c = Some victim
       /\ JsMap.get (LRUCache.accessOrder c) victim = Some rank
       /\ JsMap.has (LRUCache.cache c) victim = true
       /\ (forall k r, JsMap.get (LRUCache.accessOrder c) k = Some r ->
                       k <> victim -> rank < r)
       /\ LRUCache.cache (LRUCache.set 4 "C"%string 30 None c)
          = JsMap.set (JsMap.delete (LRUCache.cache c) victim) "C"%string
              (mkCacheEntry 30 4 (4 + js_or None 300000))
       /\ JsMap.has (LRUCache.cache (LRUCache.set 4 "C"%string 30 None c))
            victim = false.
Proof.
  intros c.
  destruct (store_bounded_and_evicts_least_recent 2 300000
              [OpSet 1 "A"%string 10 None; OpSet 2 "B"%string 20 None;
               OpGet 3 "A"%string]) as (Hsize & Hevict & _).
  split; [exact Hsize|].
  apply (Hevict 4 "C"%string 30 None).
  - reflexivity.
  - vm_compute. discriminate.
  - reflexivity.
Defined.

(** C1. With a capacity of 0 the bound [size <= maxSize] is broken by
    the first [set]: [evictLRU] returns at once on the empty store,
    [set] inserts, and the store holds one entry. One more [set] evicts that
    entry and inserts again: the store goes on as a store of capacity
    1. *)
Theorem store_exceeds_capacity_zero :
  let c1 := runStore [OpSet 1000 "a"%string 1 None] (LRUCache.new 0 300000) in
  let c2 := runStore [OpSet 1000 "a"%string 1 None;
                      OpSet 1001 "b"%string 2 None] (LRUCache.new 0 300000) in
  LRUCache.maxSize c1 = 0
  /\ LRUCache.size c1 = 1
  /\ ~ LRUCache.size c1 <= LRUCache.maxSize c1
  /\ JsMap.keys (LRUCache.cache c2) = ["b"%string].
Proof.
  vm_compute. repeat split. intros H. apply H. reflexivity.
Qed.

(** The scripted pattern of the specification: with a capacity of 2,
    after [set A], [set B], [set C] the key [A] is gone and [B] is
    kept; when [A] is read before [C] arrives, [B] is the one to go. *)
Example evicts_first_inserted :
  JsMap.keys (LRUCache.cache
    (runStore [OpSet 1 "A"%string 10 None; OpSet 2 "B"%string 20 None;
               OpSet 3 "C"%string 30 None] (LRUCache.new 2 300000)))
  = ["B"%string; "C"%string].
Proof. reflexivity. Qed.

Example evicts_least_recently_read :
  JsMap.keys (LRUCache.cache
    (runStore [OpSet 1 "A"%string 10 None; OpSet 2 "B"%string 20 None;
               OpGet 3 "A"%string; OpSet 4 "C"%string 30 None]
       (LRUCache.new 2 300000)))
  = ["A"%string; "C"%string].
Proof. reflexivity. Qed.

(** C7. A store of capacity 0 takes the entry all the same: [evictLRU]
    returns at once on the empty store and [set] goes on to insert.
    After the call the store holds one entry, above its capacity, and a
    [get] at the time of the [set] returns the value unless the time to
    live is negative. *)
Theorem capacity_zero_set_inserts {K V : Type} `{EqDecision K}
    (now : Z) (key : K) (value : V) (ttl : option Z) (defaultTTL : Z) :
  let c := LRUCache.set now key value ttl (LRUCache.new 0 defaultTTL) in
  LRUCache.size c = 1
  /\ LRUCache.maxSize c = 0
  /\ fst (LRUCache.get now key c)
     = if js_or ttl defaultTTL <? 0 then None else Some value.
Proof.
  simpl. unfold LRUCache.set, LRUCache.get. simpl.
  rewrite decide_True by done. simpl.
  split; [done|]. split; [done|].
  destruct (Z.ltb_spec (now + js_or ttl defaultTTL) now) as [H1|H1];
    destruct (Z.ltb_spec (js_or ttl defaultTTL) 0) as [H2|H2]; simpl; try done; lia.
Qed.

Example capacity_zero_set_then_get :
  let c := LRUCache.set 1000 "a"%string 7 None (LRUCache.new 0 300000) in
  LRUCache.size c = 1 /\ fst (LRUCache.get 1001 "a"%string c) = Some 7.
Proof. split; reflexivity. Qed.

(** ** Time to live *)

Section Expiry.
Context {K V : Type} `{EqDecision K}.
Implicit Types (c : LRUCache.t K V) (key : K).

Lemma set_stores_entry c now key value ttl :
  JsMap.get (LRUCache.cache (LRUCache.set now key value ttl c)) key
  = Some (mkCacheEntry value now (now + js_or ttl (LRUCache.defaultTTL c))).
Proof.
  destruct (JsMap.has (LRUCache.cache c) key) eqn:Hh.
  - rewrite set_present by done. simpl. apply jsmap_get_set_eq.
  - rewrite set_absent by done. simpl. apply jsmap_get_set_eq.
Qed.

Lemma get_expired c now key entry :
  JsMap.get (LRUCache.cache c) key = Some entry ->
  expiresAt entry < now ->
  LRUCache.get now key c = (None, snd (LRUCache.delete key c)).
Proof.
  intros Hg Hexp. unfold LRUCache.get. rewrite Hg.
  apply Z.ltb_lt in Hexp. by rewrite Hexp.
Qed.

Lemma has_expired c now key entry :
  JsMap.get (LRUCache.cache c) key = Some entry ->
  expiresAt entry < now ->
  LRUCache.has now key c = (false, snd (LRUCache.delete key c)).
Proof.
  intros Hg Hexp. unfold LRUCache.has. rewrite Hg.
  apply Z.ltb_lt in Hexp. by rewrite Hexp.
Qed.

Lemma has_absent c now key :
  JsMap.get (LRUCache.cache c) key = None ->
  LRUCache.has now key c = (false, c).
Proof. intros Hg. unfold LRUCache.has. by rewrite Hg. Qed.

(** The round trip: a value read back before it expires is the value
    that was set. *)
Lemma get_after_set c now now' key value ttl :
  now' <= now + js_or ttl (LRUCache.defaultTTL c) ->
  fst (LRUCache.get now' key (LRUCache.set now key value ttl c)) = Some value.
Proof.
  intros Hle. unfold LRUCache.get. rewrite set_stores_entry. simpl.
  destruct (Z.ltb_spec (now + js_or ttl (LRUCache.defaultTTL c)) now');
    [lia | done].
Qed.
End Expiry.

(** C6, time to live 0. The number 0 is falsy, so [ttl || defaultTTL]
    takes the default: the entry is read back a millisecond later. *)
Lemma ttl_zero_entry_is_read_back :
  let c := LRUCache.set 1000 "a"%string 7 (Some 0) (LRUCache.new 50 300000) in
  fst (LRUCache.get 1001 "a"%string c) = Some 7
  /\ fst (LRUCache.has 1001 "a"%string c) = true.
Proof. split; reflexivity. Qed.

(** A time to live of 0 is not passed on: [set] treats it as absent. *)
Lemma ttl_zero_is_default {K V : Type} `{EqDecision K}
    (c : LRUCache.t K V) (now : Z) (key : K) (value : V) :
  LRUCache.set now key value (Some 0) c = LRUCache.set now key value None c.
Proof. reflexivity. Qed.

(** C6, as amended. An entry set with a negative time to live is expired
    at every read that is not earlier than the [set]: [get] returns
    nothing and deletes the entry, after which [has] is false at any
    time; [has] right after the [set] is false too. *)
Theorem negative_ttl_expires_on_next_read {K V : Type} `{EqDecision K}
    (c : LRUCache.t K V) (now now' now'' : Z) (key : K) (value : V)
    (ttl : Z) :
  ttl < 0 -> now <= now' ->
  let c1 := LRUCache.set now key value (Some ttl) c in
  let c2 := snd (LRUCache.get now' key c1) in
  fst (LRUCache.get now' key c1) = None
  /\ JsMap.has (LRUCache.cache c2) key = false
  /\ fst (LRUCache.has now'' key c2) = false
  /\ fst (LRUCache.has now' key c1) = false.
Proof.
  intros Hneg Hle c1 c2.
  pose proof (set_stores_entry c now key value (Some ttl)) as Hentry.
  fold c1 in Hentry.
  assert (js_or (Some ttl) (LRUCache.defaultTTL c) = ttl) as Hor.
  { simpl. destruct (Z.eqb_spec ttl 0); [lia | done]. }
  rewrite Hor in Hentry.
  assert (LRUCache.get now' key c1 = (None, snd (LRUCache.delete key c1))) as Hget.
  { eapply get_expired; [exact Hentry|]. simpl. lia. }
  assert (JsMap.get (LRUCache.cache c2) key = None) as Hgone.
  { unfold c2. rewrite Hget. simpl. apply jsmap_get_delete_eq. }
  split; [by rewrite Hget|].
  split; [unfold JsMap.has; by rewrite Hgone|].
  split; [by rewrite has_absent|].
  erewrite has_expired; [done | exact Hentry | simpl; lia].
Qed.

Lemma negative_ttl_expires_on_next_read_witness :
  let c := LRUCache.new (K := string) (V := Z) 50 300000 in
  let c1 := LRUCache.set 1000 "a"%string 7 (Some (-1)) c in
  (-1 < 0 /\ 1000 <= 1000)
  /\ fst (LRUCache.get 1000 "a"%string c1) = None
  /\ fst (LRUCache.has 2000 "a"%string (snd (LRUCache.get 1000 "a"%string c1)))
     = false.
Proof.
  intros c c1.
  assert (-1 < 0) as H1 by lia. assert (1000 <= 1000) as H2 by lia.
  destruct (negative_ttl_expires_on_next_read c 1000 1000 2000 "a"%string 7
              (-1) H1 H2) as (Hg & _ & Hh & _).
  split; [split; [exact H1 | exact H2]|]. split; [exact Hg | exact Hh].
Defined.

(** ** Hit rate *)

Section HitRate.
Context {K V : Type} `{EqDecision K}.
Implicit Types (m : CacheManager.t K V).

Lemma manager_counts (ops : list (MOp K V)) m :
  CacheManager.hitCount (snd (runManager ops m))
  = hitsSinceReset (CacheManager.hitCount m) (fst (runManager ops m))
  /\ CacheManager.missCount (snd (runManager ops m))
     = missesSinceReset (CacheManager.missCount m) (fst (runManager ops m)).
Proof.
  revert m. induction ops as [|o r IH]; intros m; simpl; [done|].
  destruct (stepManager m o) as [out m'] eqn:Es.
  specialize (IH m'). destruct (runManager r m') as [outs m''] eqn:Er.
  simpl in *. destruct IH as [IHh IHm].
  destruct o as [now key|now key value ttl|now key|key| |now]; simpl in Es.
  - unfold CacheManager.get in Es.
    destruct (LRUCache.get now key (CacheManager.cache m)) as [[v|] c'];
      injection Es as <- <-; simpl in *; done.
  - injection Es as <- <-. simpl in *. done.
  - unfold CacheManager.has in Es.
    destruct (LRUCache.has now key (CacheManager.cache m)) as [b c'].
    injection Es as <- <-. simpl in *. done.
  - injection Es as <- <-. simpl in *. done.
  - injection Es as <- <-. simpl in *. done.
  - injection Es as <- <-. simpl in *. done.
Qed.
End HitRate.

(** C9. After any calls on a new manager the two counters are the
    numbers of lookups since the last [clear] that returned a value and
    that returned nothing; [getHitRate] is their quotient, or 0 when
    there was no lookup; [getStats] reports the same number, not the
    constant of the store; and after 3 hits and 1 miss both are 3/4. *)
Theorem hit_rate_is_hits_over_lookups {K V : Type} `{EqDecision K}
    (maxSize ttl : Z) (ops : list (MOp K V)) :
  let outs := fst (runManager ops (CacheManager.new maxSize ttl)) in
  let m := snd (runManager ops (CacheManager.new maxSize ttl)) in
  let hits := hitsSinceReset 0 outs in
  let misses := missesSinceReset 0 outs in
  CacheManager.hitCount m = hits
  /\ CacheManager.missCount m = misses
  /\ CacheManager.getHitRate m
     = (if 0 <? hits + misses
        then (inject_Z hits / inject_Z (hits + misses))%Q else 0%Q)
  /\ (forall now,
        CacheManager.hitRate (CacheManager.getStats now m)
        = CacheManager.getHitRate m)
  /\ (hits = 3 -> misses = 1 ->
      (CacheManager.getHitRate m == 3 # 4)%Q
      /\ forall now,
           (CacheManager.hitRate (CacheManager.getStats now m) == 3 # 4)%Q).
Proof.
  intros outs m hits misses.
  destruct (manager_counts ops (CacheManager.new maxSize ttl)) as [Hh Hm].
  fold m outs in Hh, Hm. simpl in Hh, Hm. fold hits in Hh. fold misses in Hm.
  assert (CacheManager.getHitRate m
          = (if 0 <? hits + misses
             then (inject_Z hits / inject_Z (hits + misses))%Q else 0%Q)) as Hr.
  { unfold CacheManager.getHitRate. by rewrite Hh, Hm. }
  split; [done|]. split; [done|]. split; [done|]. split; [done|].
  intros H3 H1. split.
  - rewrite Hr, H3, H1. reflexivity.
  - intros now. simpl. rewrite Hr, H3, H1. reflexivity.
Qed.

Lemma hit_rate_is_hits_over_lookups_witness :
  let ops := [MSet 0 "lagos"%string 31 None; MGet 1 "lagos"%string;
              MGet 2 "lagos"%string; MGet 3 "accra"%string;
              MGet 4 "lagos"%string] in
  let m := snd (runManager ops (CacheManager.new 50 300000)) in
  (CacheManager.getHitRate m == 3 # 4)%Q
  /\ (CacheManager.hitRate (CacheManager.getStats 5 m) == 3 # 4)%Q.
Proof.
  intros ops m.
  destruct (hit_rate_is_hits_over_lookups 50 300000 ops)
    as (_ & _ & _ & _ & H34).
  destruct (H34 eq_refl eq_refl) as [Hrate Hstats].
  split; [exact Hrate | exact (Hstats 5)].
Defined.

(** ** The retry loop *)

Section RetryFacts.
Context {T : Type}.
Variable jitter : nat -> Z.
Implicit Types (fn : Async T) (w : World).

(** The loop, one turn unrolled. *)
Lemma retryLoop_turn fn m b a w :
  retryLoop jitter fn m b a w
  = if decide (a <= m) then
      match fn w with
      | (Ok v, w1) => (Ok v, w1)
      | (Err e, w1) =>
          if decide (a = m) then (Err e, w1)
          else retryLoop jitter fn m b (a + 1)
                 (sleep (b * 2 ^ a + jitter (drawn w1)) (draw w1))
      end
    else (Err maxRetriesExceeded, w).
Proof.
  rewrite retryLoop_equation_1.
  destruct (Z_le_dec a m) as [Hle|Hgt]; simpl.
  - rewrite decide_True by done.
    destruct (fn w) as [[v|e] w1]; simpl; [done|].
    destruct (Z.eq_dec a m); simpl.
    + by rewrite decide_True.
    + by rewrite decide_False.
  - by rewrite decide_False.
Qed.

Lemma scripted_counted (outcome : nat -> Result T) (latency : nat -> Z) :
  counted (scripted outcome latency).
Proof. intros w. done. Qed.

Lemma scripted_keepsBreaker (outcome : nat -> Result T) (latency : nat -> Z) :
  keepsBreaker (scripted outcome latency).
Proof. intros w. done. Qed.

(** From attempt [a] on the loop invokes the operation at least once
    and at most [m + 1 - a] times. *)
Lemma retryLoop_invocations fn m b (n : nat) a w :
  counted fn ->
  a <= m -> Z.to_nat (m - a) = n ->
  (invoked w < invoked (snd (retryLoop jitter fn m b a w))
   <= invoked w + S n)%nat.
Proof.
  intros Hf. revert a w. induction n as [|n IH]; intros a w Hle Hn;
    rewrite retryLoop_turn, decide_True by done;
    pose proof (Hf w) as Hi; destruct (fn w) as [[v|e] w1];
    simpl in *; try lia.
  - rewrite decide_True by lia. simpl. lia.
  - destruct (decide (a = m)) as [->|Hne]; simpl; [lia|].
    pose proof (IH (a + 1)
      (sleep (b * 2 ^ a + jitter (drawn w1)) (draw w1))) as IH'.
    simpl in IH'. lia.
Qed.

(** When the operation first succeeds at its [j]-th run from here, and
    the loop has that many attempts left, the loop returns what that
    run returns, after exactly [j + 1] runs. *)
Lemma retryLoop_first_success fn m b (j : nat) a w :
  counted fn ->
  a + Z.of_nat j <= m ->
  (forall i, (i < j)%nat -> failsAt fn (invoked w + i)) ->
  succeedsAt fn (invoked w + j) ->
  exists w1,
    invoked w1 = (invoked w + j)%nat
    /\ retryLoop jitter fn m b a w = fn w1.
Proof.
  intros Hf. revert a w. induction j as [|j IH]; intros a w Hle Hfail Hok;
    rewrite retryLoop_turn, decide_True by lia.
  - pose proof (Hok w ltac:(lia)) as H0.
    exists w. split; [lia|]. by destruct (fn w) as [[v|e] w1].
  - pose proof (Hfail 0%nat ltac:(lia) w ltac:(lia)) as H0.
    pose proof (Hf w) as Hi.
    destruct (fn w) as [[v|e] w1]; [done|]. simpl in Hi.
    rewrite decide_False by lia.
    destruct (IH (a + 1) (sleep (b * 2 ^ a + jitter (drawn w1)) (draw w1)))
      as (w' & Hw' & Hr).
    + lia.
    + intros i Hi'. simpl. rewrite Hi.
      replace (S (invoked w) + i)%nat with (invoked w + S i)%nat by lia.
      apply Hfail. lia.
    + simpl. rewrite Hi.
      by replace (S (invoked w) + j)%nat with (invoked w + S j)%nat by lia.
    + exists w'. split; [|done]. simpl in Hw'. lia.
Qed.

(** When every run fails, the loop makes all its attempts and returns
    what the last run returns. *)
Lemma retryLoop_all_fail fn m b (n : nat) a w :
  counted fn ->
  a <= m -> Z.to_nat (m - a) = n ->
  (forall i, (i <= n)%nat -> failsAt fn (invoked w + i)) ->
  exists w1,
    invoked w1 = (invoked w + n)%nat
    /\ retryLoop jitter fn m b a w = fn w1.
Proof.
  intros Hf. revert a w. induction n as [|n IH]; intros a w Hle Hn Hfail;
    rewrite retryLoop_turn, decide_True by done;
    pose proof (Hfail 0%nat ltac:(lia) w ltac:(lia)) as H0;
    pose proof (Hf w) as Hi.
  - exists w. split; [lia|].
    destruct (fn w) as [[v|e] w1]; [done|]. by rewrite decide_True by lia.
  - destruct (fn w) as [[v|e] w1]; [done|]. simpl in Hi.
    rewrite decide_False by lia.
    destruct (IH (a + 1) (sleep (b * 2 ^ a + jitter (drawn w1)) (draw w1)))
      as (w' & Hw' & Hr).
    + lia.
    + lia.
    + intros i Hi'. simpl. rewrite Hi.
      replace (S (invoked w) + i)%nat with (invoked w + S i)%nat by lia.
      apply Hfail. lia.
    + exists w'. split; [|done]. simpl in Hw'. lia.
Qed.

(** The loop does not touch the breaker unless the operation does. *)
Lemma retryLoop_keepsBreaker fn m b (n : nat) a w :
  keepsBreaker fn -> Z.to_nat (m + 1 - a) = n ->
  breaker (snd (retryLoop jitter fn m b a w)) = breaker w.
Proof.
  intros Hk. revert a w. induction n as [|n IH]; intros a w Hn;
    rewrite retryLoop_turn.
  - by rewrite decide_False by lia.
  - destruct (decide (a <= m)); [|done].
    pose proof (Hk w) as Hb. destruct (fn w) as [[v|e] w1]; simpl in *; [done|].
    destruct (decide (a = m)); [done|].
    rewrite IH by lia. done.
Qed.
End RetryFacts.

(** C3. For an operation whose every run is one invocation, and a
    number of retries that is not negative, the executor invokes the
    operation at least once and at most [maxRetries + 1] times; when the
    operation first succeeds at its [k]-th run, the executor returns
    what that run returns after exactly [k] invocations; when every run
    fails, the executor returns what the last run returns, a failure,
    after exactly [maxRetries + 1] invocations. *)
Theorem retry_attempts_and_result {T : Type} (jitter : nat -> Z)
    (fn : Async T) (maxRetries baseDelay : Z) (w : World) :
  counted fn -> 0 <= maxRetries ->
  let res := retryWithBackoff jitter fn maxRetries baseDelay w in
  let n := Z.to_nat maxRetries in
  (invoked w < invoked (snd res) <= invoked w + n + 1)%nat
  /\ (forall k : nat,
        (1 <= k <= n + 1)%nat ->
        (forall i, (i < k - 1)%nat -> failsAt fn (invoked w + i)) ->
        succeedsAt fn (invoked w + (k - 1)) ->
        isOk (fst res) = true
        /\ invoked (snd res) = (invoked w + k)%nat
        /\ exists w1, invoked w1 = (invoked w + (k - 1))%nat /\ res = fn w1)
  /\ ((forall i, (i <= n)%nat -> failsAt fn (invoked w + i)) ->
      isOk (fst res) = false
      /\ invoked (snd res) = (invoked w + n + 1)%nat
      /\ exists w1, invoked w1 = (invoked w + n)%nat /\ res = fn w1).
Proof.
  intros Hc Hm res n. unfold retryWithBackoff in res.
  split; [|split].
  - pose proof (retryLoop_invocations jitter fn maxRetries baseDelay n 0 w Hc Hm)
      as Hb.
    specialize (Hb ltac:(subst n; f_equal; lia)). fold res in Hb. lia.
  - intros k Hk Hfail Hok.
    destruct (retryLoop_first_success jitter fn maxRetries baseDelay (k - 1) 0 w
                Hc ltac:(lia) Hfail Hok) as (w1 & Hw1 & Hr).
    fold res in Hr. rewrite Hr.
    split; [by apply Hok|]. split; [rewrite Hc; lia|]. by exists w1.
  - intros Hfail.
    destruct (retryLoop_all_fail jitter fn maxRetries baseDelay n 0 w
                Hc Hm ltac:(subst n; f_equal; lia) Hfail) as (w1 & Hw1 & Hr).
    fold res in Hr. rewrite Hr.
    split; [apply Hfail with (i := n); [lia | done]|].
    split; [rewrite Hc; lia|]. by exists w1.
Qed.

Lemma retry_attempts_and_result_witness :
  let res := retryWithBackoff noJitter failsThrice 3 1000
               (WeatherApiService.newWorld 0) in
  fst res = Ok 3%nat /\ invoked (snd res) = 4%nat.
Proof.
  intros res.
  assert (counted failsThrice) as Hc by (intros w; reflexivity).
  assert (0 <= 3) as H3 by lia.
  destruct (retry_attempts_and_result noJitter failsThrice 3 1000
              (WeatherApiService.newWorld 0) Hc H3) as (_ & Hfirst & _).
  destruct (Hfirst 4%nat) as (_ & Hinv & w1 & Hw1 & Hres).
  - simpl. lia.
  - intros i Hi w' Hw'. unfold failsThrice, scripted. simpl in *.
    rewrite Hw'. destruct (Nat.ltb_spec i 3) as [_|Hge]; [reflexivity | lia].
  - intros w' Hw'. unfold failsThrice, scripted. simpl in *.
    rewrite Hw'. reflexivity.
  - fold res in Hinv, Hres. split; [|exact Hinv].
    rewrite Hres. unfold failsThrice, scripted. simpl in *. rewrite Hw1.
    reflexivity.
Defined.

(** The pattern of the specification: with three retries an operation
    that always fails is run four times, and the failure of the fourth
    run comes back. *)
Example retry_exhausts_four_attempts :
  let res := retryWithBackoff noJitter
               (scripted (fun i => @Err nat (mkError PlainError
                                               (if (i =? 3)%nat then "fourth" else "earlier")
                                               None None))
                         (fun _ => 5))
               3 1000 (WeatherApiService.newWorld 0) in
  fst res = Err (mkError PlainError "fourth" None None)
  /\ invoked (snd res) = 4%nat.
Proof. split; reflexivity. Qed.

(** ** The circuit breaker *)

Lemma setBreaker_same (w : World) : setBreaker (breaker w) w = w.
Proof. by destruct w. Qed.

(** C2. While the breaker is open and the recovery time has not
    passed, [call] throws the breaker's own error and leaves the world
    as it is, whatever the operation: the operation is not run. Once
    the recovery time has passed, [call] runs the operation once, in a
    world where the breaker is half-open, and then applies the callback
    of the outcome. The error of the open breaker is a [NetworkError]
    whose message tells it from the timeout and from every error made of
    a response status. *)
Theorem open_breaker_fails_fast_then_probes {T : Type} (fn : Async T)
    (w : World) :
  state (breaker w) = OPEN ->
  (clock w - lastFailureTime (breaker w) <= recoveryTimeout (breaker w) ->
   CircuitBreaker.call fn w = (Err CircuitBreaker.breakerOpen, w))
  /\ (recoveryTimeout (breaker w) < clock w - lastFailureTime (breaker w) ->
      let w1 := setBreaker (CircuitBreaker.withState HALF_OPEN (breaker w)) w in
      let r := fst (fn w1) in
      let w2 := snd (fn w1) in
      state (breaker w1) = HALF_OPEN
      /\ CircuitBreaker.call fn w
         = (r, setBreaker
                 (if isOk r then CircuitBreaker.onSuccess (breaker w2)
                  else CircuitBreaker.onFailure (clock w2) (breaker w2))
                 w2)
      /\ (counted fn ->
          invoked (snd (CircuitBreaker.call fn w)) = S (invoked w)))
  /\ (name CircuitBreaker.breakerOpen = NetworkError
      /\ message CircuitBreaker.breakerOpen = "Circuit breaker is OPEN"%string
      /\ CircuitBreaker.breakerOpen <> requestTimeout
      /\ forall (Payload : Type) st (errorData : Json Payload),
           CircuitBreaker.breakerOpen
           <> WeatherApiService.statusError st errorData).
Proof.
  intros Hopen. split; [|split].
  - intros Hin. unfold CircuitBreaker.call, CircuitBreaker.gate.
    rewrite Hopen.
    destruct (Z.ltb_spec (recoveryTimeout (breaker w))
                (clock w - lastFailureTime (breaker w))); [lia | done].
  - intros Hout w1 r w2.
    assert (CircuitBreaker.call fn w
            = (r, setBreaker
                    (if isOk r then CircuitBreaker.onSuccess (breaker w2)
                     else CircuitBreaker.onFailure (clock w2) (breaker w2))
                    w2)) as Hcall.
    { unfold CircuitBreaker.call, CircuitBreaker.gate. rewrite Hopen.
      destruct (Z.ltb_spec (recoveryTimeout (breaker w))
                  (clock w - lastFailureTime (breaker w))); [|lia].
      subst r w2. fold w1. by destruct (fn w1) as [[v|e] w']. }
    split; [done|]. split; [done|].
    intros Hc. rewrite Hcall. simpl. subst w2. by rewrite Hc.
  - repeat split; try done.
    intros Payload st errorData. unfold WeatherApiService.statusError.
    repeat (destruct (_ =? _); try done). by destruct errorData.
Qed.

Lemma open_breaker_fails_fast_then_probes_witness :
  CircuitBreaker.call failsThrice (mkWorld 61000 0 0 opened)
  = (Err CircuitBreaker.breakerOpen, mkWorld 61000 0 0 opened)
  /\ invoked (snd (CircuitBreaker.call failsThrice (mkWorld 61001 0 0 opened)))
     = 1%nat.
Proof.
  destruct (open_breaker_fails_fast_then_probes failsThrice
              (mkWorld 61000 0 0 opened) eq_refl) as (Hfast & _ & _).
  destruct (open_breaker_fails_fast_then_probes failsThrice
              (mkWorld 61001 0 0 opened) eq_refl) as (_ & Hprobe & _).
  split.
  - apply Hfast. simpl. lia.
  - assert (recoveryTimeout (breaker (mkWorld 61001 0 0 opened))
            < clock (mkWorld 61001 0 0 opened)
              - lastFailureTime (breaker (mkWorld 61001 0 0 opened))) as Hout
      by (simpl; lia).
    destruct (Hprobe Hout) as (_ & _ & Hcount).
    apply Hcount. intros w. reflexivity.
Defined.

(** ** The service *)

Section ServiceFacts.
Context {Payload WeatherData : Type}.
Variable transformWeatherData : Payload -> Z -> WeatherData + string.
Variable network : JsString -> nat -> NetReply Payload.
Variable jitter : nat -> Z.

Local Abbreviation attempt :=
  (WeatherApiService.attempt transformWeatherData network).

Lemma attempt_world city w :
  invoked (snd (attempt city w)) = S (invoked w)
  /\ breaker (snd (attempt city w)) = breaker w
  /\ drawn (snd (attempt city w)) = drawn w.
Proof.
  unfold WeatherApiService.attempt, withTimeout.
  change (timerDelay REQUEST_TIMEOUT) with REQUEST_TIMEOUT.
  unfold WeatherApiService.fetchWeatherData, WeatherApiService.rawFetch. simpl.
  destruct (reply (network city (invoked w))) as [e|[o st [[|m [p|]]|]]];
    simpl; try destruct o; simpl;
    try destruct (transformWeatherData _ _); simpl; destruct (_ <? _); done.
Qed.

Lemma attempt_counted city : counted (attempt city).
Proof. intros w. apply attempt_world. Qed.

Lemma attempt_keepsBreaker city : keepsBreaker (attempt city).
Proof. intros w. apply attempt_world. Qed.

(** An attempt that the network answers too late fails with the
    timeout error. *)
Lemma attempt_slow city w :
  REQUEST_TIMEOUT < replyLatency (network city (invoked w)) ->
  fst (attempt city w) = Err requestTimeout.
Proof.
  intros Hslow.
  unfold WeatherApiService.attempt, withTimeout.
  change (timerDelay REQUEST_TIMEOUT) with REQUEST_TIMEOUT.
  unfold WeatherApiService.fetchWeatherData, WeatherApiService.rawFetch. simpl.
  assert ((REQUEST_TIMEOUT
           <? clock w + replyLatency (network city (invoked w)) - clock w)
          = true) as Hlt by (apply Z.ltb_lt; lia).
  destruct (reply (network city (invoked w))) as [e|[o st [[|m [p|]]|]]];
    simpl; try destruct o; simpl;
    try destruct (transformWeatherData _ _); simpl; by rewrite Hlt.
Qed.

(** An attempt answered in time with a response that is not [ok]
    fails with the error of the status. *)
Lemma attempt_status city w st b :
  reply (network city (invoked w)) = inr (mkResponse false st b) ->
  replyLatency (network city (invoked w)) <= REQUEST_TIMEOUT ->
  fst (attempt city w)
  = Err (WeatherApiService.statusError st (WeatherApiService.errorDataOf b)).
Proof.
  intros Hr Hl.
  unfold WeatherApiService.attempt, withTimeout.
  change (timerDelay REQUEST_TIMEOUT) with REQUEST_TIMEOUT.
  unfold WeatherApiService.fetchWeatherData, WeatherApiService.rawFetch. simpl. rewrite Hr. simpl.
  destruct (Z.ltb_spec REQUEST_TIMEOUT
              (clock w + replyLatency (network city (invoked w)) - clock w));
    [lia | done].
Qed.

(** An attempt answered in time with a weather report succeeds when
    the report can be transformed. *)
Lemma attempt_report city w st m p d :
  reply (network city (invoked w))
  = inr (mkResponse true st (Some (mkJson m (Some p)))) ->
  replyLatency (network city (invoked w)) <= REQUEST_TIMEOUT ->
  transformWeatherData p (clock w + replyLatency (network city (invoked w)))
  = inl d ->
  fst (attempt city w) = Ok d.
Proof.
  intros Hr Hl Ht.
  unfold WeatherApiService.attempt, withTimeout.
  change (timerDelay REQUEST_TIMEOUT) with REQUEST_TIMEOUT.
  unfold WeatherApiService.fetchWeatherData, WeatherApiService.rawFetch. simpl.
  rewrite Hr. simpl. rewrite Ht. simpl.
  destruct (Z.ltb_spec REQUEST_TIMEOUT
              (clock w + replyLatency (network city (invoked w)) - clock w));
    [lia | done].
Qed.

(** Through a breaker that is not open the guarded fetch is the retry
    loop followed by the callback of its outcome. *)
Lemma guardedFetch_passes city w :
  state (breaker w) <> OPEN ->
  let res := retryWithBackoff jitter (attempt city) 3 1000 w in
  WeatherApiService.guardedFetch transformWeatherData network jitter city w
  = (fst res,
     setBreaker
       (if isOk (fst res) then CircuitBreaker.onSuccess (breaker w)
        else CircuitBreaker.onFailure (clock (snd res)) (breaker w))
       (snd res)).
Proof.
  intros Hst res.
  unfold WeatherApiService.guardedFetch, CircuitBreaker.call,
    CircuitBreaker.gate.
  destruct (state (breaker w)) eqn:E; try done;
    rewrite setBreaker_same; fold (attempt city); fold res;
    pose proof (retryLoop_keepsBreaker jitter (attempt city) 3 1000 4 0 w
                  (attempt_keepsBreaker city) eq_refl) as Hb;
    unfold retryWithBackoff in res; fold res in Hb;
    destruct res as [[v|e] w']; simpl in *; by rewrite Hb.
Qed.

(** Through an open breaker inside its recovery time nothing is
    fetched. *)
Lemma guardedFetch_blocked city w :
  state (breaker w) = OPEN ->
  clock w - lastFailureTime (breaker w) <= recoveryTimeout (breaker w) ->
  WeatherApiService.guardedFetch transformWeatherData network jitter city w
  = (Err CircuitBreaker.breakerOpen, w).
Proof.
  intros Hst Hin.
  unfold WeatherApiService.guardedFetch, CircuitBreaker.call,
    CircuitBreaker.gate. rewrite Hst.
  destruct (Z.ltb_spec (recoveryTimeout (breaker w))
              (clock w - lastFailureTime (breaker w))); [lia | done].
Qed.

(** When the four attempts all fail, the breaker counts one failure. *)
Lemma guardedFetch_all_fail city w :
  state (breaker w) <> OPEN ->
  (forall i, (i <= 3)%nat -> failsAt (attempt city) (invoked w + i)) ->
  let res :=
    WeatherApiService.guardedFetch transformWeatherData network jitter city w in
  invoked (snd res) = (invoked w + 4)%nat
  /\ failureCount (breaker (snd res)) = failureCount (breaker w) + 1
  /\ exists w1, invoked w1 = (invoked w + 3)%nat
                /\ fst res = fst (attempt city w1).
Proof.
  intros Hst Hfail res. subst res. rewrite guardedFetch_passes by done.
  destruct (retryLoop_all_fail jitter (attempt city) 3 1000 3 0 w
              (attempt_counted city) ltac:(lia) eq_refl Hfail)
    as (w1 & Hw1 & Hres).
  unfold retryWithBackoff. rewrite Hres.
  pose proof (Hfail 3%nat ltac:(lia) w1 Hw1) as Hok.
  pose proof (attempt_counted city w1) as Hinv.
  simpl. rewrite Hok. simpl.
  split; [lia|]. split; [done|].
  by exists w1.
Qed.
End ServiceFacts.

(** ** The claims about the service *)




(** C5, the nesting. On a network that always answers 404 the
    expression of the code and the nesting written in the
    specification leave different worlds: with the breaker outermost it
    counts one failure for the four attempts, with the breaker
    innermost it would count four. *)
Lemma nesting_of_the_specification_differs :
  let city := jsString "London" in
  let w := WeatherApiService.newWorld 0 in
  failureCount (breaker (snd
    (WeatherApiService.guardedFetch stamp alwaysNotFound noJitter city w))) = 1
  /\ failureCount (breaker (snd
       (WeatherApiService.specGuardedFetch stamp alwaysNotFound noJitter city w)))
     = 4
  /\ WeatherApiService.guardedFetch stamp alwaysNotFound noJitter city w
     <> WeatherApiService.specGuardedFetch stamp alwaysNotFound noJitter city w.
Proof. vm_compute. repeat split. discriminate. Qed.

(** C5, as amended. For a valid city the service runs
    [Breaker.call(Retry(Timeout(rawFetch)))]: (1) the call is the
    breaker's [call] around the retry loop around the timer around one
    fetch; (2) the breaker is outermost: while it is open nothing is
    fetched, retried or waited for; (3) the breaker sees the retried
    call as one: four failed attempts count as one failure; (4) the
    timer is innermost: an attempt that runs out of time is one failed
    attempt, and the next attempt can still succeed. *)
Theorem fetch_nests_breaker_retry_timeout
    {Payload WeatherData : Type}
    (transformWeatherData : Payload -> Z -> WeatherData + string)
    (network : JsString -> nat -> NetReply Payload) (jitter : nat -> Z)
    (city : JsString) (s : WeatherApiService.t) (w : World) :
  WeatherApiService.validateCityName city = inl tt ->
  let attempt :=
    WeatherApiService.attempt transformWeatherData network city in
  let res :=
    WeatherApiService.fetchWeather transformWeatherData network jitter
      city s w in
  res
  = (let '(r, w') :=
       CircuitBreaker.call (retryWithBackoff jitter attempt 3 1000) w in
     (r, WeatherApiService.newController (WeatherApiService.cancelRequests s),
      w'))
  /\ (state (breaker w) = OPEN ->
      clock w - lastFailureTime (breaker w) <= recoveryTimeout (breaker w) ->
      fst (fst res) = Err CircuitBreaker.breakerOpen /\ snd res = w)
  /\ (state (breaker w) <> OPEN ->
      (forall i, (i <= 3)%nat -> failsAt attempt (invoked w + i)) ->
      invoked (snd res) = (invoked w + 4)%nat
      /\ failureCount (breaker (snd res)) = failureCount (breaker w) + 1)
  /\ (state (breaker w) <> OPEN ->
      REQUEST_TIMEOUT < replyLatency (network city (invoked w)) ->
      succeedsAt attempt (invoked w + 1) ->
      isOk (fst (fst res)) = true
      /\ invoked (snd res) = (invoked w + 2)%nat
      /\ failureCount (breaker (snd res)) = 0).
Proof.
  intros Hvalid attempt res. subst res.
  unfold WeatherApiService.fetchWeather. rewrite Hvalid.
  fold (WeatherApiService.guardedFetch transformWeatherData network jitter city).
  split; [done|]. split; [|split].
  - intros Hopen Hin. by rewrite guardedFetch_blocked.
  - intros Hst Hfail.
    destruct (guardedFetch_all_fail transformWeatherData network jitter city w
                Hst Hfail) as (Hinv & Hcount & _).
    by destruct (WeatherApiService.guardedFetch _ _ _ _ _) as [r w'].
  - intros Hst Hslow Hok.
    rewrite guardedFetch_passes by done. fold attempt.
    destruct (retryLoop_first_success jitter attempt 3 1000 1 0 w
                (attempt_counted transformWeatherData network city)
                ltac:(lia)) as (w1 & Hw1 & Hres).
    + intros i Hi w0 Hw0. assert (i = 0)%nat as -> by lia.
      subst attempt. rewrite attempt_slow; [done|].
      rewrite Hw0, Nat.add_0_r. done.
    + done.
    + unfold retryWithBackoff. rewrite Hres.
      pose proof (Hok w1 Hw1) as Hisok.
      pose proof (attempt_counted transformWeatherData network city w1) as Hinv.
      fold attempt in Hinv.
      simpl. rewrite Hisok. simpl. split; [done|]. split; [lia | done].
Qed.

Lemma fetch_nests_breaker_retry_timeout_witness :
  let london := jsString "London" in
  let blocked :=
    WeatherApiService.fetchWeather stamp alwaysFine noJitter london
      WeatherApiService.new (mkWorld 61000 0 0 opened) in
  let failed :=
    WeatherApiService.fetchWeather stamp alwaysNotFound noJitter london
      WeatherApiService.new (WeatherApiService.newWorld 0) in
  let late :=
    WeatherApiService.fetchWeather stamp slowThenFine noJitter london
      WeatherApiService.new (WeatherApiService.newWorld 0) in
  (fst (fst blocked) = Err CircuitBreaker.breakerOpen
   /\ snd blocked = mkWorld 61000 0 0 opened)
  /\ (invoked (snd failed) = 4%nat /\ failureCount (breaker (snd failed)) = 1)
  /\ (isOk (fst (fst late)) = true /\ invoked (snd late) = 2%nat
      /\ failureCount (breaker (snd late)) = 0).
Proof.
  intros london blocked failed late.
  assert (state (breaker (WeatherApiService.newWorld 0)) <> OPEN) as Hclosed
    by (simpl; discriminate).
  split; [|split].
  - destruct (fetch_nests_breaker_retry_timeout stamp alwaysFine noJitter
                london WeatherApiService.new (mkWorld 61000 0 0 opened) eq_refl)
      as (_ & Hblocked & _).
    apply Hblocked; [reflexivity | simpl; lia].
  - destruct (fetch_nests_breaker_retry_timeout stamp alwaysNotFound noJitter
                london WeatherApiService.new (WeatherApiService.newWorld 0)
                eq_refl) as (_ & _ & Hfailed & _).
    apply Hfailed; [exact Hclosed|].
    intros i _ w0 _.
    erewrite attempt_status;
      [reflexivity | reflexivity | simpl; unfold REQUEST_TIMEOUT; lia].
  - destruct (fetch_nests_breaker_retry_timeout stamp slowThenFine noJitter
                london WeatherApiService.new (WeatherApiService.newWorld 0)
                eq_refl) as (_ & _ & _ & Hlate).
    apply Hlate; [exact Hclosed | simpl; unfold REQUEST_TIMEOUT; lia |].
    intros w0 Hw0.
    unfold WeatherApiService.attempt, withTimeout.
    change (timerDelay REQUEST_TIMEOUT) with REQUEST_TIMEOUT.
    unfold WeatherApiService.fetchWeatherData, WeatherApiService.rawFetch,
      slowThenFine. simpl in *. rewrite Hw0. simpl.
    destruct (Z.ltb_spec REQUEST_TIMEOUT (clock w0 + 40 - clock w0)) as [Hlt|_];
      [unfold REQUEST_TIMEOUT in Hlt; lia | reflexivity].
Defined.

(** ** Validation of the city name *)

Lemma forallb_false {A : Type} (f : A -> bool) (l : list A) :
  forallb f l = false <-> exists x, x ∈ l /\ f x = false.
Proof.
  induction l as [|a r IH]; simpl.
  - split; [done|]. intros (x & Hx & _). by apply elem_of_nil in Hx.
  - rewrite andb_false_iff, IH. split.
    + intros [Ha|(x & Hx & Hf)].
      * exists a. split; [apply list_elem_of_here | done].
      * exists x. split; [by apply list_elem_of_further | done].
    + intros (x & Hx & Hf). apply elem_of_cons in Hx as [->|Hx]; [by left|].
      right. by exists x.
Qed.

Lemma cityPattern_false (city : JsString) :
  cityPattern city = false
  <-> city = [] \/ exists c, c ∈ city /\ cityChar c = false.
Proof.
  destruct city as [|c0 r]; [by split; [left|]|].
  unfold cityPattern. rewrite forallb_false. split; [by right|].
  by intros [?|?].
Qed.

(** C10, the tab. The string "a", tab, "b" holds a character that is
    neither an ASCII letter nor a space, hyphen, apostrophe, comma or
    period, and yet it passes validation and the service goes to the
    network for it. *)
Lemma tab_passes_validation :
  let city := [97; 9; 98]%N in
  let res := WeatherApiService.fetchWeather stamp alwaysFine noJitter city
               WeatherApiService.new (WeatherApiService.newWorld 0) in
  existsb (fun c => negb (listedCityChar c)) city = true
  /\ WeatherApiService.validateCityName city = inl tt
  /\ fst (fst res) = Ok "sunny"%string
  /\ invoked (snd res) = 1%nat.
Proof. vm_compute. repeat split. Qed.

(** C10, as amended. [fetchWeather] throws a [ValidationError] exactly
    when the city is empty, or longer than 100 code units, or holds a
    character outside the class of the pattern: ASCII letters, the
    white space of [\s] (the space, but also the tab, the line breaks,
    the no-break space and the other Unicode spaces), hyphen,
    apostrophe, comma and period. It throws before anything else
    happens: the service, the breaker, the clock and the count of
    fetches stay as they were. Digits and characters beyond ASCII that
    are not white space are outside the class. *)
Theorem invalid_city_is_rejected_before_any_fetch
    {Payload WeatherData : Type}
    (transformWeatherData : Payload -> Z -> WeatherData + string)
    (network : JsString -> nat -> NetReply Payload) (jitter : nat -> Z)
    (city : JsString) (s : WeatherApiService.t) (w : World) :
  ((city = [] \/ (100 < length city)%nat
    \/ exists c, c ∈ city /\ cityChar c = false)
   <-> exists e, name e = ValidationError
                 /\ WeatherApiService.validateCityName city = inr e)
  /\ (forall e,
        WeatherApiService.validateCityName city = inr e ->
        WeatherApiService.fetchWeather transformWeatherData network jitter
          city s w = (Err e, s, w))
  /\ (forall c, (48 <= c <= 57)%N -> cityChar c = false)
  /\ (forall c, (128 <= c)%N -> isWhiteSpace c = false -> cityChar c = false).
Proof.
  split; [|split; [|split]].
  - unfold WeatherApiService.validateCityName.
    destruct city as [|c0 r].
    { split; [|by left]. intros _. eexists. split; [|reflexivity]. done. }
    destruct (Nat.ltb_spec 100 (length (c0 :: r))) as [Hlong|Hshort].
    { split; [|by right; left].
      intros _. eexists. split; [|reflexivity]. done. }
    destruct (cityPattern (c0 :: r)) eqn:Ep; simpl.
    + split.
      * intros [?|[?|Hbad]]; [done | simpl in *; lia |].
        assert (cityPattern (c0 :: r) = false) as Hf
          by (apply cityPattern_false; by right).
        congruence.
      * intros (e & _ & ?). done.
    + split.
      * intros _. eexists. split; [|reflexivity]. done.
      * intros _. right. right.
        apply cityPattern_false in Ep as [?|?]; done.
  - intros e He. unfold WeatherApiService.fetchWeather. by rewrite He.
  - intros c Hc. destruct (cityChar c) eqn:E; [|done]. exfalso.
    unfold cityChar, isAsciiLetter, isWhiteSpace in E.
    rewrite !orb_true_iff, !andb_true_iff, !N.leb_le, !N.eqb_eq in E. lia.
  - intros c Hc Hws. destruct (cityChar c) eqn:E; [|done]. exfalso.
    unfold cityChar in E. rewrite Hws in E. unfold isAsciiLetter in E.
    rewrite !orb_true_iff, !andb_true_iff, !N.leb_le, !N.eqb_eq in E. lia.
Qed.

Lemma invalid_city_is_rejected_before_any_fetch_witness :
  let city := jsString "Paris 15" in
  let w := WeatherApiService.newWorld 0 in
  exists e,
    name e = ValidationError
    /\ WeatherApiService.fetchWeather stamp alwaysFine noJitter city
         WeatherApiService.new w
       = (Err e, WeatherApiService.new, w).
Proof.
  intros city w.
  destruct (invalid_city_is_rejected_before_any_fetch stamp alwaysFine noJitter
              city WeatherApiService.new w) as ([Hthrows _] & Hsame & _).
  destruct Hthrows as (e & Hname & He).
  - right. right. exists 49%N. split; [|reflexivity].
    apply list_elem_of_In. vm_compute. tauto.
  - exists e. split; [exact Hname | exact (Hsame e He)].
Defined.

(** ** Supersession in the hook *)

(** The continuation of a suspended call shows its result, whatever was
    asked for in the meantime: nothing in it looks at an abort signal
    or at the city of the latest call. *)
Lemma settle_shows_result {D : Type} (h : UseWeatherData.t D) (now : Z)
    (rid : nat) (d : D) (call : UseWeatherData.Suspended)
    (rest : list UseWeatherData.Suspended) :
  filter (fun c => UseWeatherData.requestId c = rid) (UseWeatherData.suspended h)
  = call :: rest ->
  UseWeatherData.data
    (UseWeatherData.state (UseWeatherData.settle now rid (Ok d) h))
  = Some d.
Proof.
  intros Hf. unfold UseWeatherData.settle. rewrite Hf.
  unfold UseWeatherData.onData.
  by destruct (UseWeatherData.endPerformanceTracking now _).
Qed.

(** An aborted fetch is a failed attempt like any other: the retry loop
    of the service fetches again, and the call that was to be cancelled
    resolves with a report. *)
Example aborted_attempt_is_retried :
  let res := WeatherApiService.fetchWeather stamp abortedThenFine noJitter
               paris WeatherApiService.new (WeatherApiService.newWorld 0) in
  fst (fst res) = Ok "sunny"%string /\ invoked (snd res) = 2%nat.
Proof. vm_compute. split; reflexivity. Qed.

(** C4. Paris is asked for and its fetch is under way when Lyon is asked
    for and served from the cache. At that point the hook shows the
    report for Lyon, the call for Paris is still suspended, and the
    only controller aborted for it is the hook's own, which no fetch
    listens to: the controller the service made for the call is not
    aborted. When the fetch for Paris then resolves, its report
    replaces the report for Lyon. *)
Theorem superseded_result_replaces_latest :
  let before :=
    UseWeatherData.run asciiToLowerCase lyonThenParisThenLyon
      UseWeatherData.init in
  let after :=
    UseWeatherData.run asciiToLowerCase parisSettlesLate
      UseWeatherData.init in
  UseWeatherData.data (UseWeatherData.state before)
  = Some "report for Lyon"%string
  /\ UseWeatherData.suspended before
     = [UseWeatherData.mkSuspended 1 (jsString "paris") paris (Some 1%nat)]
  /\ UseWeatherData.hookAborted before = [1%nat; 0%nat]
  /\ WeatherApiService.aborted (UseWeatherData.service before) = [0%nat]
  /\ UseWeatherData.data (UseWeatherData.state after)
     = Some "report for Paris"%string
  /\ UseWeatherData.suspended after = [].
Proof. vm_compute. repeat split. Qed.

(** The same with two fetches under way: Paris, then Lyon; the report
    for Lyon arrives first, the report for Paris replaces it. *)
Example superseded_fetch_replaces_latest :
  UseWeatherData.data (UseWeatherData.state
    (UseWeatherData.run asciiToLowerCase
       [UseWeatherData.Resolve 0 paris;
        UseWeatherData.Resolve 10 lyon;
        UseWeatherData.Settle 50 1 (Ok "report for Lyon"%string);
        UseWeatherData.Settle 1200 0 (Ok "report for Paris"%string)]
       UseWeatherData.init))
  = Some "report for Paris"%string.
Proof. reflexivity. Qed.

(** * Further properties of the store *)

(** ** Reading back, missing and peeking *)

(** A value that was set is read back until it expires, by [get] and by
    [has]; setting a key that is present replaces the value in place:
    the size and the order of the keys stay. *)
Theorem set_then_get_returns_value {K V : Type} `{EqDecision K}
    (c : LRUCache.t K V) (now now' : Z) (key : K) (value : V)
    (ttl : option Z) :
  now' <= now + js_or ttl (LRUCache.defaultTTL c) ->
  let c1 := LRUCache.set now key value ttl c in
  fst (LRUCache.get now' key c1) = Some value
  /\ fst (LRUCache.has now' key c1) = true
  /\ (JsMap.has (LRUCache.cache c) key = true ->
      LRUCache.size c1 = LRUCache.size c
      /\ JsMap.keys (LRUCache.cache c1) = JsMap.keys (LRUCache.cache c)).
Proof.
  intros Hle c1. split; [by apply get_after_set|]. split.
  - unfold LRUCache.has. subst c1. rewrite set_stores_entry. simpl.
    destruct (Z.ltb_spec (now + js_or ttl (LRUCache.defaultTTL c)) now');
      [lia | done].
  - intros Hh. subst c1. rewrite set_present by done.
    unfold LRUCache.size. simpl. split.
    + by apply size_set_present.
    + apply jsmap_keys_set_present. unfold JsMap.has in Hh.
      by destruct (JsMap.get (LRUCache.cache c) key).
Qed.

Lemma set_then_get_returns_value_witness :
  let c := LRUCache.set 0 "lagos"%string 30 None (LRUCache.new 50 300000) in
  let c1 := LRUCache.set 1000 "lagos"%string 31 (Some 5000) c in
  fst (LRUCache.get 6000 "lagos"%string c1) = Some 31
  /\ LRUCache.size c1 = LRUCache.size c.
Proof.
  intros c c1.
  assert (6000 <= 1000 + js_or (Some 5000) (LRUCache.defaultTTL c)) as Hle
    by (simpl; lia).
  destruct (set_then_get_returns_value c 1000 6000 "lagos"%string 31
              (Some 5000) Hle) as (Hget & _ & Hsame).
  split; [exact Hget|]. apply Hsame. reflexivity.
Defined.

(** A [get] that returns nothing settles the matter: whether the key
    was absent or its entry had expired, the key is absent afterwards,
    so every later [get] returns nothing and every later [has] is
    false, at any time; and a [get] for an absent key changes
    nothing. *)
Theorem miss_leaves_key_absent {K V : Type} `{EqDecision K}
    (c : LRUCache.t K V) (now : Z) (key : K) :
  fst (LRUCache.get now key c) = None ->
  let c1 := snd (LRUCache.get now key c) in
  (forall now', fst (LRUCache.get now' key c1) = None
                /\ LRUCache.has now' key c1 = (false, c1))
  /\ (JsMap.has (LRUCache.cache c) key = false -> c1 = c).
Proof.
  intros Hmiss c1.
  assert (JsMap.get (LRUCache.cache c1) key = None) as Hgone.
  { subst c1. unfold LRUCache.get in *.
    destruct (JsMap.get (LRUCache.cache c) key) as [entry|] eqn:E; [|done].
    destruct (expiresAt entry <? now); [|done].
    simpl. apply jsmap_get_delete_eq. }
  split.
  - intros now'. unfold LRUCache.get, LRUCache.has. by rewrite Hgone.
  - intros Hh. subst c1. unfold LRUCache.get, JsMap.has in *.
    by destruct (JsMap.get (LRUCache.cache c) key).
Qed.

Lemma miss_leaves_key_absent_witness :
  let c := LRUCache.set 0 "lagos"%string 30 (Some 100) (LRUCache.new 50 300000) in
  let c1 := snd (LRUCache.get 101 "lagos"%string c) in
  fst (LRUCache.get 50 "lagos"%string c1) = None
  /\ LRUCache.has 50 "lagos"%string c1 = (false, c1).
Proof.
  intros c c1.
  assert (fst (LRUCache.get 101 "lagos"%string c) = None) as Hmiss
    by reflexivity.
  destruct (miss_leaves_key_absent c 101 "lagos"%string Hmiss) as [Hlater _].
  exact (Hlater 50).
Defined.

(** [has] answers as [get] would, and is a peek: when it answers true
    the store, ranks included, is untouched; when it answers false it
    leaves the store as the failed [get] does. Either way the two calls
    leave the same entries. *)
Theorem has_is_a_peek {K V : Type} `{EqDecision K}
    (c : LRUCache.t K V) (now : Z) (key : K) :
  fst (LRUCache.has now key c)
  = match fst (LRUCache.get now key c) with Some _ => true | None => false end
  /\ snd (LRUCache.has now key c)
     = (if fst (LRUCache.has now key c) then c
        else snd (LRUCache.get now key c))
  /\ LRUCache.cache (snd (LRUCache.has now key c))
     = LRUCache.cache (snd (LRUCache.get now key c)).
Proof.
  unfold LRUCache.has, LRUCache.get.
  destruct (JsMap.get (LRUCache.cache c) key) as [entry|]; [|done].
  by destruct (expiresAt entry <? now).
Qed.

(** ** Deleting and sweeping *)

Section Sweep.
Context {K V : Type} `{EqDecision K}.
Implicit Types (c : LRUCache.t K V) (key : K).

Lemma jsmap_delete_filter {A} (m : list (K * A)) key :
  JsMap.delete m key = filter (fun ka => fst ka <> key) m.
Proof.
  induction m as [|[k a] r IH]; simpl; [done|].
  destruct (decide (key = k)) as [->|Hne].
  - rewrite filter_cons_False; [done | by intros Hn; apply Hn].
  - rewrite filter_cons_True by (simpl; congruence). by f_equal.
Qed.

Lemma jsmap_delete_absent {A} (m : list (K * A)) key :
  key ∉ JsMap.keys m -> JsMap.delete m key = m.
Proof.
  induction m as [|[k a] r IH]; simpl; [done|].
  intros Hn. apply not_elem_of_cons in Hn as [Hne Hn].
  rewrite decide_False by done. f_equal. auto.
Qed.

Lemma jsmap_length_delete_one {A} (m : list (K * A)) key :
  NoDup (JsMap.keys m) -> key ∈ JsMap.keys m ->
  S (length (JsMap.delete m key)) = length m.
Proof.
  induction m as [|[k a] r IH]; simpl; intros Hnd Hin.
  - by apply elem_of_nil in Hin.
  - apply NoDup_cons in Hnd as [Hk Hnd].
    destruct (decide (key = k)) as [->|Hne].
    + by rewrite jsmap_delete_absent.
    + apply elem_of_cons in Hin as [?|Hin]; [done|]. simpl. f_equal. auto.
Qed.

Lemma filter_agree {A} (P Q : A -> Prop) `{!forall x, Decision (P x)}
    `{!forall x, Decision (Q x)} (l : list A) :
  (forall x, x ∈ l -> P x <-> Q x) -> filter P l = filter Q l.
Proof.
  induction l as [|a r IH]; intros Hpq; [done|].
  assert (filter P r = filter Q r) as Hr.
  { apply IH. intros x Hx. apply Hpq. by apply list_elem_of_further. }
  destruct (decide (P a)) as [Hp|Hp].
  - rewrite !filter_cons_True; [by rewrite Hr | | done].
    apply Hpq; [apply list_elem_of_here | done].
  - rewrite !filter_cons_False; [done | | done].
    intros Hq. apply Hp. apply Hpq; [apply list_elem_of_here | done].
Qed.

Lemma filter_split_length {A} (P : A -> Prop) `{!forall x, Decision (P x)}
    (l : list A) :
  (length (filter P l) + length (filter (fun x => ~ P x) l))%nat = length l.
Proof.
  induction l as [|a r IH]; [done|].
  destruct (decide (P a)) as [Hp|Hp].
  - rewrite filter_cons_True by done.
    rewrite (filter_cons_False (fun x => ~ P x)) by tauto. simpl. lia.
  - rewrite filter_cons_False by done.
    rewrite (filter_cons_True (fun x => ~ P x)) by done. simpl. lia.
Qed.

Lemma filter_all {A} (P : A -> Prop) `{!forall x, Decision (P x)}
    (l : list A) :
  (forall x, P x) -> filter P l = l.
Proof.
  intros Hp. induction l as [|a r IH]; [done|].
  rewrite filter_cons_True by done. by f_equal.
Qed.

Lemma key_determines_entry {A} (m : list (K * A)) (x y : K * A) :
  NoDup (JsMap.keys m) -> x ∈ m -> y ∈ m -> fst x = fst y -> x = y.
Proof.
  intros Hnd Hx Hy Hk. destruct x as [k a], y as [k' a']. simpl in Hk. subst k'.
  pose proof (jsmap_elem_get m k a Hnd Hx).
  pose proof (jsmap_elem_get m k a' Hnd Hy). congruence.
Qed.

(** After a run of deletions the keys deleted are gone and the others
    are as they were. *)
Lemma deletes_filter (ks : list K) c :
  let c1 := fold_left (fun c' key => snd (LRUCache.delete key c')) ks c in
  LRUCache.cache c1 = filter (fun ke => fst ke ∉ ks) (LRUCache.cache c)
  /\ LRUCache.accessOrder c1
     = filter (fun kr => fst kr ∉ ks) (LRUCache.accessOrder c).
Proof.
  revert c. induction ks as [|k r IH]; intros c; simpl.
  - split; symmetry; apply filter_all; intros x; apply not_elem_of_nil.
  - destruct (IH (snd (LRUCache.delete k c))) as [Hc Ha]. simpl in Hc, Ha.
    rewrite Hc, Ha, !jsmap_delete_filter, !list_filter_filter.
    split; apply list_filter_iff; intros x; rewrite not_elem_of_cons; tauto.
Qed.

Lemma expiredKeys_elem now (m : list (K * CacheEntry V)) ke :
  NoDup (JsMap.keys m) -> ke ∈ m ->
  fst ke ∉ LRUCache.expiredKeys now m <-> now <= expiresAt (snd ke).
Proof.
  intros Hnd Hin. unfold LRUCache.expiredKeys. split.
  - intros Hn. destruct (decide (now <= expiresAt (snd ke))) as [|Hexp]; [done|].
    destruct Hn. apply list_elem_of_fmap. exists ke. split; [done|].
    apply list_elem_of_filter. split; [lia | done].
  - intros Hle Hk. apply list_elem_of_fmap in Hk as (ke' & Hfst & Hin').
    apply list_elem_of_filter in Hin' as [Hexp Hin'].
    assert (ke = ke') as -> by by eapply key_determines_entry.
    lia.
Qed.

Lemma expiredKeys_length now (m : list (K * CacheEntry V)) :
  (length (LRUCache.expiredKeys now m) + length (unexpired now m))%nat
  = length m.
Proof.
  unfold LRUCache.expiredKeys, unexpired. rewrite length_map.
  rewrite <- (filter_split_length (fun ke => expiresAt (snd ke) < now) m).
  f_equal. f_equal. apply list_filter_iff. intros x. lia.
Qed.

(** [cleanup] leaves exactly the unexpired entries. *)
Lemma cleanup_cache c now :
  NoDup (JsMap.keys (LRUCache.cache c)) ->
  LRUCache.cache (snd (LRUCache.cleanup now c))
  = unexpired now (LRUCache.cache c).
Proof.
  intros Hnd. unfold LRUCache.cleanup. cbn [snd].
  destruct (deletes_filter (LRUCache.expiredKeys now (LRUCache.cache c)) c)
    as [Hc _].
  cbv zeta in Hc. rewrite Hc.
  apply filter_agree. intros ke Hin. by apply expiredKeys_elem.
Qed.

(** The loop of [keys] collects the keys of the unexpired entries, in
    order, and deletes the expired ones as [cleanup] does. *)
Lemma keysLoop_spec now (entries : list (K * CacheEntry V)) validKeys c :
  LRUCache.keysLoop now entries validKeys c
  = (validKeys ++ JsMap.keys (unexpired now entries),
     fold_left (fun c' key => snd (LRUCache.delete key c'))
       (LRUCache.expiredKeys now entries) c).
Proof.
  revert validKeys c.
  induction entries as [|[k e] r IH]; intros validKeys c; simpl.
  - by rewrite app_nil_r.
  - unfold unexpired, LRUCache.expiredKeys in *.
    destruct (Z.leb_spec now (expiresAt e)) as [Hle|Hgt].
    + rewrite IH. rewrite filter_cons_True by done.
      rewrite filter_cons_False by (simpl; lia).
      simpl. by rewrite <- app_assoc.
    + rewrite IH. rewrite filter_cons_False by (simpl; lia).
      rewrite filter_cons_True by (simpl; lia). done.
Qed.
End Sweep.

Section SweepFacts.
Context {K V : Type} `{EqDecision K}.
Implicit Types (c : LRUCache.t K V) (key : K).

Lemma reachable_inv (maxSize defaultTTL : Z) (ops : list (Op K V)) :
  StoreInv (runStore ops (LRUCache.new maxSize defaultTTL)).
Proof. apply inv_run, inv_new. Qed.

Lemma jsmap_get_filter {A} (P : K * A -> Prop) `{!forall x, Decision (P x)}
    (m : list (K * A)) key :
  NoDup (JsMap.keys m) ->
  JsMap.get (filter P m) key
  = match JsMap.get m key with
    | Some a => if decide (P (key, a)) then Some a else None
    | None => None
    end.
Proof.
  induction m as [|[k a] r IH]; simpl; intros Hnd; [done|].
  apply NoDup_cons in Hnd as [Hk Hnd].
  destruct (decide (key = k)) as [->|Hne].
  - destruct (decide (P (k, a))) as [Hp|Hp].
    + rewrite filter_cons_True by done. simpl. by rewrite decide_True.
    + rewrite filter_cons_False by done.
      apply jsmap_get_None. intros Hin. apply Hk.
      apply list_elem_of_fmap in Hin as (x & -> & Hx).
      apply list_elem_of_filter in Hx as [_ Hx].
      by apply (list_elem_of_fmap_2 fst) in Hx.
  - destruct (decide (P (k, a))) as [Hp|Hp].
    + rewrite filter_cons_True by done. simpl. rewrite decide_False by done.
      by apply IH.
    + rewrite filter_cons_False by done. by apply IH.
Qed.

Lemma expiredKeys_unexpired now (m : list (K * CacheEntry V)) :
  LRUCache.expiredKeys now (unexpired now m) = [].
Proof.
  unfold LRUCache.expiredKeys, unexpired. rewrite list_filter_filter.
  induction m as [|x r IH]; [done|].
  rewrite filter_cons_False by lia. done.
Qed.
End SweepFacts.

(** On a store reached by any calls, [delete] reports whether the key
    was there and removes that key alone: the size drops by one exactly
    when it was there, the key is then absent from both maps, a second
    [delete] reports false, and every other key reads as before. *)
Theorem delete_removes_one_key {K V : Type} `{EqDecision K}
    (maxSize defaultTTL : Z) (ops : list (Op K V)) (key : K) :
  let c := runStore ops (LRUCache.new maxSize defaultTTL) in
  let c1 := snd (LRUCache.delete key c) in
  fst (LRUCache.delete key c) = JsMap.has (LRUCache.cache c) key
  /\ LRUCache.size c1
     = (if fst (LRUCache.delete key c) then LRUCache.size c - 1
        else LRUCache.size c)
  /\ JsMap.has (LRUCache.cache c1) key = false
  /\ JsMap.has (LRUCache.accessOrder c1) key = false
  /\ fst (LRUCache.delete key c1) = false
  /\ (forall k now, k <> key ->
        fst (LRUCache.get now k c1) = fst (LRUCache.get now k c)).
Proof.
  intros c c1.
  destruct (reachable_inv maxSize defaultTTL ops) as [Hk Hnd _ _ _].
  fold c in Hk, Hnd.
  assert (JsMap.has (LRUCache.cache c1) key = false) as Hgone.
  { unfold JsMap.has. subst c1. simpl. by rewrite jsmap_get_delete_eq. }
  split; [done|]. split; [|split; [done|split; [|split; [done|]]]].
  - simpl. unfold LRUCache.size, JsMap.size. subst c1. simpl.
    destruct (JsMap.has (LRUCache.cache c) key) eqn:Hh.
    + apply jsmap_has_true in Hh.
      pose proof (jsmap_length_delete_one (LRUCache.cache c) key Hnd Hh). lia.
    + apply jsmap_has_false in Hh. by rewrite jsmap_delete_absent.
  - unfold JsMap.has. subst c1. simpl. by rewrite jsmap_get_delete_eq.
  - intros k now Hne. unfold LRUCache.get. subst c1. simpl.
    rewrite jsmap_get_delete_ne by done.
    destruct (JsMap.get (LRUCache.cache c) k) as [entry|]; [|done].
    by destruct (expiresAt entry <? now).
Qed.

Lemma delete_removes_one_key_witness :
  let c := runStore [OpSet 0 "lagos"%string 30 None;
                     OpSet 1 "accra"%string 29 None]
             (LRUCache.new 50 300000) in
  let c1 := snd (LRUCache.delete "lagos"%string c) in
  LRUCache.size c1 = LRUCache.size c - 1
  /\ fst (LRUCache.get 2 "accra"%string c1) = fst (LRUCache.get 2 "accra"%string c).
Proof.
  intros c c1.
  destruct (delete_removes_one_key 50 300000
              [OpSet 0 "lagos"%string 30 None; OpSet 1 "accra"%string 29 None]
              "lagos"%string) as (_ & Hsize & _ & _ & _ & Hother).
  split; [exact Hsize|].
  apply Hother. discriminate.
Defined.

(** On a store reached by any calls, [cleanup] at time [now] deletes
    the expired entries and nothing else: it leaves the entries with
    [now <= expiresAt], in their order and with their values; the two
    maps keep the same keys; the number it returns is the number of
    entries deleted; and a second [cleanup] at the same time deletes
    nothing. *)
Theorem cleanup_removes_exactly_expired {K V : Type} `{EqDecision K}
    (maxSize defaultTTL : Z) (ops : list (Op K V)) (now : Z) :
  let c := runStore ops (LRUCache.new maxSize defaultTTL) in
  let c1 := snd (LRUCache.cleanup now c) in
  LRUCache.cache c1 = unexpired now (LRUCache.cache c)
  /\ (forall key,
        JsMap.get (LRUCache.cache c1) key
        = match JsMap.get (LRUCache.cache c) key with
          | Some entry =>
              if expiresAt entry <? now then None else Some entry
          | None => None
          end)
  /\ JsMap.keys (LRUCache.accessOrder c1) = JsMap.keys (LRUCache.cache c1)
  /\ fst (LRUCache.cleanup now c) = LRUCache.size c - LRUCache.size c1
  /\ LRUCache.cleanup now c1 = (0, c1).
Proof.
  intros c c1.
  pose proof (reachable_inv maxSize defaultTTL ops) as Hinv. fold c in Hinv.
  pose proof (inv_cleanup c now Hinv) as Hinv1. fold c1 in Hinv1.
  destruct Hinv as [_ Hnd _ _ _]. destruct Hinv1 as [Hk1 _ _ _ _].
  pose proof (cleanup_cache c now Hnd) as Hc. fold c1 in Hc.
  split; [done|]. split; [|split; [done|split]].
  - intros key. rewrite Hc. unfold unexpired.
    rewrite jsmap_get_filter by done.
    destruct (JsMap.get (LRUCache.cache c) key) as [entry|]; [|done]. simpl.
    destruct (Z.ltb_spec (expiresAt entry) now);
      [by rewrite decide_False by lia | by rewrite decide_True by lia].
  - unfold LRUCache.size, JsMap.size. rewrite Hc.
    unfold LRUCache.cleanup. cbn [fst].
    pose proof (expiredKeys_length now (LRUCache.cache c)). lia.
  - unfold LRUCache.cleanup. rewrite Hc, expiredKeys_unexpired. done.
Qed.

(** On a store reached by any calls, [keys] at time [now] returns the
    keys of the unexpired entries in the order of insertion, each once,
    and leaves the store that [cleanup] at that time leaves, whose keys
    are the keys returned. *)
Theorem keys_lists_unexpired_and_sweeps {K V : Type} `{EqDecision K}
    (maxSize defaultTTL : Z) (ops : list (Op K V)) (now : Z) :
  let c := runStore ops (LRUCache.new maxSize defaultTTL) in
  fst (LRUCache.keys now c) = JsMap.keys (unexpired now (LRUCache.cache c))
  /\ snd (LRUCache.keys now c) = snd (LRUCache.cleanup now c)
  /\ fst (LRUCache.keys now c)
     = JsMap.keys (LRUCache.cache (snd (LRUCache.keys now c)))
  /\ NoDup (fst (LRUCache.keys now c)).
Proof.
  intros c.
  pose proof (reachable_inv maxSize defaultTTL ops) as Hinv. fold c in Hinv.
  destruct Hinv as [_ Hnd _ _ _].
  unfold LRUCache.keys. rewrite keysLoop_spec. cbn [fst snd].
  split; [done|]. split; [done|].
  change (fold_left (fun c' key => snd (LRUCache.delete key c'))
            (LRUCache.expiredKeys now (LRUCache.cache c)) c)
    with (snd (LRUCache.cleanup now c)).
  rewrite cleanup_cache by done. split; [done|].
  unfold unexpired, JsMap.keys. simpl.
  apply (sublist_NoDup _ (map fst (LRUCache.cache c))); [exact Hnd|].
  apply (fmap_sublist fst), sublist_filter.
Qed.

(** ** Statistics of the store *)

Section StatsFacts.
Context {V : Type}.

Lemma bounds_extend (seen : list Z) (o n : option Z) (t : Z) :
  bounds seen o n ->
  bounds (seen ++ [t])
    (match o with
     | None => Some t
     | Some lo => if t <? lo then Some t else Some lo
     end)
    (match n with
     | None => Some t
     | Some hi => if hi <? t then Some t else Some hi
     end).
Proof.
  unfold bounds. destruct o as [lo|], n as [hi|]; try done.
  - intros (Hlo & Hhi & Hall).
    assert (lo <= hi) as Hlh.
    { pose proof (proj1 (Forall_forall _ _) Hall lo Hlo). simpl in *. lia. }
    destruct (Z.ltb_spec t lo), (Z.ltb_spec hi t); try lia;
      (split; [|split]);
      try (apply elem_of_app; right; apply list_elem_of_here);
      try (apply elem_of_app; by left);
      apply Forall_app; (split; [|by apply Forall_singleton; lia]);
      (eapply Forall_impl; [exact Hall|]); intros x Hx; simpl in *; lia.
  - intros ->. simpl. repeat split; try apply list_elem_of_here.
    apply Forall_singleton. lia.
Qed.

Lemma stats_fold (now : Z) (es : list (CacheEntry V)) (seen : list Z)
    (v : Z) (o n : option Z) :
  bounds seen o n ->
  let r := fold_left (LRUCache.statsStep now) es (v, o, n) in
  let valid := filter (fun e => now <= expiresAt e) es in
  fst (fst r) = v + Z.of_nat (length valid)
  /\ bounds (seen ++ map timestamp valid) (snd (fst r)) (snd r).
Proof.
  revert seen v o n. induction es as [|e r IH]; intros seen v o n Hb; simpl.
  - rewrite app_nil_r. split; [lia | done].
  - destruct (Z.leb_spec now (expiresAt e)) as [Hle|Hgt].
    + rewrite filter_cons_True by done. simpl.
      destruct (IH (seen ++ [timestamp e]) (v + 1) _ _
                  (bounds_extend seen o n (timestamp e) Hb)) as [Hv Hbb].
      split; [lia|]. by rewrite <- app_assoc in Hbb.
    + rewrite filter_cons_False by lia. by apply IH.
Qed.
End StatsFacts.

Lemma filter_values {K A : Type} (P : A -> Prop) `{!forall x, Decision (P x)}
    (m : list (K * A)) :
  filter P (map snd m) = map snd (filter (fun ka => P (snd ka)) m).
Proof.
  induction m as [|[k a] r IH]; [done|]. simpl.
  destruct (decide (P a)) as [Hp|Hp].
  - rewrite !filter_cons_True by done. simpl. by f_equal.
  - rewrite !filter_cons_False by done. done.
Qed.

Lemma getStats_size_within {K V : Type} `{EqDecision K}
    (c : LRUCache.t K V) (now : Z) :
  0 <= LRUCache.st_size (LRUCache.getStats now c) <= LRUCache.size c
  /\ LRUCache.st_maxSize (LRUCache.getStats now c) = LRUCache.maxSize c.
Proof.
  unfold LRUCache.getStats.
  destruct (stats_fold now (map snd (LRUCache.cache c)) [] 0 None None eq_refl)
    as [Hv _].
  destruct (fold_left (LRUCache.statsStep now) (map snd (LRUCache.cache c))
              (0, None, None)) as [[v o] n].
  cbn [fst snd LRUCache.st_size LRUCache.st_maxSize] in *.
  split; [|done].
  pose proof (length_filter (fun e : CacheEntry V => now <= expiresAt e)
                (map snd (LRUCache.cache c))) as Hl.
  rewrite length_map in Hl. unfold LRUCache.size, JsMap.size. lia.
Qed.

(** [getStats] at time [now] reports the number of unexpired entries,
    which is the number of keys that [keys] would return and never more
    than the size, the capacity, and the oldest and the newest time
    stamp among the unexpired entries: both are time stamps of such
    entries and bound all of them, and both are absent when every entry
    has expired. *)
Theorem getStats_describes_unexpired_entries {K V : Type} `{EqDecision K}
    (c : LRUCache.t K V) (now : Z) :
  let s := LRUCache.getStats now c in
  let valid := unexpired now (LRUCache.cache c) in
  LRUCache.st_size s = Z.of_nat (length valid)
  /\ LRUCache.st_size s = Z.of_nat (length (fst (LRUCache.keys now c)))
  /\ 0 <= LRUCache.st_size s <= LRUCache.size c
  /\ LRUCache.st_maxSize s = LRUCache.maxSize c
  /\ bounds (map (fun ke => timestamp (snd ke)) valid)
       (LRUCache.st_oldestEntry s) (LRUCache.st_newestEntry s).
Proof.
  intros s valid. subst s. unfold LRUCache.getStats.
  destruct (stats_fold now (map snd (LRUCache.cache c)) [] 0 None None eq_refl)
    as [Hv Hb].
  destruct (fold_left (LRUCache.statsStep now) (map snd (LRUCache.cache c))
              (0, None, None)) as [[v o] n].
  cbn [fst snd LRUCache.st_size LRUCache.st_maxSize LRUCache.st_oldestEntry
       LRUCache.st_newestEntry] in *.
  rewrite filter_values in Hv, Hb. fold (unexpired now (LRUCache.cache c)) in Hv, Hb.
  fold valid in Hv, Hb. rewrite length_map in Hv. rewrite <- list_fmap_compose in Hb.
  assert (v = Z.of_nat (length valid)) as Hsize by lia.
  split; [done|]. split; [|split; [|split; [done|done]]].
  - unfold LRUCache.keys. rewrite keysLoop_spec. cbn [fst].
    simpl. unfold JsMap.keys. by rewrite length_map.
  - unfold LRUCache.size, JsMap.size. subst valid. unfold unexpired in *.
    pose proof (length_filter (fun ke : K * CacheEntry V => now <= expiresAt (snd ke))
                  (LRUCache.cache c)). lia.
Qed.

(** ** The manager around the store *)

Section ManagerFacts.
Context {K V : Type} `{EqDecision K}.
Implicit Types (m : CacheManager.t K V).

Lemma manager_step_cache m (o : MOp K V) :
  CacheManager.cache (snd (stepManager m o))
  = stepStore (CacheManager.cache m) (toStoreOp o).
Proof.
  destruct o as [now key|now key value ttl|now key|key| |now]; simpl; try done.
  - unfold CacheManager.get.
    by destruct (LRUCache.get now key (CacheManager.cache m)) as [[v|] c'].
  - unfold CacheManager.has.
    by destruct (LRUCache.has now key (CacheManager.cache m)) as [b c'].
Qed.

Lemma manager_step_counters m (o : MOp K V) :
  0 <= CacheManager.hitCount m -> 0 <= CacheManager.missCount m ->
  0 <= CacheManager.hitCount (snd (stepManager m o))
  /\ 0 <= CacheManager.missCount (snd (stepManager m o)).
Proof.
  intros Hh Hm.
  destruct o as [now key|now key value ttl|now key|key| |now]; simpl; try done.
  - unfold CacheManager.get.
    destruct (LRUCache.get now key (CacheManager.cache m)) as [[v|] c'];
      simpl; lia.
  - unfold CacheManager.has.
    by destruct (LRUCache.has now key (CacheManager.cache m)) as [b c'].
Qed.

Lemma manager_run (ops : list (MOp K V)) m :
  0 <= CacheManager.hitCount m -> 0 <= CacheManager.missCount m ->
  let m1 := snd (runManager ops m) in
  CacheManager.cache m1 = runStore (map toStoreOp ops) (CacheManager.cache m)
  /\ 0 <= CacheManager.hitCount m1 /\ 0 <= CacheManager.missCount m1.
Proof.
  revert m. induction ops as [|o r IH]; intros m Hh Hm; simpl; [done|].
  pose proof (manager_step_cache m o) as Hc.
  pose proof (manager_step_counters m o Hh Hm) as [Hh' Hm'].
  destruct (stepManager m o) as [out m'].
  specialize (IH m' Hh' Hm'). destruct (runManager r m') as [outs m''].
  simpl in *. by rewrite <- Hc.
Qed.

Lemma hit_rate_in_unit_interval m :
  0 <= CacheManager.hitCount m -> 0 <= CacheManager.missCount m ->
  (0 <= CacheManager.getHitRate m <= 1)%Q.
Proof.
  intros Hh Hm. unfold CacheManager.getHitRate.
  destruct (Z.ltb_spec 0 (CacheManager.hitCount m + CacheManager.missCount m))
    as [Hpos|_]; [|split; discriminate].
  destruct (CacheManager.hitCount m + CacheManager.missCount m) as [|p|p] eqn:E;
    try lia.
  unfold Qdiv, Qmult, Qinv, Qle, inject_Z. simpl. lia.
Qed.
End ManagerFacts.

(** After any calls on a new manager: the store inside is the store
    that the forwarded calls produce, so it holds no more than
    [maxSize] entries (one when [maxSize] is below 1); the hit rate is a
    fraction between 0 and 1; and the statistics report the counters
    and a number of valid entries within the size. *)
Theorem manager_holds_a_bounded_store {K V : Type} `{EqDecision K}
    (maxSize ttl : Z) (ops : list (MOp K V)) (now : Z) :
  let m := snd (runManager ops (CacheManager.new maxSize ttl)) in
  let s := CacheManager.getStats now m in
  CacheManager.cache m
  = runStore (map toStoreOp ops) (LRUCache.new maxSize ttl)
  /\ LRUCache.size (CacheManager.cache m) <= Z.max 1 maxSize
  /\ (0 <= CacheManager.getHitRate m <= 1)%Q
  /\ 0 <= CacheManager.size s <= LRUCache.size (CacheManager.cache m)
  /\ CacheManager.maxSize s = maxSize
  /\ CacheManager.statHitCount s = CacheManager.hitCount m
  /\ CacheManager.statMissCount s = CacheManager.missCount m.
Proof.
  intros m s.
  destruct (manager_run ops (CacheManager.new maxSize ttl)) as (Hc & Hh & Hm);
    [simpl; lia | simpl; lia |].
  fold m in Hc, Hh, Hm. simpl in Hc.
  destruct (inv_run (map toStoreOp ops) (LRUCache.new (K := K) (V := V) maxSize ttl)
              (inv_new maxSize ttl)) as [Hinv [Hmax _]].
  rewrite <- Hc in Hinv, Hmax. simpl in Hmax.
  split; [done|]. split; [|split; [by apply hit_rate_in_unit_interval|]].
  - destruct Hinv as [_ _ _ _ Hs]. by rewrite Hmax in Hs.
  - destruct (getStats_size_within (CacheManager.cache m) now) as [Hsz Hms].
    subst s. unfold CacheManager.getStats. simpl.
    split; [done|]. split; [by rewrite Hms|]. done.
Qed.

(** * Further properties of the breaker and of the retry loop *)

Section BreakerFacts.
Context {T : Type}.
Implicit Types (fn : Async T) (w : World) (b : Breaker).

Lemma setBreaker_fields b w :
  clock (setBreaker b w) = clock w
  /\ invoked (setBreaker b w) = invoked w
  /\ breaker (setBreaker b w) = b.
Proof. done. Qed.

(** A call that passes the gate: what it returns and how it leaves the
    breaker, for an operation that leaves the breaker alone. *)
Lemma call_through fn w b1 :
  keepsBreaker fn ->
  CircuitBreaker.gate (clock w) (breaker w) = inl b1 ->
  let r := fn (setBreaker b1 w) in
  CircuitBreaker.call fn w
  = (fst r,
     setBreaker
       (if isOk (fst r) then CircuitBreaker.onSuccess b1
        else CircuitBreaker.onFailure (clock (snd r)) b1)
       (snd r)).
Proof.
  intros Hk Hg r. unfold CircuitBreaker.call. rewrite Hg.
  pose proof (Hk (setBreaker b1 w)) as Hb. fold r in Hb. simpl in Hb.
  subst r. destruct (fn (setBreaker b1 w)) as [[v|e] w']; simpl in *;
    by rewrite Hb.
Qed.

Lemma gate_cases w :
  settled (breaker w) ->
  (CircuitBreaker.gate (clock w) (breaker w) = inr CircuitBreaker.breakerOpen
   /\ state (breaker w) = OPEN
   /\ clock w - lastFailureTime (breaker w) <= recoveryTimeout (breaker w))
  \/ (exists b1,
        CircuitBreaker.gate (clock w) (breaker w) = inl b1
        /\ failureCount b1 = failureCount (breaker w)
        /\ failureThreshold b1 = failureThreshold (breaker w)
        /\ recoveryTimeout b1 = recoveryTimeout (breaker w)
        /\ (state (breaker w) = CLOSED /\ b1 = breaker w
            \/ state (breaker w) = OPEN /\ state b1 = HALF_OPEN
               /\ recoveryTimeout (breaker w)
                  < clock w - lastFailureTime (breaker w))).
Proof.
  unfold settled, CircuitBreaker.gate.
  destruct (state (breaker w)) eqn:E; intros [Hthr Hs]; [| |done].
  - right. exists (breaker w). repeat split; try done. by left.
  - destruct (Z.ltb_spec (recoveryTimeout (breaker w))
                (clock w - lastFailureTime (breaker w))) as [Hlt|Hge].
    + right. eexists. split; [done|]. repeat split; try done. by right.
    + by left.
Qed.

(** A call leaves a settled breaker settled, with its configuration. *)
Lemma call_settled fn w :
  keepsBreaker fn -> settled (breaker w) ->
  let w1 := snd (CircuitBreaker.call fn w) in
  settled (breaker w1)
  /\ failureThreshold (breaker w1) = failureThreshold (breaker w)
  /\ recoveryTimeout (breaker w1) = recoveryTimeout (breaker w).
Proof.
  intros Hk Hs w1. subst w1.
  destruct (gate_cases w Hs) as [(Hg & _ & _)|(b1 & Hg & Hc & Ht & Hr & Hcase)].
  - unfold CircuitBreaker.call. rewrite Hg. done.
  - rewrite (call_through fn w b1 Hk Hg). cbn [snd].
    rewrite (proj2 (proj2 (setBreaker_fields _ _))).
    destruct Hs as [Hthr Hs].
    destruct (isOk (fst (fn (setBreaker b1 w)))).
    + unfold settled, CircuitBreaker.onSuccess. simpl. lia.
    + unfold settled, CircuitBreaker.onFailure. simpl.
      split; [|done]. split; [lia|].
      destruct (Z.leb_spec (failureThreshold b1) (failureCount b1 + 1)) as [Hle|Hgt].
      * simpl. lia.
      * destruct Hcase as [[Hst ->]|(Hst & Hst1 & _)].
        -- rewrite Hst in *. lia.
        -- rewrite Hst in Hs. lia.
Qed.

Lemma run_settled (events : list (BreakerEvent T)) w :
  quietCalls events -> settled (breaker w) ->
  let w1 := runBreaker events w in
  settled (breaker w1)
  /\ failureThreshold (breaker w1) = failureThreshold (breaker w)
  /\ recoveryTimeout (breaker w1) = recoveryTimeout (breaker w).
Proof.
  revert w. induction events as [|e r IH]; intros w Hq Hs; simpl; [done|].
  apply Forall_cons in Hq as [He Hq].
  destruct e as [ms|fn]; simpl.
  - by apply (IH (elapse ms w)).
  - destruct (call_settled fn w He Hs) as (Hs1 & Ht1 & Hr1).
    destruct (IH (snd (CircuitBreaker.call fn w)) Hq Hs1) as (Hs2 & Ht2 & Hr2).
    split; [done|]. split; congruence.
Qed.
End BreakerFacts.

(** Whatever calls were made before, with whatever time between them,
    a breaker made with a threshold of at least 1 is never left
    half-open: between calls it is closed with fewer failures than the
    threshold or open with at least as many. A call then either is
    blocked (open, inside the recovery time: the breaker's error, the
    world untouched), or runs its operation once; a success closes the
    breaker and zeroes the count, a failure adds one to the count and
    records the time, and a failed probe of an open breaker leaves it
    open. *)
Theorem breaker_commits_after_every_call {T : Type}
    (failureThreshold0 recoveryTimeout0 : Z)
    (events : list (BreakerEvent T)) (w0 : World) (fn : Async T) :
  1 <= failureThreshold0 ->
  breaker w0 = CircuitBreaker.new failureThreshold0 recoveryTimeout0 ->
  quietCalls events -> keepsBreaker fn ->
  let w := runBreaker events w0 in
  let res := CircuitBreaker.call fn w in
  let b := breaker (snd res) in
  settled (breaker w) /\ settled b
  /\ failureThreshold b = failureThreshold0
  /\ recoveryTimeout b = recoveryTimeout0
  /\ (res = (Err CircuitBreaker.breakerOpen, w)
      /\ state (breaker w) = OPEN
      /\ clock w - lastFailureTime (breaker w) <= recoveryTimeout0
      \/ (exists w1,
            res = (fst (fn w1), setBreaker b (snd (fn w1)))
            /\ clock w1 = clock w /\ invoked w1 = invoked w
            /\ (state (breaker w) = OPEN -> state (breaker w1) = HALF_OPEN)
            /\ (isOk (fst res) = true -> state b = CLOSED /\ failureCount b = 0)
            /\ (isOk (fst res) = false ->
                failureCount b = failureCount (breaker w) + 1
                /\ lastFailureTime b = clock (snd res)
                /\ (state (breaker w) = OPEN -> state b = OPEN)))).
Proof.
  intros Hthr Hnew Hq Hk w res b.
  assert (settled (breaker w0)) as Hs0.
  { rewrite Hnew. unfold settled. simpl. lia. }
  destruct (run_settled events w0 Hq Hs0) as (Hs & Ht & Hr). fold w in Hs, Ht, Hr.
  rewrite Hnew in Ht, Hr. simpl in Ht, Hr.
  destruct (call_settled fn w Hk Hs) as (Hs1 & Ht1 & Hr1).
  fold res in Hs1, Ht1, Hr1. fold b in Hs1, Ht1, Hr1.
  split; [done|]. split; [done|]. split; [congruence|]. split; [congruence|].
  destruct (gate_cases w Hs) as [(Hg & Hst & Hin)|(b1 & Hg & Hc & Ht' & Hr' & Hcase)].
  - left. subst res. unfold CircuitBreaker.call. rewrite Hg.
    split; [done|]. split; [done|]. by rewrite <- Hr.
  - right. exists (setBreaker b1 w).
    pose proof (call_through fn w b1 Hk Hg) as Hcall. cbv zeta in Hcall.
    fold res in Hcall.
    assert (b = (if isOk (fst (fn (setBreaker b1 w)))
                 then CircuitBreaker.onSuccess b1
                 else CircuitBreaker.onFailure
                        (clock (snd (fn (setBreaker b1 w)))) b1)) as Hb.
    { subst b. by rewrite Hcall. }
    split; [by rewrite Hcall, <- Hb|]. split; [done|]. split; [done|].
    split; [|split].
    + intros Hopen. destruct Hcase as [[? _]|(_ & ? & _)]; [congruence | done].
    + intros Hok. rewrite Hcall in Hok. simpl in Hok. rewrite Hok in Hb.
      by rewrite Hb.
    + intros Hfail. rewrite Hcall in Hfail. simpl in Hfail. rewrite Hfail in Hb.
      rewrite Hb. simpl. split; [lia|]. split; [by rewrite Hcall|].
      intros Hopen. destruct Hs as [_ Hs]. rewrite Hopen in Hs.
      destruct (Z.leb_spec (failureThreshold b1) (failureCount b1 + 1));
        [done | lia].
Qed.

Lemma breaker_commits_after_every_call_witness :
  let w := runBreaker [Call failsThrice; Elapse 10; Call failsThrice]
             (WeatherApiService.newWorld 0) in
  settled (breaker w)
  /\ settled (breaker (snd (CircuitBreaker.call failsThrice w))).
Proof.
  intros w.
  assert (1 <= 5) as H5 by lia.
  assert (keepsBreaker failsThrice) as Hk by (intros w'; reflexivity).
  assert (quietCalls [Call failsThrice; Elapse 10; Call failsThrice]) as Hq
    by (repeat constructor; exact Hk).
  destruct (breaker_commits_after_every_call 5 60000
              [Call failsThrice; Elapse 10; Call failsThrice]
              (WeatherApiService.newWorld 0) failsThrice H5 eq_refl Hq Hk)
    as (Hbefore & Hafter & _).
  split; [exact Hbefore | exact Hafter].
Defined.

Section ThresholdFacts.
Context {T : Type}.
Implicit Types (fn : Async T) (w : World).

Lemma call_closed_failure fn w :
  state (breaker w) = CLOSED -> keepsBreaker fn ->
  isOk (fst (fn w)) = false ->
  CircuitBreaker.call fn w
  = (fst (fn w),
     setBreaker (CircuitBreaker.onFailure (clock (snd (fn w))) (breaker w))
       (snd (fn w))).
Proof.
  intros Hst Hk Hfail.
  assert (CircuitBreaker.gate (clock w) (breaker w) = inl (breaker w)) as Hg
    by (unfold CircuitBreaker.gate; by rewrite Hst).
  rewrite (call_through fn w (breaker w) Hk Hg).
  rewrite setBreaker_same. by rewrite Hfail.
Qed.

(** One failing call on a closed breaker below its threshold. *)
Lemma closed_failure_step fn per w :
  alwaysFails per fn ->
  state (breaker w) = CLOSED ->
  failureCount (breaker w) < failureThreshold (breaker w) ->
  let w1 := snd (CircuitBreaker.call fn w) in
  fst (CircuitBreaker.call fn w) = fst (fn w)
  /\ failureCount (breaker w1) = failureCount (breaker w) + 1
  /\ invoked w1 = (invoked w + per)%nat
  /\ failureThreshold (breaker w1) = failureThreshold (breaker w)
  /\ recoveryTimeout (breaker w1) = recoveryTimeout (breaker w)
  /\ lastFailureTime (breaker w1) = clock w1
  /\ state (breaker w1)
     = (if failureCount (breaker w1) <? failureThreshold (breaker w)
        then CLOSED else OPEN).
Proof.
  intros (Hk & Hfail & Hper) Hst Hlt. cbv zeta.
  rewrite (call_closed_failure fn w Hst Hk (Hfail w)). cbn [fst snd].
  pose proof (Hper w) as Hi.
  split; [done|]. split; [done|]. split; [done|]. split; [done|].
  split; [done|]. split; [done|]. simpl. rewrite Hst.
  destruct (Z.leb_spec (failureThreshold (breaker w)) (failureCount (breaker w) + 1)),
    (Z.ltb_spec (failureCount (breaker w) + 1) (failureThreshold (breaker w)));
    try done; lia.
Qed.

(** Failing calls on a closed breaker, with any time between them:
    each call reaches its operation and is counted, as long as the
    count stays within the threshold. *)
Lemma failures_accumulate (events : list (BreakerEvent T)) (per : nat) w :
  failingCalls per events ->
  state (breaker w) = CLOSED ->
  failureCount (breaker w) < failureThreshold (breaker w) ->
  failureCount (breaker w) + Z.of_nat (callCount events)
  <= failureThreshold (breaker w) ->
  let wn := runBreaker events w in
  failureCount (breaker wn)
  = failureCount (breaker w) + Z.of_nat (callCount events)
  /\ invoked wn = (invoked w + per * callCount events)%nat
  /\ failureThreshold (breaker wn) = failureThreshold (breaker w)
  /\ recoveryTimeout (breaker wn) = recoveryTimeout (breaker w)
  /\ state (breaker wn)
     = (if failureCount (breaker wn) <? failureThreshold (breaker w)
        then CLOSED else OPEN).
Proof.
  intros Hall Hst Hlt. unfold runBreaker, callCount, failingCalls in *.
  induction events as [|e events IH] using rev_ind; simpl; intros Hle.
  - rewrite Z.add_0_r, Nat.mul_0_r, Nat.add_0_r.
    destruct (Z.ltb_spec (failureCount (breaker w)) (failureThreshold (breaker w)));
      [done | lia].
  - apply Forall_app in Hall as [Hall He]. rewrite Forall_singleton in He.
    rewrite filter_app, length_app in Hle |- *. rewrite fold_left_app.
    simpl. set (wn := fold_left stepBreaker events w) in *.
    destruct e as [ms|fn]; simpl in *.
    + rewrite Nat.add_0_r in *. by apply IH.
    + destruct (IH Hall ltac:(lia)) as (Hcn & Hin & Htn & Hrn & Hsn).
      assert (state (breaker wn) = CLOSED) as Hst'.
      { rewrite Hsn, Hcn.
        destruct (Z.ltb_spec
                    (failureCount (breaker w)
                     + Z.of_nat (length (filter (fun e => isCall e = true) events)))
                    (failureThreshold (breaker w))); [done | lia]. }
      destruct (closed_failure_step fn per wn He Hst' ltac:(lia))
        as (_ & Hc1 & Hi1 & Ht1 & Hr1 & _ & Hs1).
      rewrite Hc1, Hi1, Ht1, Hr1, Hs1, Hc1, Htn, Hcn, Hin, Hrn.
      repeat split; lia.
Qed.

(** An open breaker blocks inside the recovery time and lets through
    after it. *)
Lemma opened_blocks_then_probes w :
  state (breaker w) = OPEN -> lastFailureTime (breaker w) = clock w ->
  (forall fn ms,
     0 <= ms <= recoveryTimeout (breaker w) ->
     CircuitBreaker.call fn (elapse ms w)
     = (Err CircuitBreaker.breakerOpen, elapse ms w))
  /\ (forall fn ms,
        recoveryTimeout (breaker w) < ms -> keepsBreaker fn ->
        CircuitBreaker.call fn (elapse ms w)
        = (let r := fn (setBreaker (CircuitBreaker.withState HALF_OPEN
                                       (breaker w)) (elapse ms w)) in
           (fst r,
            setBreaker
              (if isOk (fst r)
               then CircuitBreaker.onSuccess
                      (CircuitBreaker.withState HALF_OPEN (breaker w))
               else CircuitBreaker.onFailure (clock (snd r))
                      (CircuitBreaker.withState HALF_OPEN (breaker w)))
              (snd r)))).
Proof.
  intros Hopen Hl. split.
  - intros fn ms Hms.
    unfold CircuitBreaker.call, CircuitBreaker.gate. simpl.
    rewrite Hopen, Hl.
    destruct (Z.ltb_spec (recoveryTimeout (breaker w))
                (clock w + Z.max 0 ms - clock w)); [lia | done].
  - intros fn ms Hms Hk.
    assert (CircuitBreaker.gate (clock (elapse ms w)) (breaker (elapse ms w))
            = inl (CircuitBreaker.withState HALF_OPEN (breaker w))) as Hg.
    { unfold CircuitBreaker.gate. simpl. rewrite Hopen, Hl.
      destruct (Z.ltb_spec (recoveryTimeout (breaker w))
                  (clock w + Z.max 0 ms - clock w)); [done | lia]. }
    by rewrite (call_through fn (elapse ms w) _ Hk Hg).
Qed.
End ThresholdFacts.

(** On a new breaker with a threshold of at least 1, failing calls are
    let through and counted, whatever time passes between them: no
    failure is forgotten with time. The breaker stays closed below the
    threshold; the failing call that reaches it opens the breaker.
    Once open it blocks every call made within the recovery time of
    that failure, whatever the operation, and lets through the first
    call made after it, as a probe: a failed probe leaves the breaker
    open, a successful one closes it. *)
Theorem breaker_opens_at_threshold {T : Type}
    (failureThreshold0 recoveryTimeout0 : Z) (per : nat)
    (events : list (BreakerEvent T)) (fn : Async T) (w : World) :
  0 <= recoveryTimeout0 ->
  breaker w = CircuitBreaker.new failureThreshold0 recoveryTimeout0 ->
  failingCalls per events -> alwaysFails per fn ->
  Z.of_nat (callCount events) + 1 <= failureThreshold0 ->
  let wn := runBreaker events w in
  let wo := snd (CircuitBreaker.call fn wn) in
  failureCount (breaker wn) = Z.of_nat (callCount events)
  /\ invoked wn = (invoked w + per * callCount events)%nat
  /\ state (breaker wn) = CLOSED
  /\ invoked wo = (invoked wn + per)%nat
  /\ failureCount (breaker wo) = Z.of_nat (callCount events) + 1
  /\ (Z.of_nat (callCount events) + 1 < failureThreshold0 ->
      state (breaker wo) = CLOSED)
  /\ (Z.of_nat (callCount events) + 1 = failureThreshold0 ->
      state (breaker wo) = OPEN
      /\ (forall (fn' : Async T) ms,
            0 <= ms <= recoveryTimeout0 ->
            CircuitBreaker.call fn' (elapse ms wo)
            = (Err CircuitBreaker.breakerOpen, elapse ms wo))
      /\ (forall (fn' : Async T) ms,
            recoveryTimeout0 < ms -> keepsBreaker fn' ->
            let res := CircuitBreaker.call fn' (elapse ms wo) in
            exists w1,
              clock w1 = clock wo + ms /\ invoked w1 = invoked wo
              /\ fst res = fst (fn' w1)
              /\ invoked (snd res) = invoked (snd (fn' w1))
              /\ state (breaker (snd res))
                 = (if isOk (fst res) then CLOSED else OPEN))).
Proof.
  intros Hrec Hnew Hall Hfn Hn wn wo.
  destruct (failures_accumulate events per w Hall)
    as (Hcn & Hin & Htn & Hrn & Hsn).
  { by rewrite Hnew. }
  { rewrite Hnew. simpl. lia. }
  { rewrite Hnew. simpl. lia. }
  fold wn in Hcn, Hin, Htn, Hrn, Hsn.
  rewrite Hnew in Hcn, Htn, Hrn, Hsn. simpl in Hcn, Htn, Hrn, Hsn.
  rewrite Z.add_0_l in Hcn.
  assert (state (breaker wn) = CLOSED) as Hclosed.
  { rewrite Hsn, Hcn.
    destruct (Z.ltb_spec (Z.of_nat (callCount events)) failureThreshold0);
      [done | lia]. }
  destruct (closed_failure_step fn per wn Hfn Hclosed ltac:(lia))
    as (_ & Hc1 & Hi1 & Ht1 & Hr1 & Hl1 & Hs1).
  fold wo in Hc1, Hi1, Ht1, Hr1, Hl1, Hs1.
  rewrite Htn, Hc1, Hcn in Hs1. rewrite Hcn in Hc1. rewrite Htn in Ht1.
  rewrite Hrn in Hr1.
  split; [done|]. split; [done|]. split; [done|]. split; [done|].
  split; [done|]. split.
  { intros Hlt. rewrite Hs1.
    destruct (Z.ltb_spec (Z.of_nat (callCount events) + 1) failureThreshold0);
      [done | lia]. }
  intros Heq.
  assert (state (breaker wo) = OPEN) as Hopen.
  { rewrite Hs1.
    destruct (Z.ltb_spec (Z.of_nat (callCount events) + 1) failureThreshold0);
      [lia | done]. }
  destruct (opened_blocks_then_probes (T := T) wo Hopen Hl1) as [Hblock Hprobe].
  rewrite Hr1 in Hblock, Hprobe.
  split; [done|]. split; [exact Hblock|].
  intros fn' ms Hms Hk res. subst res. rewrite (Hprobe fn' ms Hms Hk).
  cbv zeta. cbn [fst snd].
  set (w1 := setBreaker (CircuitBreaker.withState HALF_OPEN (breaker wo))
               (elapse ms wo)).
  exists w1. split; [subst w1; simpl; lia|]. split; [done|].
  split; [done|]. split; [done|].
  destruct (isOk (fst (fn' w1))); simpl; [done|].
  rewrite Ht1, Hc1.
  destruct (Z.leb_spec failureThreshold0 (Z.of_nat (callCount events) + 1 + 1));
    [done | lia].
Qed.

Lemma breaker_opens_at_threshold_witness :
  let always := scripted (fun _ => @Err nat notFound) (fun _ => 5) in
  let events := [Call always; Elapse 90000; Call always; Call always;
                 Elapse 90000; Call always] in
  let wo := snd (CircuitBreaker.call always
                   (runBreaker events (WeatherApiService.newWorld 0))) in
  state (breaker wo) = OPEN
  /\ CircuitBreaker.call failsThrice (elapse 60000 wo)
     = (Err CircuitBreaker.breakerOpen, elapse 60000 wo).
Proof.
  intros always events wo.
  assert (0 <= 60000) as H2 by lia.
  assert (alwaysFails 1 always) as Hf.
  { split; [intros w'; reflexivity|].
    split; [intros w'; reflexivity|]. intros w'. simpl. lia. }
  assert (failingCalls 1 events) as Hall
    by (repeat constructor; apply Hf).
  assert (Z.of_nat (callCount events) + 1 = 5) as H5 by reflexivity.
  assert (Z.of_nat (callCount events) + 1 <= 5) as H5' by (rewrite H5; lia).
  destruct (breaker_opens_at_threshold 5 60000 1 events always
              (WeatherApiService.newWorld 0) H2 eq_refl Hall Hf H5')
    as (_ & _ & _ & _ & _ & _ & Hopen).
  destruct (Hopen H5) as (Hst & Hblock & _).
  split; [exact Hst|]. apply Hblock. lia.
Defined.

(** ** The time the retry loop takes *)

(** A delay within the range of the timer is waited for as it is; a
    delay above the range is not. *)
Lemma timerDelay_in_range (delay : Z) :
  1 <= delay <= TIMEOUT_MAX -> timerDelay delay = delay.
Proof.
  intros Hr. unfold timerDelay.
  destruct (Z.ltb_spec delay 1); [lia|].
  destruct (Z.ltb_spec TIMEOUT_MAX delay); [lia | done].
Qed.

Example delay_above_range_is_one_millisecond :
  clock (sleep (TIMEOUT_MAX + 1) (WeatherApiService.newWorld 0)) = 1.
Proof. reflexivity. Qed.

Section RetryTiming.
Context {T : Type}.
Variable jitter : nat -> Z.
Implicit Types (fn : Async T) (w : World).

(** From attempt [a] on: one draw and one wait per retry, the wait
    after attempt [i] being [b * 2 ^ i] and the jitter, as long as the
    waits are within the range of the timer. *)
Lemma retryLoop_timing fn m b d J (n : nat) a w :
  counted fn -> keepsDraws fn -> takesAtMost d fn ->
  1 <= b -> (forall i, 0 <= jitter i <= J) ->
  (forall i, 0 <= i < m -> b * 2 ^ i + J <= TIMEOUT_MAX) ->
  0 <= a <= m -> Z.to_nat (m - a) = n ->
  let res := retryLoop jitter fn m b a w in
  let k := Z.of_nat (invoked (snd res) - invoked w) in
  drawn (snd res) = (drawn w + (invoked (snd res) - invoked w - 1))%nat
  /\ clock w + b * (2 ^ (a + k - 1) - 2 ^ a) <= clock (snd res)
  /\ clock (snd res)
     <= clock w + k * d + b * (2 ^ (a + k - 1) - 2 ^ a) + (k - 1) * J.
Proof.
  intros Hc Hd Ht Hb Hj Hrange. revert a w.
  induction n as [|n IH]; intros a w Ha Hn; cbv zeta;
    rewrite retryLoop_turn, decide_True by lia;
    pose proof (Hc w) as Hi; pose proof (Hd w) as Hdr; pose proof (Ht w) as Hcl;
    destruct (fn w) as [[v|e] w1]; cbn [fst snd] in *.
  - rewrite Hi, Hdr.
    replace (S (invoked w) - invoked w)%nat with 1%nat by lia.
    replace (a + Z.of_nat 1 - 1) with a by lia. rewrite Z.sub_diag. lia.
  - rewrite decide_True by lia. cbn [snd]. rewrite Hi, Hdr.
    replace (S (invoked w) - invoked w)%nat with 1%nat by lia.
    replace (a + Z.of_nat 1 - 1) with a by lia. rewrite Z.sub_diag. lia.
  - rewrite Hi, Hdr.
    replace (S (invoked w) - invoked w)%nat with 1%nat by lia.
    replace (a + Z.of_nat 1 - 1) with a by lia. rewrite Z.sub_diag. lia.
  - destruct (decide (a = m)) as [->|Hne]; [lia|].
    set (w2 := sleep (b * 2 ^ a + jitter (drawn w1)) (draw w1)).
    pose proof (IH (a + 1) w2 ltac:(lia) ltac:(lia)) as (Hdraw & Hlo & Hhi).
    pose proof (retryLoop_invocations jitter fn m b n (a + 1) w2 Hc
                  ltac:(lia) ltac:(lia)) as Hinv.
    set (res := retryLoop jitter fn m b (a + 1) w2) in *.
    assert (invoked w2 = S (invoked w)) as Hi2 by (subst w2; simpl; lia).
    assert (drawn w2 = S (drawn w)) as Hd2 by (subst w2; simpl; lia).
    pose proof (Hj (drawn w1)) as Hj1.
    pose proof (Hrange a ltac:(lia)) as Hra.
    assert (0 < 2 ^ a) as Hpow by (apply Z.pow_pos_nonneg; lia).
    assert (1 <= b * 2 ^ a) as Hone by nia.
    assert (clock w2 = clock w1 + (b * 2 ^ a + jitter (drawn w1))) as Hc2.
    { subst w2. simpl. rewrite timerDelay_in_range by lia. done. }
    clearbody w2 res. rewrite Hi2, Hd2 in *.
    set (k' := Z.of_nat (invoked (snd res) - S (invoked w))) in *.
    replace (Z.of_nat (invoked (snd res) - invoked w)) with (k' + 1)
      by (subst k'; lia).
    replace (a + (k' + 1) - 1) with (a + 1 + k' - 1) by lia.
    replace (2 ^ (a + 1)) with (2 * 2 ^ a) in Hlo, Hhi
      by (rewrite Z.pow_add_r; lia).
    assert (1 <= k') as Hk by (subst k'; lia).
    set (E := 2 ^ (a + 1 + k' - 1)) in *. set (P := 2 ^ a) in *.
    rewrite Z.mul_sub_distr_l in *.
    rewrite (Z.mul_assoc b 2 P), (Z.mul_comm b 2), <- (Z.mul_assoc 2 b P) in Hlo, Hhi.
    set (X := b * E) in *. set (Y := b * P) in *.
    split; [lia|]. split; [lia|]. nia.
Qed.
End RetryTiming.

(** [retryWithBackoff] on an operation that takes between 0 and [d] ms
    a run and draws no random number, with a base delay of at least
    1 ms and jitter between 0 and [J], all waits being within the range
    of the timer ([baseDelay * 2 ^ i + J] at most [2 ^ 31 - 1] for every
    retry [i]): after [k] runs of the operation it has drawn [k - 1]
    random numbers and waited [k - 1] times; the waits double from
    [baseDelay] on, so the whole takes at least
    [baseDelay * (2 ^ (k - 1) - 1)] and at most that much and
    [k * d + (k - 1) * J] more. *)
Theorem retry_waits_double {T : Type} (jitter : nat -> Z)
    (fn : Async T) (maxRetries baseDelay d J : Z) (w : World) :
  counted fn -> keepsDraws fn -> takesAtMost d fn ->
  0 <= maxRetries -> 1 <= baseDelay -> (forall i, 0 <= jitter i <= J) ->
  (forall i, 0 <= i < maxRetries -> baseDelay * 2 ^ i + J <= TIMEOUT_MAX) ->
  let res := retryWithBackoff jitter fn maxRetries baseDelay w in
  let k := Z.of_nat (invoked (snd res) - invoked w) in
  1 <= k <= maxRetries + 1
  /\ drawn (snd res) = (drawn w + (invoked (snd res) - invoked w - 1))%nat
  /\ clock w + baseDelay * (2 ^ (k - 1) - 1) <= clock (snd res)
  /\ clock (snd res)
     <= clock w + k * d + baseDelay * (2 ^ (k - 1) - 1) + (k - 1) * J.
Proof.
  intros Hc Hd Ht Hm Hb Hj Hrange res k.
  pose proof (retryLoop_invocations jitter fn maxRetries baseDelay
                (Z.to_nat maxRetries) 0 w Hc Hm ltac:(f_equal; lia)) as Hinv.
  pose proof (retryLoop_timing jitter fn maxRetries baseDelay d J
                (Z.to_nat maxRetries) 0 w Hc Hd Ht Hb Hj Hrange ltac:(lia)
                ltac:(f_equal; lia)) as (Hdraw & Hlo & Hhi).
  unfold retryWithBackoff in res. fold res in Hinv, Hdraw, Hlo, Hhi.
  fold k in Hlo, Hhi. rewrite Z.add_0_l, Z.pow_0_r in Hlo, Hhi.
  split; [subst k; lia|]. done.
Qed.

Lemma retry_waits_double_witness :
  let res := retryWithBackoff noJitter failsThrice 3 1000
               (WeatherApiService.newWorld 0) in
  drawn (snd res) = 3%nat /\ 7000 <= clock (snd res) <= 7020.
Proof.
  intros res.
  assert (counted failsThrice) as Hc by (intros w; reflexivity).
  assert (keepsDraws failsThrice) as Hd by (intros w; reflexivity).
  assert (takesAtMost 5 failsThrice) as Ht by (intros w; simpl; lia).
  assert (0 <= 3) as H3 by lia. assert (1 <= 1000) as Hb by lia.
  assert (forall i, 0 <= noJitter i <= 0) as Hj
    by (intros i; unfold noJitter; lia).
  assert (forall i, 0 <= i < 3 -> 1000 * 2 ^ i + 0 <= TIMEOUT_MAX) as Hrange.
  { intros i Hi. assert (i = 0 \/ i = 1 \/ i = 2) as [E|[E|E]] by lia;
      subst i; unfold TIMEOUT_MAX; simpl; lia. }
  destruct (retry_waits_double noJitter failsThrice 3 1000 5 0
              (WeatherApiService.newWorld 0) Hc Hd Ht H3 Hb Hj Hrange)
    as (_ & Hdraw & Hlo & Hhi).
  fold res in Hdraw, Hlo, Hhi.
  assert (invoked (snd res) = 4%nat) as Hi by reflexivity.
  rewrite Hi in Hdraw, Hlo, Hhi. simpl in Hdraw, Hlo, Hhi.
  split; [exact Hdraw | split; [exact Hlo | exact Hhi]].
Defined.

(** ** The time a call of the service takes *)

Section ServiceTiming.
Context {Payload WeatherData : Type}.
Variable transformWeatherData : Payload -> Z -> WeatherData + string.
Variable network : JsString -> nat -> NetReply Payload.
Variable jitter : nat -> Z.

Local Abbreviation attempt :=
  (WeatherApiService.attempt transformWeatherData network).

Lemma attempt_keepsDraws city : keepsDraws (attempt city).
Proof. intros w. apply attempt_world. Qed.

(** The timer cuts every attempt at [REQUEST_TIMEOUT]. *)
Lemma attempt_takesAtMost city :
  (forall c i, 0 <= replyLatency (network c i)) ->
  takesAtMost REQUEST_TIMEOUT (attempt city).
Proof.
  intros Hlat w. pose proof (Hlat city (invoked w)) as Hl.
  unfold WeatherApiService.attempt, withTimeout.
  change (timerDelay REQUEST_TIMEOUT) with REQUEST_TIMEOUT.
  unfold WeatherApiService.fetchWeatherData, WeatherApiService.rawFetch,
    REQUEST_TIMEOUT in *. simpl.
  destruct (reply (network city (invoked w))) as [e|[o st [[|m [p|]]|]]];
    simpl; try destruct o; simpl;
    try destruct (transformWeatherData _ _); simpl;
    destruct (Z.ltb_spec 10000
                (clock w + replyLatency (network city (invoked w)) - clock w));
    simpl; lia.
Qed.

(** The guarded fetch either is blocked by the breaker, or is the
    retry loop as far as clock, fetches and draws go. *)
Lemma guardedFetch_world city w :
  WeatherApiService.guardedFetch transformWeatherData network jitter city w
  = (Err CircuitBreaker.breakerOpen, w)
  \/ exists w0,
       clock w0 = clock w /\ invoked w0 = invoked w /\ drawn w0 = drawn w
       /\ let res := WeatherApiService.guardedFetch transformWeatherData
                       network jitter city w in
          let r := retryWithBackoff jitter (attempt city) 3 1000 w0 in
          fst res = fst r
          /\ clock (snd res) = clock (snd r)
          /\ invoked (snd res) = invoked (snd r)
          /\ drawn (snd res) = drawn (snd r).
Proof.
  unfold WeatherApiService.guardedFetch.
  destruct (CircuitBreaker.gate (clock w) (breaker w)) as [b1|e] eqn:Hg.
  - right. exists (setBreaker b1 w).
    split; [done|]. split; [done|]. split; [done|].
    cbv zeta. unfold retryWithBackoff.
    rewrite (call_through (retryLoop jitter (attempt city) 3 1000 0) w b1
               (fun w' => retryLoop_keepsBreaker jitter (attempt city)
                            3 1000 4 0 w' (attempt_keepsBreaker
                              transformWeatherData network city) eq_refl) Hg).
    done.
  - left. unfold CircuitBreaker.call. rewrite Hg.
    unfold CircuitBreaker.gate in Hg.
    destruct (state (breaker w)); try done.
    destruct (_ <? _); [done|]. by inversion Hg.
Qed.
End ServiceTiming.

(** On a network whose answers take no negative time, with jitter
    between 0 and 1000 ms, a call of [fetchWeather] makes at most four
    fetches and draws one random number less than it makes fetches.
    When it makes none (invalid city, or breaker open) it fails in no
    time with the world untouched; when it makes [k] it takes at least
    [1000 * (2 ^ (k - 1) - 1)] ms, the waits of the retry loop, and at
    most [10000 * k + 1000 * (k - 1)] ms more. In any case it settles
    within 50 seconds. *)
Theorem fetchWeather_settles_within_50s {Payload WeatherData : Type}
    (transformWeatherData : Payload -> Z -> WeatherData + string)
    (network : JsString -> nat -> NetReply Payload) (jitter : nat -> Z)
    (city : JsString) (s : WeatherApiService.t) (w : World) :
  (forall c i, 0 <= replyLatency (network c i)) ->
  (forall i, 0 <= jitter i <= 1000) ->
  let res := WeatherApiService.fetchWeather transformWeatherData network
               jitter city s w in
  let k := Z.of_nat (invoked (snd res) - invoked w) in
  0 <= k <= 4
  /\ drawn (snd res) = (drawn w + (invoked (snd res) - invoked w - 1))%nat
  /\ (k = 0 -> snd res = w /\ isOk (fst (fst res)) = false)
  /\ (1 <= k ->
      clock w + 1000 * (2 ^ (k - 1) - 1) <= clock (snd res)
      /\ clock (snd res)
         <= clock w + 10000 * k + 1000 * (2 ^ (k - 1) - 1) + 1000 * (k - 1))
  /\ clock w <= clock (snd res) <= clock w + 50000.
Proof.
  intros Hlat Hj res k. subst k res.
  unfold WeatherApiService.fetchWeather.
  destruct (WeatherApiService.validateCityName city) as [[]|e]; cbn [fst snd].
  2: { replace (invoked w - invoked w)%nat with 0%nat by lia. simpl.
       repeat split; try lia. }
  destruct (guardedFetch_world transformWeatherData network jitter city w)
    as [Hblocked|(w0 & Hc0 & Hi0 & Hd0 & Hres)].
  { rewrite Hblocked. cbn [fst snd].
    replace (invoked w - invoked w)%nat with 0%nat by lia. simpl.
    repeat split; try lia. }
  cbv zeta in Hres. destruct Hres as (Hr & Hc & Hi & Hd).
  destruct (WeatherApiService.guardedFetch transformWeatherData network
              jitter city w) as [r w'] eqn:Eg. cbn [fst snd] in *.
  assert (forall i, 0 <= i < 3 -> 1000 * 2 ^ i + 1000 <= TIMEOUT_MAX)
    as Hrange.
  { intros i Hin. assert (i = 0 \/ i = 1 \/ i = 2) as [E|[E|E]] by lia;
      subst i; unfold TIMEOUT_MAX; simpl; lia. }
  pose proof (retryLoop_invocations jitter
                (WeatherApiService.attempt transformWeatherData network city)
                3 1000 3 0 w0
                (attempt_counted transformWeatherData network city)
                ltac:(lia) eq_refl) as Hinv.
  pose proof (retryLoop_timing jitter
                (WeatherApiService.attempt transformWeatherData network city)
                3 1000 REQUEST_TIMEOUT 1000 3 0 w0
                (attempt_counted transformWeatherData network city)
                (attempt_keepsDraws transformWeatherData network city)
                (attempt_takesAtMost transformWeatherData network city Hlat)
                ltac:(lia) Hj Hrange ltac:(lia) eq_refl)
    as (Hdraw & Hlo & Hhi).
  unfold retryWithBackoff in Hc, Hi, Hd.
  rewrite <- Hc, <- Hi, Hc0, Hi0 in Hlo, Hhi.
  rewrite <- Hi, <- Hd, Hi0, Hd0 in Hdraw.
  rewrite <- Hi, Hi0 in Hinv.
  unfold REQUEST_TIMEOUT in Hhi.
  set (k := Z.of_nat (invoked w' - invoked w)) in *.
  assert (1 <= k <= 4) as Hk by (subst k; lia).
  rewrite Z.add_0_l, Z.pow_0_r in Hlo, Hhi.
  assert (k = 1 \/ k = 2 \/ k = 3 \/ k = 4) as Hcases by lia.
  split; [lia|]. split; [exact Hdraw|]. split; [lia|].
  split; [intros _; lia|].
  destruct Hcases as [E|[E|[E|E]]]; rewrite E in Hlo, Hhi;
    simpl in Hlo, Hhi; lia.
Qed.

Lemma fetchWeather_settles_within_50s_witness :
  let res := WeatherApiService.fetchWeather stamp slowThenFine noJitter
               paris WeatherApiService.new (WeatherApiService.newWorld 0) in
  invoked (snd res) = 2%nat
  /\ 1000 <= clock (snd res) <= 21000.
Proof.
  intros res.
  assert (forall c i, 0 <= replyLatency (slowThenFine c i)) as Hlat.
  { intros c i. unfold slowThenFine. simpl. destruct (i =? 0)%nat; lia. }
  assert (forall i, 0 <= noJitter i <= 1000) as Hj
    by (intros i; unfold noJitter; lia).
  destruct (fetchWeather_settles_within_50s stamp slowThenFine noJitter
              paris WeatherApiService.new (WeatherApiService.newWorld 0)
              Hlat Hj) as (_ & _ & _ & Hk & _).
  fold res in Hk.
  assert (invoked (snd res) = 2%nat) as Hi by reflexivity.
  rewrite Hi in Hk. simpl in Hk.
  split; [exact Hi|]. apply Hk. lia.
Defined.

(** ** One attempt, and the service over many calls *)



Section ServiceRunFacts.
Context {Payload WeatherData : Type}.
Variable transformWeatherData : Payload -> Z -> WeatherData + string.
Variable network : JsString -> nat -> NetReply Payload.
Variable jitter : nat -> Z.

Local Abbreviation attempt :=
  (WeatherApiService.attempt transformWeatherData network).
Local Abbreviation fetchWeather :=
  (WeatherApiService.fetchWeather transformWeatherData network jitter).
Local Abbreviation guardedFetch :=
  (WeatherApiService.guardedFetch transformWeatherData network jitter).
Local Abbreviation stepService :=
  (stepService transformWeatherData network jitter).
Local Abbreviation runService :=
  (runService transformWeatherData network jitter).

Lemma count_one_request (c : ServiceCall) :
  length (filter isRequest [c]) = if isRequest c then 1%nat else 0%nat.
Proof. rewrite filter_cons, filter_nil. by destruct (isRequest c). Qed.

(** A call that is no request leaves the world, but for the time a
    wait takes; a request goes through the guarded fetch with a new
    controller. *)
Lemma stepService_cases s w c :
  stepService (s, w) c
  = match requestedCity c with
    | Some city =>
        if isRequest c
        then (WeatherApiService.newController
                (WeatherApiService.cancelRequests s),
              snd (guardedFetch city w))
        else (s, w)
    | None =>
        match c with
        | Wait ms => (s, elapse ms w)
        | CancelRequests => (WeatherApiService.cancelRequests s, w)
        | _ => (s, w)
        end
    end.
Proof.
  destruct c as [ms|city| |]; try done;
    unfold stepService, isRequest, requestedCity, healthCheck,
      WeatherApiService.fetchWeather.
  - destruct (WeatherApiService.validateCityName city) as [[]|e]; [|done].
    by destruct (guardedFetch city w).
  - destruct (WeatherApiService.validateCityName (jsString "London"))
      as [[]|e]; [|done].
    by destruct (guardedFetch (jsString "London") w).
Qed.

Lemma runService_snoc calls c sw :
  runService (calls ++ [c]) sw = stepService (runService calls sw) c.
Proof. unfold runService. by rewrite fold_left_app. Qed.

(** On a network that is down every attempt fails, so the retry loop
    makes its four attempts and fails. *)
Lemma attempt_fails_when_down city w :
  down network -> isOk (fst (attempt city w)) = false.
Proof.
  intros Hdown. pose proof (Hdown city (invoked w)) as Hr.
  unfold WeatherApiService.attempt, withTimeout.
  change (timerDelay REQUEST_TIMEOUT) with REQUEST_TIMEOUT.
  unfold WeatherApiService.fetchWeatherData, WeatherApiService.rawFetch. simpl.
  destruct (reply (network city (invoked w))) as [e|[o st b]]; simpl in *.
  - by destruct (_ <? _).
  - subst o. simpl. by destruct (_ <? _).
Qed.

Lemma retry_fails_when_down city :
  down network ->
  alwaysFails 4 (retryWithBackoff jitter (attempt city) 3 1000).
Proof.
  intros Hdown. split; [|split].
  - intros w. exact (retryLoop_keepsBreaker jitter (attempt city) 3 1000 4 0 w
                       (attempt_keepsBreaker transformWeatherData network city)
                       eq_refl).
  - intros w.
    destruct (retryLoop_all_fail jitter (attempt city) 3 1000 3 0 w
                (attempt_counted transformWeatherData network city)
                ltac:(lia) eq_refl) as (w1 & _ & Hres).
    { intros i _ w' _. by apply attempt_fails_when_down. }
    unfold retryWithBackoff. rewrite Hres. by apply attempt_fails_when_down.
  - intros w.
    destruct (retryLoop_all_fail jitter (attempt city) 3 1000 3 0 w
                (attempt_counted transformWeatherData network city)
                ltac:(lia) eq_refl) as (w1 & Hw1 & Hres).
    { intros i _ w' _. by apply attempt_fails_when_down. }
    unfold retryWithBackoff. rewrite Hres.
    rewrite (attempt_counted transformWeatherData network city w1). lia.
Qed.

(** Failed requests on a closed breaker with the default threshold,
    with waits, cancellations and rejected calls between them. *)
Lemma failed_requests_accumulate calls s w :
  down network ->
  state (breaker w) = CLOSED ->
  failureCount (breaker w) < failureThreshold (breaker w) ->
  failureCount (breaker w) + Z.of_nat (length (filter isRequest calls))
  <= failureThreshold (breaker w) ->
  let wn := snd (runService calls (s, w)) in
  failureCount (breaker wn)
  = failureCount (breaker w) + Z.of_nat (length (filter isRequest calls))
  /\ invoked wn = (invoked w + 4 * length (filter isRequest calls))%nat
  /\ failureThreshold (breaker wn) = failureThreshold (breaker w)
  /\ recoveryTimeout (breaker wn) = recoveryTimeout (breaker w)
  /\ state (breaker wn)
     = (if failureCount (breaker wn) <? failureThreshold (breaker w)
        then CLOSED else OPEN).
Proof.
  intros Hdown Hst Hlt.
  induction calls as [|c calls IH] using rev_ind; intros Hle.
  - simpl. rewrite Z.add_0_r, Nat.add_0_r.
    destruct (Z.ltb_spec (failureCount (breaker w)) (failureThreshold (breaker w)));
      [done | lia].
  - rewrite filter_app, length_app in Hle |- *. rewrite runService_snoc.
    destruct (runService calls (s, w)) as [sn wn] eqn:Erun. cbn [snd] in IH.
    rewrite stepService_cases.
    assert (isRequest c = false ->
            failureCount (breaker wn)
            = failureCount (breaker w)
              + Z.of_nat (length (filter isRequest calls) + 0)
            /\ invoked wn
               = (invoked w + 4 * (length (filter isRequest calls) + 0))%nat
            /\ failureThreshold (breaker wn) = failureThreshold (breaker w)
            /\ recoveryTimeout (breaker wn) = recoveryTimeout (breaker w)
            /\ state (breaker wn)
               = (if failureCount (breaker wn) <? failureThreshold (breaker w)
                  then CLOSED else OPEN)) as Hidle.
    { intros Hno. rewrite Nat.add_0_r. apply IH. lia. }
    rewrite count_one_request in Hle |- *.
    destruct (requestedCity c) as [city|] eqn:Ec.
    + destruct (isRequest c) eqn:Er.
      * destruct IH as (Hcn & Hin & Htn & Hrn & Hsn); [lia|].
        assert (state (breaker wn) = CLOSED) as Hst'.
        { rewrite Hsn, Hcn.
          destruct (Z.ltb_spec
                      (failureCount (breaker w)
                       + Z.of_nat (length (filter isRequest calls)))
                      (failureThreshold (breaker w))); [done | lia]. }
        destruct (closed_failure_step
                    (retryWithBackoff jitter (attempt city) 3 1000) 4 wn
                    (retry_fails_when_down city Hdown) Hst' ltac:(lia))
          as (_ & Hc1 & Hi1 & Ht1 & Hr1 & _ & Hs1).
        unfold WeatherApiService.guardedFetch. cbn [snd].
        rewrite Hc1, Hi1, Ht1, Hr1, Hs1, Hc1, Htn, Hcn, Hin, Hrn.
        repeat split; lia.
      * by apply Hidle.
    + assert (isRequest c = false) as Er by (unfold isRequest; by rewrite Ec).
      rewrite Er.
      destruct c as [ms|city| |]; try done; simpl; by apply Hidle.
Qed.

(** The controllers of the service, one step on. *)
Lemma controllers_step s w c :
  let s' := fst (stepService (s, w) c) in
  match WeatherApiService.abortController s with
  | Some a =>
      S a = WeatherApiService.controllers s
      /\ WeatherApiService.aborted s = rev (seq 0 a)
  | None =>
      WeatherApiService.aborted s = rev (seq 0 (WeatherApiService.controllers s))
  end ->
  WeatherApiService.controllers s'
  = (WeatherApiService.controllers s + (if isRequest c then 1 else 0))%nat
  /\ match WeatherApiService.abortController s' with
     | Some a =>
         S a = WeatherApiService.controllers s'
         /\ WeatherApiService.aborted s' = rev (seq 0 a)
     | None =>
         WeatherApiService.aborted s'
         = rev (seq 0 (WeatherApiService.controllers s'))
     end.
Proof.
  intros s' Hinv. subst s'. rewrite stepService_cases.
  assert (forall s1,
            s1 = WeatherApiService.cancelRequests s ->
            WeatherApiService.controllers s1 = WeatherApiService.controllers s
            /\ WeatherApiService.abortController s1 = None
            /\ WeatherApiService.aborted s1
               = rev (seq 0 (WeatherApiService.controllers s))) as Hcancel.
  { intros s1 ->. unfold WeatherApiService.cancelRequests.
    destruct (WeatherApiService.abortController s) as [a|] eqn:Ea; simpl.
    - destruct Hinv as [<- ->]. rewrite seq_S, rev_unit. done.
    - rewrite Ea. done. }
  destruct (Hcancel _ eq_refl) as (Hc & Ha & Hl).
  destruct (requestedCity c) as [city|] eqn:Ec.
  - destruct (isRequest c); cbn [fst].
    + unfold WeatherApiService.newController. simpl. rewrite Hc, Hl.
      split; [lia|]. split; [lia | done].
    + split; [lia | done].
  - assert (isRequest c = false) as -> by (unfold isRequest; by rewrite Ec).
    destruct c as [ms|city| |]; try done; cbn [fst];
      rewrite ?Hc, ?Ha, ?Hl; (split; [lia | done]).
Qed.
End ServiceRunFacts.

(** After any calls of [fetchWeather], [cancelRequests] and
    [healthCheck] on a new service, with any time between them: the
    service has made one controller for each call that passed the
    validation; the controller it holds, if any, is the last one made
    and is not aborted; every other controller made has been aborted,
    once, in the order of creation. A call with an invalid city makes
    and aborts nothing. *)
Theorem service_aborts_all_but_latest_controller
    {Payload WeatherData : Type}
    (transformWeatherData : Payload -> Z -> WeatherData + string)
    (network : JsString -> nat -> NetReply Payload) (jitter : nat -> Z)
    (calls : list ServiceCall) (w : World) :
  let s := fst (runService transformWeatherData network jitter calls
                  (WeatherApiService.new, w)) in
  WeatherApiService.controllers s = length (filter isRequest calls)
  /\ match WeatherApiService.abortController s with
     | Some a =>
         S a = WeatherApiService.controllers s
         /\ WeatherApiService.aborted s = rev (seq 0 a)
         /\ a ∉ WeatherApiService.aborted s
     | None =>
         WeatherApiService.aborted s
         = rev (seq 0 (WeatherApiService.controllers s))
     end
  /\ NoDup (WeatherApiService.aborted s).
Proof.
  intros s.
  assert (WeatherApiService.controllers s = length (filter isRequest calls)
          /\ match WeatherApiService.abortController s with
             | Some a =>
                 S a = WeatherApiService.controllers s
                 /\ WeatherApiService.aborted s = rev (seq 0 a)
             | None =>
                 WeatherApiService.aborted s
                 = rev (seq 0 (WeatherApiService.controllers s))
             end) as [Hn Hinv].
  { subst s. induction calls as [|c calls IH] using rev_ind; [done|].
    rewrite runService_snoc, filter_app, length_app.
    destruct (runService transformWeatherData network jitter calls
                (WeatherApiService.new, w)) as [sn wn].
    cbn [fst] in IH. destruct IH as [Hn Hinv].
    destruct (controllers_step transformWeatherData network jitter sn wn c Hinv)
      as [Hc Hinv'].
    split; [|done]. by rewrite Hc, Hn, count_one_request. }
  assert (forall l : list nat, rev l = reverse l) as Hrev
    by (intros l; by rewrite rev_alt).
  split; [done|].
  destruct (WeatherApiService.abortController s) as [a|].
  - destruct Hinv as [Ha Hl]. rewrite Hl, Hrev.
    split; [|rewrite reverse_Permutation; apply NoDup_seq].
    split; [done|]. split; [done|].
    rewrite elem_of_reverse, elem_of_seq. lia.
  - rewrite Hinv, Hrev. split; [done|]. rewrite reverse_Permutation. apply NoDup_seq.
Qed.

(** On a network that is down, four attempts are made for each call of
    [fetchWeather] or [healthCheck] that passes the validation, and the
    breaker counts each such call as one failure, whatever happens
    between the calls (waits, cancellations, rejected calls). The fifth
    one opens the breaker of a new service, after twenty fetches. For
    the next 60 seconds every call of [fetchWeather] fails without a
    fetch and leaves the world as it is, and [healthCheck] answers
    false; a call with a valid city fails with the breaker's error and
    still replaces the controller. *)
Theorem five_failed_requests_open_the_breaker
    {Payload WeatherData : Type}
    (transformWeatherData : Payload -> Z -> WeatherData + string)
    (network : JsString -> nat -> NetReply Payload) (jitter : nat -> Z)
    (calls : list ServiceCall) (last : ServiceCall)
    (s : WeatherApiService.t) (now : Z) :
  down network ->
  length (filter isRequest calls) = 4%nat -> isRequest last = true ->
  let sw4 := runService transformWeatherData network jitter calls
               (s, WeatherApiService.newWorld now) in
  let sw5 := stepService transformWeatherData network jitter sw4 last in
  state (breaker (snd sw4)) = CLOSED
  /\ failureCount (breaker (snd sw4)) = 4
  /\ invoked (snd sw5) = 20%nat
  /\ state (breaker (snd sw5)) = OPEN
  /\ failureCount (breaker (snd sw5)) = 5
  /\ (forall city ms,
        0 <= ms <= 60000 ->
        let res := WeatherApiService.fetchWeather transformWeatherData
                     network jitter city (fst sw5) (elapse ms (snd sw5)) in
        isOk (fst (fst res)) = false
        /\ snd res = elapse ms (snd sw5)
        /\ (WeatherApiService.validateCityName city = inl tt ->
            res = (Err CircuitBreaker.breakerOpen,
                   WeatherApiService.newController
                     (WeatherApiService.cancelRequests (fst sw5)),
                   elapse ms (snd sw5))))
  /\ (forall ms,
        0 <= ms <= 60000 ->
        fst (fst (healthCheck transformWeatherData network jitter
                    (fst sw5) (elapse ms (snd sw5)))) = false).
Proof.
  intros Hdown H4 Hlast sw4 sw5.
  destruct (failed_requests_accumulate transformWeatherData network jitter
              calls s (WeatherApiService.newWorld now) Hdown eq_refl)
    as (Hcn & Hin & Htn & Hrn & Hsn).
  { simpl. lia. }
  { rewrite H4. simpl. lia. }
  fold sw4 in Hcn, Hin, Htn, Hrn, Hsn. rewrite H4 in Hcn, Hin.
  simpl in Hcn, Hin, Htn, Hrn, Hsn. rewrite Hcn in Hsn. simpl in Hsn.
  subst sw5. destruct sw4 as [s4 w4]. cbn [fst snd] in *.
  rewrite stepService_cases.
  assert (exists city, requestedCity last = Some city) as [city Ec].
  { unfold isRequest in Hlast. destruct (requestedCity last); [eauto | done]. }
  rewrite Ec, Hlast. cbn [fst snd].
  destruct (closed_failure_step
              (retryWithBackoff jitter
                 (WeatherApiService.attempt transformWeatherData network city)
                 3 1000) 4 w4
              (retry_fails_when_down transformWeatherData network jitter city
                 Hdown) Hsn ltac:(lia))
    as (_ & Hc1 & Hi1 & Ht1 & Hr1 & Hl1 & Hs1).
  fold (WeatherApiService.guardedFetch transformWeatherData network jitter city)
    in Hc1, Hi1, Ht1, Hr1, Hl1, Hs1.
  set (w5 := snd (WeatherApiService.guardedFetch transformWeatherData network
                    jitter city w4)) in *.
  rewrite Hc1, Htn, Hcn in Hs1. simpl in Hs1.
  assert (forall c ms,
            0 <= ms <= 60000 ->
            WeatherApiService.guardedFetch transformWeatherData network jitter
              c (elapse ms w5)
            = (Err CircuitBreaker.breakerOpen, elapse ms w5)) as Hblock.
  { intros c ms Hms. apply guardedFetch_blocked; simpl; [done|].
    rewrite Hl1, Hr1, Hrn. lia. }
  split; [done|]. split; [done|]. split; [lia|]. split; [done|].
  split; [lia|]. split.
  - intros c ms Hms. cbv zeta. unfold WeatherApiService.fetchWeather.
    destruct (WeatherApiService.validateCityName c) as [[]|e]; [|done].
    rewrite (Hblock c ms Hms). done.
  - intros ms Hms. unfold healthCheck, WeatherApiService.fetchWeather.
    destruct (WeatherApiService.validateCityName (jsString "London"))
      as [[]|e]; [|done].
    rewrite (Hblock _ ms Hms). done.
Qed.

Lemma five_failed_requests_open_the_breaker_witness :
  let calls := [FetchWeather paris; Wait 5000; HealthCheck; CancelRequests;
                FetchWeather (jsString "Paris 75"); FetchWeather lyon;
                HealthCheck] in
  let sw5 := stepService stamp alwaysNotFound noJitter
               (runService stamp alwaysNotFound noJitter calls
                  (WeatherApiService.new, WeatherApiService.newWorld 0))
               (FetchWeather lyon) in
  invoked (snd sw5) = 20%nat
  /\ state (breaker (snd sw5)) = OPEN
  /\ fst (fst (healthCheck stamp alwaysNotFound noJitter
                 (fst sw5) (elapse 60000 (snd sw5)))) = false.
Proof.
  intros calls sw5.
  assert (down alwaysNotFound) as Hdown by (intros c i; reflexivity).
  assert (length (filter isRequest calls) = 4%nat) as H4 by reflexivity.
  assert (isRequest (FetchWeather lyon) = true) as Hl by reflexivity.
  destruct (five_failed_requests_open_the_breaker stamp alwaysNotFound
              noJitter calls (FetchWeather lyon) WeatherApiService.new 0
              Hdown H4 Hl) as (_ & _ & Hinv & Hst & _ & _ & Hhealth).
  split; [exact Hinv|]. split; [exact Hst|]. apply Hhealth. lia.
Defined.

(** * Further properties of the hook *)

Section HookFacts.
Context {D : Type}.
Variable toLowerCase : JsString -> JsString.
Implicit Types (h : UseWeatherData.t D).

Lemma times_bounded now h :
  (length (UseWeatherData.responseTimesRef h) <= 100)%nat ->
  (length (snd (UseWeatherData.endPerformanceTracking now h)) <= 100)%nat.
Proof.
  intros Hb. unfold UseWeatherData.endPerformanceTracking.
  destruct (UseWeatherData.performanceTrackerRef h) as [start|]; simpl; [|done].
  destruct (Nat.ltb_spec 100
              (length (UseWeatherData.responseTimesRef h ++ [now - start])));
    [|done].
  rewrite length_drop. lia.
Qed.

Lemma history_bounded now city (d : D) prev :
  NoDup (map UseWeatherData.historyCity prev) ->
  let next := UseWeatherData.updateSearchHistory now city d prev in
  (length next <= UseWeatherData.MAX_SEARCH_HISTORY)%nat
  /\ NoDup (map UseWeatherData.historyCity next).
Proof.
  intros Hnd next. subst next. unfold UseWeatherData.updateSearchHistory.
  split; [rewrite length_take; lia|].
  eapply sublist_NoDup;
    [|apply (fmap_sublist UseWeatherData.historyCity), sublist_take].
  change (NoDup (city :: map UseWeatherData.historyCity
                           (filter (fun entry =>
                                      UseWeatherData.historyCity entry <> city)
                              prev))).
  apply NoDup_cons. split.
  - intros Hin. apply (list_elem_of_fmap_1 UseWeatherData.historyCity) in Hin
      as (entry & -> & Hentry).
    apply list_elem_of_filter in Hentry as [Hne _]. done.
  - eapply sublist_NoDup; [exact Hnd|].
    apply (fmap_sublist UseWeatherData.historyCity), sublist_filter.
Qed.

Lemma cache_get_inv now (key : JsString) (m : CacheManager.t JsString D) c0 :
  StoreInv (CacheManager.cache m) -> sameConfig c0 (CacheManager.cache m) ->
  0 <= CacheManager.hitCount m -> 0 <= CacheManager.missCount m ->
  let m' := snd (CacheManager.get now key m) in
  StoreInv (CacheManager.cache m') /\ sameConfig c0 (CacheManager.cache m')
  /\ 0 <= CacheManager.hitCount m' /\ 0 <= CacheManager.missCount m'.
Proof.
  intros Hinv [Hm Ht] Hh Hmi m'. subst m'. unfold CacheManager.get.
  pose proof (inv_get (CacheManager.cache m) now key Hinv) as Hi.
  pose proof (config_step (CacheManager.cache m) (OpGet now key)) as [Hm' Ht'].
  simpl in Hm', Ht'.
  destruct (LRUCache.get now key (CacheManager.cache m)) as [[v|] c'];
    simpl in *; (split; [done|]); (split; [split; congruence|]); lia.
Qed.

Lemma cache_set_inv now (key : JsString) (d : D) (m : CacheManager.t JsString D)
    c0 :
  StoreInv (CacheManager.cache m) -> sameConfig c0 (CacheManager.cache m) ->
  let m' := CacheManager.set now key d None m in
  StoreInv (CacheManager.cache m') /\ sameConfig c0 (CacheManager.cache m').
Proof.
  intros Hinv [Hm Ht] m'. subst m'. simpl.
  split; [by apply inv_set|].
  pose proof (config_step (CacheManager.cache m) (OpSet now key d None))
    as [Hm' Ht'].
  simpl in Hm', Ht'. split; congruence.
Qed.

Lemma inv_init : HookInv (UseWeatherData.init (D := D)).
Proof.
  constructor; simpl; try apply inv_new; try done; try lia;
    try (split; discriminate); constructor.
Qed.

Lemma inv_onError now e h :
  HookInv h -> HookInv (UseWeatherData.onError now e h).
Proof.
  intros [Hs Hc Hh Hm Hl Hn Ht Hr Hi Hx].
  unfold UseWeatherData.onError.
  pose proof (times_bounded now h Ht) as Hb.
  destruct (UseWeatherData.endPerformanceTracking now h) as [tracker times].
  destruct (name e); constructor; simpl in *; done.
Qed.

Lemma inv_onData now call (d : D) h :
  HookInv h -> HookInv (UseWeatherData.onData now call d h).
Proof.
  intros [Hs Hc Hh Hm Hl Hn Ht Hr Hi Hx].
  unfold UseWeatherData.onData.
  pose proof (times_bounded now h Ht) as Hb.
  destruct (UseWeatherData.endPerformanceTracking now h) as [tracker times].
  destruct (cache_set_inv now (UseWeatherData.normalizedCity call) d
              (UseWeatherData.cacheRef h) _ Hs Hc) as [Hs' Hc'].
  destruct (history_bounded now (UseWeatherData.cityName call) d
              (UseWeatherData.searchHistory h) Hn) as [Hl' Hn'].
  constructor; simpl in *; try done.
  by apply hit_rate_in_unit_interval.
Qed.

Lemma inv_settle now rid r h :
  HookInv h -> HookInv (UseWeatherData.settle now rid r h).
Proof.
  intros Hinv. unfold UseWeatherData.settle.
  destruct (filter (fun c => UseWeatherData.requestId c = rid)
              (UseWeatherData.suspended h)) as [|call rest]; [done|].
  assert (HookInv
            (UseWeatherData.mk (UseWeatherData.state h)
               (UseWeatherData.searchHistory h) (UseWeatherData.cacheRef h)
               (UseWeatherData.performanceTrackerRef h)
               (UseWeatherData.responseTimesRef h)
               (UseWeatherData.abortControllerRef h)
               (UseWeatherData.hookControllers h)
               (UseWeatherData.hookAborted h) (UseWeatherData.service h)
               (filter (fun c => UseWeatherData.requestId c <> rid)
                  (UseWeatherData.suspended h))
               (UseWeatherData.nextRequest h))) as Hinv1.
  { destruct Hinv as [Hs Hc Hh Hm Hl Hn Ht Hr Hi Hx].
    constructor; simpl; try done.
    - eapply sublist_NoDup; [exact Hi|].
      apply (fmap_sublist UseWeatherData.requestId), sublist_filter.
    - rewrite Forall_forall in Hx |- *. intros c Hin.
      apply list_elem_of_filter in Hin as [_ Hin]. by apply Hx. }
  destruct r as [d|e]; [by apply inv_onData | by apply inv_onError].
Qed.

Lemma inv_resolve now city h :
  HookInv h -> HookInv (UseWeatherData.resolve toLowerCase now city h).
Proof.
  intros Hinv. unfold UseWeatherData.resolve.
  destruct (UseWeatherData.trim city) as [|c0 trimmed] eqn:Et.
  { destruct Hinv. constructor; simpl; done. }
  cbv zeta.
  destruct Hinv as [Hs Hc Hh Hm Hl Hn Ht Hr Hi Hx].
  destruct (cache_get_inv now (toLowerCase (c0 :: trimmed))
              (UseWeatherData.cacheRef h) _ Hs Hc Hh Hm)
    as (Hs' & Hc' & Hh' & Hm').
  destruct (CacheManager.get now (toLowerCase (c0 :: trimmed))
              (UseWeatherData.cacheRef h)) as [[d|] cache]; cbn [snd] in *.
  - match goal with
    | |- context [UseWeatherData.endPerformanceTracking now ?h1] =>
        pose proof (times_bounded now h1 Ht) as Hb;
        destruct (UseWeatherData.endPerformanceTracking now h1)
          as [tracker times]
    end.
    destruct (history_bounded now (c0 :: trimmed) d
                (UseWeatherData.searchHistory h) Hn) as [Hl' Hn'].
    constructor; simpl in *; try done.
    by apply hit_rate_in_unit_interval.
  - destruct (WeatherApiService.validateCityName (c0 :: trimmed)) as [[]|e].
    + constructor; simpl; try done.
      * rewrite map_app. simpl. apply NoDup_app. split; [done|].
        split; [|apply NoDup_singleton].
        intros x Hin Hx'. apply list_elem_of_singleton in Hx'. subst x.
        apply (list_elem_of_fmap_1 UseWeatherData.requestId) in Hin
          as (c & Hc1 & Hc2).
        rewrite Forall_forall in Hx. specialize (Hx c Hc2). lia.
      * apply Forall_app. split.
        -- eapply Forall_impl; [exact Hx|]. intros c Hlt. simpl in *. lia.
        -- apply Forall_singleton. simpl. lia.
    + apply inv_onError. constructor; simpl; done.
Qed.

Lemma inv_hook_run events h :
  HookInv h -> HookInv (UseWeatherData.run toLowerCase events h).
Proof.
  revert h. induction events as [|e events IH]; intros h Hinv; [done|].
  simpl. apply IH. destruct e as [now city|now rid r]; simpl.
  - by apply inv_resolve.
  - by apply inv_settle.
Qed.

(** [trim] leaves nothing exactly of the strings that are white space
    throughout. *)
Lemma trimStart_blank (s : JsString) :
  UseWeatherData.trimStart s = [] <-> Forall (fun c => isWhiteSpace c = true) s.
Proof.
  induction s as [|c s IH]; simpl; [done|].
  destruct (isWhiteSpace c) eqn:Ec.
  - rewrite IH. split; [by constructor | by inversion 1].
  - split; [done|]. inversion 1. congruence.
Qed.

Lemma trimStart_suffix (s : JsString) :
  exists blank, s = blank ++ UseWeatherData.trimStart s
                /\ Forall (fun c => isWhiteSpace c = true) blank.
Proof.
  induction s as [|c s (blank & Hs & Hb)]; simpl; [by exists []|].
  destruct (isWhiteSpace c) eqn:Ec.
  - exists (c :: blank). split; [simpl; congruence | by constructor].
  - by exists [].
Qed.

Lemma trim_blank (s : JsString) :
  UseWeatherData.trim s = [] <-> Forall (fun c => isWhiteSpace c = true) s.
Proof.
  unfold UseWeatherData.trim. split.
  - intros Ht.
    assert (UseWeatherData.trimStart (rev (UseWeatherData.trimStart s)) = [])
      as Ht' by (by rewrite <- (rev_involutive (UseWeatherData.trimStart _)), Ht).
    apply trimStart_blank in Ht'.
    destruct (trimStart_suffix s) as (blank & Hs & Hb).
    rewrite Hs. apply Forall_app. split; [done|].
    rewrite Forall_forall in Ht' |- *. intros c Hc. apply Ht'.
    rewrite rev_alt. fold (reverse (UseWeatherData.trimStart s)).
    by apply elem_of_reverse.
  - intros Hb. apply trimStart_blank in Hb. by rewrite Hb.
Qed.
End HookFacts.

(** Whatever the user does and however the requests settle, the
    buffers of the hook stay bounded: at most 10 entries in the search
    history and no city twice, at most 100 response times, at most 50
    cities in the cache, a cache hit rate between 0 and 1; and the
    calls that are suspended have pairwise different numbers. *)
Theorem hook_buffers_stay_bounded {D : Type}
    (toLowerCase : JsString -> JsString)
    (events : list (UseWeatherData.Event D)) :
  let h := UseWeatherData.run toLowerCase events UseWeatherData.init in
  (length (UseWeatherData.searchHistory h) <= 10)%nat
  /\ NoDup (map UseWeatherData.historyCity (UseWeatherData.searchHistory h))
  /\ (length (UseWeatherData.responseTimesRef h) <= 100)%nat
  /\ LRUCache.size (CacheManager.cache (UseWeatherData.cacheRef h)) <= 50
  /\ (0 <= UseWeatherData.cacheHitRate
             (UseWeatherData.metrics (UseWeatherData.state h)) <= 1)%Q
  /\ NoDup (map UseWeatherData.requestId (UseWeatherData.suspended h))
  /\ (length (UseWeatherData.suspended h) <= UseWeatherData.nextRequest h)%nat.
Proof.
  intros h.
  destruct (inv_hook_run toLowerCase events UseWeatherData.init inv_init)
    as [Hs [Hc _] Hh Hm Hl Hn Ht Hr Hi Hx].
  fold h in Hs, Hc, Hh, Hm, Hl, Hn, Ht, Hr, Hi, Hx.
  split; [done|]. split; [done|]. split; [done|]. split.
  { destruct Hs as [_ _ _ _ Hsize]. rewrite Hc in Hsize. simpl in Hsize.
    unfold UseWeatherData.MAX_CACHE_SIZE in Hsize. lia. }
  split; [done|]. split; [done|].
  rewrite <- (length_map UseWeatherData.requestId).
  assert (Forall (fun i => (i < UseWeatherData.nextRequest h)%nat)
            (map UseWeatherData.requestId (UseWeatherData.suspended h))) as Hlt.
  { apply Forall_fmap. exact Hx. }
  revert Hi Hlt. generalize (UseWeatherData.nextRequest h).
  generalize (map UseWeatherData.requestId (UseWeatherData.suspended h)).
  intros ids n Hnd Hlt.
  assert (ids ⊆ seq 0 n) as Hsub.
  { intros i Hin. rewrite Forall_forall in Hlt. apply elem_of_seq.
    specialize (Hlt i Hin). lia. }
  pose proof (submseteq_length ids (seq 0 n)
                (NoDup_submseteq ids (seq 0 n) Hnd Hsub)) as Hlen.
  by rewrite length_seq in Hlen.
Qed.

(** A city that is empty or white space throughout is refused by the
    hook before anything else happens: the error is set and nothing
    else changes. No controller is aborted or made, no time is
    tracked, the cache is not read, the service is not called and the
    request count stays; a request under way goes on. These are the
    only strings that [trim] leaves nothing of. *)
Theorem blank_city_is_refused_without_effect {D : Type}
    (toLowerCase : JsString -> JsString) (now : Z) (city : JsString)
    (h : UseWeatherData.t D) :
  Forall (fun c => isWhiteSpace c = true) city ->
  UseWeatherData.trim city = []
  /\ UseWeatherData.resolve toLowerCase now city h
     = UseWeatherData.mk
         (UseWeatherData.mkState
            (UseWeatherData.data (UseWeatherData.state h))
            (UseWeatherData.loading (UseWeatherData.state h))
            (Some (mkError PlainError "City name is required" None None))
            (UseWeatherData.metrics (UseWeatherData.state h)))
         (UseWeatherData.searchHistory h) (UseWeatherData.cacheRef h)
         (UseWeatherData.performanceTrackerRef h)
         (UseWeatherData.responseTimesRef h)
         (UseWeatherData.abortControllerRef h)
         (UseWeatherData.hookControllers h) (UseWeatherData.hookAborted h)
         (UseWeatherData.service h) (UseWeatherData.suspended h)
         (UseWeatherData.nextRequest h)
  /\ forall other : JsString,
       UseWeatherData.trim other = []
       -> Forall (fun c => isWhiteSpace c = true) other.
Proof.
  intros Hblank. apply trim_blank in Hblank.
  split; [done|]. split.
  - unfold UseWeatherData.resolve. by rewrite Hblank.
  - intros other. apply trim_blank.
Qed.

Lemma blank_city_is_refused_without_effect_witness :
  let h := UseWeatherData.run asciiToLowerCase lyonThenParisThenLyon
             UseWeatherData.init in
  let h' := UseWeatherData.resolve asciiToLowerCase 2000 [32; 9; 160]%N h in
  UseWeatherData.suspended h' = UseWeatherData.suspended h
  /\ UseWeatherData.abortControllerRef h' = UseWeatherData.abortControllerRef h.
Proof.
  intros h h'.
  assert (Forall (fun c => isWhiteSpace c = true) [32; 9; 160]%N) as Hb
    by (repeat constructor).
  destruct (blank_city_is_refused_without_effect asciiToLowerCase 2000
              [32; 9; 160]%N h Hb) as (_ & Hres & _).
  fold h' in Hres. rewrite Hres. split; reflexivity.
Defined.

Section CacheRoundTrip.
Context {D : Type}.
Variable toLowerCase : JsString -> JsString.
Implicit Types (h : UseWeatherData.t D).

(** What the continuation of a call leaves when the service resolved. *)
Lemma settle_ok now rid (d : D) h call rest :
  filter (fun c => UseWeatherData.requestId c = rid) (UseWeatherData.suspended h)
  = call :: rest ->
  let h1 := UseWeatherData.settle now rid (Ok d) h in
  UseWeatherData.cacheRef h1
  = CacheManager.set now (UseWeatherData.normalizedCity call) d None
      (UseWeatherData.cacheRef h)
  /\ UseWeatherData.data (UseWeatherData.state h1) = Some d
  /\ UseWeatherData.suspended h1
     = filter (fun c => UseWeatherData.requestId c <> rid)
         (UseWeatherData.suspended h)
  /\ UseWeatherData.service h1 = UseWeatherData.service h
  /\ UseWeatherData.nextRequest h1 = UseWeatherData.nextRequest h.
Proof.
  intros Hcall h1. subst h1. unfold UseWeatherData.settle. rewrite Hcall.
  unfold UseWeatherData.onData.
  by destruct (UseWeatherData.endPerformanceTracking now _) as [tracker times].
Qed.
End CacheRoundTrip.

(** What the service returned for a city is cached under the city's
    normalized name for [CACHE_TTL]. In any state the hook can reach:
    when the call [rid] for a city resolves with [d] at time [t1], and
    the next thing that happens in the hook is a call of [fetchWeather]
    at time [t2] for any spelling with the same normalized name, then
    up to [t2 = t1 + 300000] the call is answered with [d] from the
    cache, counted as a hit, put at the head of the history, without a
    call of the service or a change of the request count. After that
    time the entry has expired: the lookup deletes it and the request
    goes to the service (for a name the service accepts), while [d]
    stays shown and [loading] is set. The statement is about the very
    next event: a settlement for the same city in between would
    replace the entry, and fifty other cities would evict it. *)
Theorem fetched_city_is_served_from_cache {D : Type}
    (toLowerCase : JsString -> JsString)
    (events : list (UseWeatherData.Event D))
    (rid : nat) (d : D) (t1 t2 : Z) (city : JsString)
    (call : UseWeatherData.Suspended) (rest : list UseWeatherData.Suspended) :
  let h0 := UseWeatherData.run toLowerCase events UseWeatherData.init in
  let h1 := UseWeatherData.settle t1 rid (Ok d) h0 in
  let h2 := UseWeatherData.resolve toLowerCase t2 city h1 in
  filter (fun c => UseWeatherData.requestId c = rid)
    (UseWeatherData.suspended h0) = call :: rest ->
  UseWeatherData.trim city <> [] ->
  toLowerCase (UseWeatherData.trim city) = UseWeatherData.normalizedCity call ->
  (t2 <= t1 + 300000 ->
   UseWeatherData.data (UseWeatherData.state h2) = Some d
   /\ UseWeatherData.loading (UseWeatherData.state h2) = false
   /\ UseWeatherData.error (UseWeatherData.state h2) = None
   /\ UseWeatherData.suspended h2 = UseWeatherData.suspended h1
   /\ UseWeatherData.service h2 = UseWeatherData.service h1
   /\ CacheManager.hitCount (UseWeatherData.cacheRef h2)
      = CacheManager.hitCount (UseWeatherData.cacheRef h1) + 1
   /\ UseWeatherData.requestCount
        (UseWeatherData.metrics (UseWeatherData.state h2))
      = UseWeatherData.requestCount
          (UseWeatherData.metrics (UseWeatherData.state h1))
   /\ head (UseWeatherData.searchHistory h2)
      = Some (UseWeatherData.mkHistory (UseWeatherData.trim city) t2 d))
  /\ (t1 + 300000 < t2 ->
      WeatherApiService.validateCityName (UseWeatherData.trim city) = inl tt ->
      UseWeatherData.data (UseWeatherData.state h2) = Some d
      /\ UseWeatherData.loading (UseWeatherData.state h2) = true
      /\ CacheManager.missCount (UseWeatherData.cacheRef h2)
         = CacheManager.missCount (UseWeatherData.cacheRef h1) + 1
      /\ JsMap.has (LRUCache.cache
                      (CacheManager.cache (UseWeatherData.cacheRef h2)))
           (UseWeatherData.normalizedCity call) = false
      /\ exists controller,
           UseWeatherData.suspended h2
           = UseWeatherData.suspended h1
             ++ [UseWeatherData.mkSuspended (UseWeatherData.nextRequest h1)
                   (UseWeatherData.normalizedCity call)
                   (UseWeatherData.trim city) controller]).
Proof.
  intros h0 h1 h2 Hcall Htrim Hnorm.
  destruct (inv_hook_run toLowerCase events UseWeatherData.init inv_init)
    as [_ [_ Httl] _ _ _ _ _ _ _ _].
  fold h0 in Httl.
  change (LRUCache.defaultTTL
            (CacheManager.cache (UseWeatherData.cacheRef h0)) = 300000)
    in Httl.
  destruct (settle_ok t1 rid d h0 call rest Hcall) as (Hc1 & Hd1 & _).
  fold h1 in Hc1, Hd1. clearbody h1. clearbody h0.
  subst h2. unfold UseWeatherData.resolve.
  destruct (UseWeatherData.trim city) as [|c0 trimmed] eqn:Et; [done|].
  cbv zeta. rewrite Hnorm.
  set (key := UseWeatherData.normalizedCity call) in *.
  set (m0 := UseWeatherData.cacheRef h0) in *.
  assert (CacheManager.cache (UseWeatherData.cacheRef h1)
          = LRUCache.set t1 key d None (CacheManager.cache m0)) as Hstore
    by (by rewrite Hc1).
  unfold CacheManager.get. rewrite Hstore.
  split.
  - intros Hfresh.
    pose proof (get_after_set (CacheManager.cache m0) t1 t2 key d None) as Hget.
    cbn [js_or] in Hget. rewrite Httl in Hget. specialize (Hget Hfresh).
    destruct (LRUCache.get t2 key (LRUCache.set t1 key d None
                                     (CacheManager.cache m0))) as [v c'].
    cbn [fst] in Hget. subst v.
    destruct (UseWeatherData.endPerformanceTracking t2 _) as [tracker times].
    unfold UseWeatherData.updateSearchHistory,
      UseWeatherData.MAX_SEARCH_HISTORY.
    cbn. repeat split; reflexivity.
  - intros Hstale Hvalid.
    pose proof (set_stores_entry (CacheManager.cache m0) t1 key d None)
      as Hentry.
    pose proof (get_expired (LRUCache.set t1 key d None (CacheManager.cache m0))
                  t2 key _ Hentry) as Hget.
    cbn [expiresAt js_or] in Hget. rewrite Httl in Hget.
    specialize (Hget Hstale).
    rewrite Hget, Hvalid. cbn. rewrite Hd1.
    split; [reflexivity|]. split; [reflexivity|]. split; [reflexivity|].
    split; [|eauto].
    unfold JsMap.has. by rewrite jsmap_get_delete_eq.
Qed.

Lemma fetched_city_is_served_from_cache_witness :
  let h1 := UseWeatherData.settle 40 0 (Ok "report for Lyon"%string)
              (UseWeatherData.run asciiToLowerCase
                 [UseWeatherData.Resolve 0 lyon] UseWeatherData.init) in
  let h2 := UseWeatherData.resolve asciiToLowerCase 300040
              (jsString " LYON ") h1 in
  UseWeatherData.data (UseWeatherData.state h2) = Some "report for Lyon"%string
  /\ UseWeatherData.suspended h2 = UseWeatherData.suspended h1.
Proof.
  intros h1 h2.
  assert (UseWeatherData.trim (jsString " LYON ") <> []) as Ht
    by (vm_compute; discriminate).
  assert (300040 <= 40 + 300000) as Hle by lia.
  destruct (fetched_city_is_served_from_cache asciiToLowerCase
              [UseWeatherData.Resolve 0 lyon] 0 "report for Lyon"%string
              40 300040 (jsString " LYON ")
              (UseWeatherData.mkSuspended 0 (jsString "lyon") lyon (Some 0%nat))
              [] eq_refl Ht eq_refl) as [Hfresh _].
  destruct (Hfresh Hle) as (Hd & _ & _ & Hsus & _).
  split; [exact Hd | exact Hsus].
Defined.
